(** * publish-gist: extraction, sanitisation and rewriting of image references

    A shallow embedding of [skills/publish-gist/publish-gist.py].

    Python [str] values are modelled as lists of characters ([list ascii]);
    a character stands for the code point with the same number, so the model
    covers texts whose code points are below 256.  On such texts the
    regular-expression operations used by the script ([re.finditer] and
    [re.sub] with literal characters, character classes, greedy [*] and [+]
    over a class, capturing groups and the [IGNORECASE] flag) are modelled by
    a small backtracking matcher that tries alternatives in Python's order.

    The Python set [taken] is a [gset]; the dictionaries [rewrite_map] and
    [resolved_images] are association lists in insertion order, because
    [main] iterates over them. *)

From Stdlib Require Import Ascii String.
From stdpp Require Import base option list sets gmap strings pretty.

Local Open Scope char_scope.
Local Open Scope list_scope.

(** ** Python strings *)

Abbreviation str := (list ascii).

(** [txt "abc"] is the Python literal ['abc']. *)
Definition txt (s : string) : str := list_ascii_of_string s.

(** The double-quote character. *)
Definition dquote : ascii := "034".
(** The single-quote character. *)
Definition squote : ascii := "'".
(** The backslash character. *)
Definition backslash : ascii := "\".

Definition ascii_eqb (a b : ascii) : bool := bool_decide (a = b).

(** [s.startswith(p)] *)
Fixpoint startswith (s p : str) {struct p} : bool :=
  match p, s with
  | [], _ => true
  | a :: p', b :: s' => ascii_eqb a b && startswith s' p'
  | _ :: _, [] => false
  end.

(** [s.endswith(p)] *)
Definition endswith (s p : str) : bool :=
  startswith (rev s) (rev p).

(** [sub in s] for strings. *)
Fixpoint contains (s sub : str) : bool :=
  startswith s sub ||
  match s with
  | [] => false
  | _ :: s' => contains s' sub
  end.

(** [s.replace(a, b)] for one-character [a] and [b]. *)
Definition replace_char (a b : ascii) (s : str) : str :=
  map (fun c => if ascii_eqb c a then b else c) s.

(** [s.rfind(c)] for a one-character [c]: the highest index of [c], or [-1]. *)
Fixpoint rfind_from (i : Z) (c : ascii) (s : str) : Z :=
  match s with
  | [] => (-1)%Z
  | a :: s' =>
      let r := rfind_from (i + 1) c s' in
      if (0 <=? r)%Z then r else if ascii_eqb a c then i else (-1)%Z
  end.
Definition rfind (s : str) (c : ascii) : Z := rfind_from 0 c s.

(** Slices [s[:i]], [s[i:]] and [s[i:j]] for non-negative [i], [j]. *)
Definition slice_to (s : str) (i : Z) : str := take (Z.to_nat i) s.
Definition slice_from (s : str) (i : Z) : str := drop (Z.to_nat i) s.
Definition slice (s : str) (i j : Z) : str :=
  take (Z.to_nat j - Z.to_nat i) (drop (Z.to_nat i) s).

(** [str(n)] for a non-negative integer. *)
Definition str_of_nat (n : nat) : str := txt (pretty n).

(** ** Case folding

    [lower] is the simple lower-case mapping that Python's [re] applies to
    both sides of a case-insensitive comparison, restricted to the code
    points below 256: [A]-[Z] and the Latin-1 capitals 192-222 (without the
    multiplication sign 215) move up by 32. *)
Definition lower (c : ascii) : ascii :=
  let n := nat_of_ascii c in
  if ((65 <=? n) && (n <=? 90) ||
      (192 <=? n) && (n <=? 222) && negb (n =? 215))%nat
  then ascii_of_nat (n + 32) else c.

(** ** Regular expressions

    Only the constructs that occur in the script. *)
Inductive atom : Type :=
  | Lit (c : ascii)            (* a literal (possibly escaped) character *)
  | OneOf (cs : list ascii)    (* [...] *)
  | NoneOf (cs : list ascii).  (* [^...] *)

Inductive regex : Type :=
  | Eps
  | Atom (a : atom)
  | Cat (r1 r2 : regex)
  | Star (a : atom)            (* greedy a* *)
  | Plus (a : atom)            (* greedy a+ *)
  | Group (r : regex).         (* a capturing group; none is nested *)

(** A literal string, as produced by [re.escape]. *)
Fixpoint lits (s : str) : regex :=
  match s with
  | [] => Eps
  | c :: s' => Cat (Atom (Lit c)) (lits s')
  end.

(** The concatenation of a list of pieces. *)
Definition cats (rs : list regex) : regex := foldr Cat Eps rs.

Definition char_eq (ic : bool) (p c : ascii) : bool :=
  if ic then ascii_eqb (lower c) (lower p) else ascii_eqb c p.

(** Does atom [a] accept character [c]?  [ic] is the [IGNORECASE] flag. *)
Definition atom_matches (ic : bool) (a : atom) (c : ascii) : bool :=
  match a with
  | Lit p => char_eq ic p c
  | OneOf cs => existsb (fun p => char_eq ic p c) cs
  | NoneOf cs => negb (existsb (fun p => char_eq ic p c) cs)
  end.

(** The result of a successful match attempt at one position: what is left
    of the subject after the match and the captured groups, first group
    first. *)
Definition mres : Type := str * list str.

(** Greedy repetition of an atom: take as many characters as possible and
    give one back at a time while the continuation fails. *)
Fixpoint star_match (ic : bool) (a : atom) (s : str)
    (k : str -> option mres) : option mres :=
  match s with
  | c :: s' =>
      if atom_matches ic a c then
        match star_match ic a s' k with
        | Some r => Some r
        | None => k s
        end
      else k s
  | [] => k []
  end.

(** The backtracking matcher, in continuation-passing style: [m_re ic r s gs k]
    matches [r] at the start of [s] with the groups [gs] captured so far and
    hands the rest to [k]. *)
Fixpoint m_re (ic : bool) (r : regex) (s : str) (gs : list str)
    (k : str -> list str -> option mres) : option mres :=
  match r with
  | Eps => k s gs
  | Atom a =>
      match s with
      | c :: s' => if atom_matches ic a c then k s' gs else None
      | [] => None
      end
  | Cat r1 r2 => m_re ic r1 s gs (fun s' gs' => m_re ic r2 s' gs' k)
  | Star a => star_match ic a s (fun s' => k s' gs)
  | Plus a =>
      match s with
      | c :: s' =>
          if atom_matches ic a c then star_match ic a s' (fun s'' => k s'' gs)
          else None
      | [] => None
      end
  | Group r1 =>
      m_re ic r1 s gs
        (fun s' gs' => k s' (gs' ++ [take (length s - length s') s]))
  end.

(** [pattern.match(s)]: the first successful way to match at the start of
    [s]. *)
Definition match_at (ic : bool) (r : regex) (s : str) : option mres :=
  m_re ic r s [] (fun s' gs => Some (s', gs)).

(** A match object: [m.start()], [m.group(0)] and [m.groups()]. *)
Record rmatch : Type := RMatch {
  m_start : nat;
  m_text : str;
  m_groups : list str
}.

(** [m.group(i)] for [i >= 1]. *)
Definition group (mt : rmatch) (i : nat) : str :=
  default [] (m_groups mt !! (i - 1)).

(** [re.finditer(r, s)]: the non-overlapping matches from left to right.
    [pos] is the index of the head of [s] in the subject and [skip] the
    number of characters still covered by the previous match; a match is
    tried wherever no previous match is in the way, the end of the subject
    included.  (The patterns of the script match no empty string.) *)
Fixpoint finditer_from (ic : bool) (r : regex) (pos skip : nat) (s : str)
    : list rmatch :=
  match s with
  | [] =>
      match skip, match_at ic r [] with
      | O, Some (_, gs) => [RMatch pos [] gs]
      | _, _ => []
      end
  | _ :: s' =>
      match skip with
      | S n => finditer_from ic r (S pos) n s'
      | O =>
          match match_at ic r s with
          | Some (rest, gs) =>
              let len := length s - length rest in
              RMatch pos (take len s) gs
                :: finditer_from ic r (S pos) (len - 1) s'
          | None => finditer_from ic r (S pos) 0 s'
          end
      end
  end.

Definition finditer (ic : bool) (r : regex) (s : str) : list rmatch :=
  finditer_from ic r 0 0 s.

(** ** [find_local_image_refs] *)

(** [r'!\[[^\]]*\]\(([^)]+)\)'] *)
Definition md_image_re : regex :=
  cats [ Atom (Lit "!"); Atom (Lit "["); Star (NoneOf ["]"]); Atom (Lit "]");
         Atom (Lit "(");
         Group (Plus (NoneOf [")"]));
         Atom (Lit ")") ].

(** [r'<img[^>]+src=[Q]([^Q]+)[Q]'] compiled with [re.IGNORECASE], where
    [Q] stands for the two quote characters, double and single. *)
Definition html_img_re : regex :=
  cats [ lits (txt "<img"); Plus (NoneOf [">"]); lits (txt "src=");
         Atom (OneOf [dquote; squote]);
         Group (Plus (NoneOf [dquote; squote]));
         Atom (OneOf [dquote; squote]) ].

(** [path.startswith(("http://", "https://"))] *)
Definition is_url (path : str) : bool :=
  startswith path (txt "http://") || startswith path (txt "https://").

(** The body shared by the two [for match in re.finditer(...)] loops:
    append [match.group(1)] unless it is a URL. *)
Definition collect_refs (ms : list rmatch) (refs : list str) : list str :=
  foldl (fun refs mt =>
           let path := group mt 1 in
           if negb (is_url path) then refs ++ [path] else refs)
        refs ms.

(** The deduplication loop, with its two variables [seen] and [unique]. *)
Definition dedup_step (st : gset str * list str) (ref : str)
    : gset str * list str :=
  let '(seen, unique) := st in
  if bool_decide (ref ∉ seen) then ({[ref]} ∪ seen, unique ++ [ref])
  else (seen, unique).

Definition dedup (refs : list str) : list str :=
  snd (foldl dedup_step (∅, []) refs).

Definition find_local_image_refs (content : str) : list str :=
  let refs := [] in
  let refs := collect_refs (finditer false md_image_re content) refs in
  let refs := collect_refs (finditer true html_img_re content) refs in
  dedup refs.

(** ** [os.path] on a POSIX system *)

(** [s.split(sep)] for a one-character separator: never empty, one more
    piece than there are separators. *)
Fixpoint split (sep : ascii) (s : str) : list str :=
  match s with
  | [] => [[]]
  | c :: s' =>
      if ascii_eqb c sep then [] :: split sep s'
      else match split sep s' with
           | piece :: pieces => (c :: piece) :: pieces
           | [] => [[c]]
           end
  end.

(** [sep.join(pieces)] *)
Fixpoint join_with (sep : ascii) (pieces : list str) : str :=
  match pieces with
  | [] => []
  | [p] => p
  | p :: ps => p ++ sep :: join_with sep ps
  end.

(** [s.lstrip(c)] and [s.rstrip(c)] for a one-character [c]. *)
Fixpoint lstrip_char (c : ascii) (s : str) : str :=
  match s with
  | a :: s' => if ascii_eqb a c then lstrip_char c s' else s
  | [] => []
  end.
Definition rstrip_char (c : ascii) (s : str) : str :=
  rev (lstrip_char c (rev s)).

(** [os.path.basename]: what follows the last slash. *)
Definition basename (p : str) : str :=
  let i := (rfind p "/" + 1)%Z in
  slice_from p i.

(** [os.path.dirname] *)
Definition dirname (p : str) : str :=
  let i := (rfind p "/" + 1)%Z in
  let head := slice_to p i in
  if negb (bool_decide (head = [])) &&
     negb (forallb (fun c => ascii_eqb c "/") head)
  then rstrip_char "/" head else head.

(** [os.path.splitext]: [genericpath._splitext] with [sep = '/'], no
    [altsep] and [extsep = '.'].  The extension starts at the last dot of
    the last component, unless only dots come before it there. *)
Definition splitext (p : str) : str * str :=
  let sepIndex := rfind p "/" in
  let dotIndex := rfind p "." in
  if (sepIndex <? dotIndex)%Z then
    if existsb (fun c => negb (ascii_eqb c "."))
         (slice p (sepIndex + 1) dotIndex)
    then (slice_to p dotIndex, slice_from p dotIndex)
    else (p, [])
  else (p, []).

(** ** [sanitize_filename] *)

(** [f"{name}-{counter}{ext}"] *)
Definition numbered (name : str) (counter : nat) (ext : str) : str :=
  name ++ "-" :: str_of_nat counter ++ ext.

(** The loop [while f"{name}-{counter}{ext}" in taken: counter += 1].  The
    set is finite, so the loop body runs at most [size taken] times; [fuel]
    bounds the number of tests of the condition. *)
Fixpoint first_free (fuel : nat) (name ext : str) (taken : gset str)
    (counter : nat) : nat :=
  match fuel with
  | O => counter
  | S fuel' =>
      if bool_decide (numbered name counter ext ∈ taken)
      then first_free fuel' name ext taken (S counter)
      else counter
  end.

(** The function returns the chosen name; the second component is the set
    [taken] as the call leaves it. *)
Definition sanitize_filename (path : str) (taken : gset str)
    : str * gset str :=
  let base := "_" :: replace_char " " "-" (basename path) in
  if bool_decide (base ∉ taken) then (base, {[base]} ∪ taken)
  else
    let '(name, ext) := splitext base in
    let counter := first_free (S (size taken)) name ext taken 2 in
    let result := numbered name counter ext in
    (result, {[result]} ∪ taken).

(** ** Path resolution *)

(** [os.path.isabs] *)
Definition isabs (p : str) : bool := startswith p ["/"].

(** [os.path.join(a, b)] *)
Definition join (a b : str) : str :=
  if startswith b ["/"] then b
  else if bool_decide (a = []) || endswith a ["/"] then a ++ b
  else a ++ "/" :: b.

(** One turn of the loop over the components in [os.path.normpath]. *)
Definition normpath_step (initial_slashes : nat) (new_comps : list str)
    (comp : str) : list str :=
  if bool_decide (comp = []) || bool_decide (comp = txt ".") then new_comps
  else if negb (bool_decide (comp = txt ".."))
          || ((initial_slashes =? 0)%nat && bool_decide (new_comps = []))
          || (negb (bool_decide (new_comps = []))
              && bool_decide (last new_comps = Some (txt "..")))
  then new_comps ++ [comp]
  else if negb (bool_decide (new_comps = [])) then removelast new_comps
  else new_comps.

(** [os.path.normpath] *)
Definition normpath (path : str) : str :=
  if bool_decide (path = []) then txt "."
  else
    let initial_slashes :=
      if startswith path ["/"] then
        if startswith path (txt "//") && negb (startswith path (txt "///"))
        then 2 else 1
      else 0 in
    let comps := foldl (normpath_step initial_slashes) [] (split "/" path) in
    let path := replicate initial_slashes "/" ++ join_with "/" comps in
    if bool_decide (path = []) then txt "." else path.

(** [os.path.abspath]; [cwd] is what [os.getcwd()] returns. *)
Definition abspath (cwd path : str) : str :=
  normpath (if isabs path then path else join cwd path).

(** The components that [os.path.commonpath] compares: the pieces between
    slashes, without the empty ones and the single dots. *)
Definition components (p : str) : list str :=
  filter (fun c => c ≠ [] ∧ c ≠ txt ".") (split "/" p).

(** The longest common prefix of two lists. *)
Fixpoint common_prefix (l1 l2 : list str) : list str :=
  match l1, l2 with
  | a :: l1', b :: l2' =>
      if bool_decide (a = b) then a :: common_prefix l1' l2' else []
  | _, _ => []
  end.

(** [os.path.commonpath([a, b])]: [None] stands for the [ValueError] raised
    when one path is absolute and the other is not.  (Python walks along the
    smaller of the two component lists until it differs from the larger
    one, which yields their longest common prefix.) *)
Definition commonpath (a b : str) : option str :=
  if bool_decide (isabs a = isabs b) then
    let common := common_prefix (components a) (components b) in
    Some ((if isabs a then ["/"] else []) ++ join_with "/" common)
  else None.

(** ** Dictionaries in insertion order *)

Fixpoint dict_set (d : list (str * str)) (key value : str)
    : list (str * str) :=
  match d with
  | [] => [(key, value)]
  | (k, v) :: d' =>
      if bool_decide (k = key) then (k, value) :: d'
      else (k, v) :: dict_set d' key value
  end.

Fixpoint dict_get (d : list (str * str)) (key : str) : option str :=
  match d with
  | [] => None
  | (k, v) :: d' => if bool_decide (k = key) then Some v else dict_get d' key
  end.

(** ** The resolution loop of [main] *)

(** The variables the loop reads and writes, and the lines it prints. *)
Record resolution : Type := Resolution {
  rewrite_map : list (str * str);      (* original_ref -> sanitized_filename *)
  resolved_images : list (str * str);  (* sanitized_filename -> absolute_path *)
  taken_names : gset str;
  stdout : list str;
  stderr : list str
}.

Definition warn_outside (ref : str) : str :=
  txt "  Warning: Referenced image outside markdown directory, skipping: "
  ++ ref.
Definition warn_missing (ref : str) : str :=
  txt "  Warning: Referenced image not found, skipping: " ++ ref.

Section Resolve.
(** [urllib.parse.unquote] may produce any code point, so it is a
    parameter of the loop. *)
Variable unquote : str -> str.
(** [os.path.isfile] on the file system of the run. *)
Variable isfile : str -> bool.
(** [os.getcwd()] and [args.markdown_file]. *)
Variables cwd markdown_file : str.

Definition md_dir : str := dirname (abspath cwd markdown_file).

(** [os.path.abspath(os.path.join(md_dir, decoded_ref))] *)
Definition full_path (ref : str) : str :=
  abspath cwd (join md_dir (unquote ref)).

(** One turn of [for ref in image_refs]; [None] is an uncaught
    [ValueError]. *)
Definition resolve_step (st : resolution) (ref : str) : option resolution :=
  let decoded_ref := unquote ref in
  let full_path := abspath cwd (join md_dir decoded_ref) in
  common ← commonpath md_dir full_path;
  if negb (bool_decide (common = md_dir)) then
    Some (Resolution (rewrite_map st) (resolved_images st) (taken_names st)
            (stdout st) (stderr st ++ [warn_outside ref]))
  else if negb (isfile full_path) then
    Some (Resolution (rewrite_map st) (resolved_images st) (taken_names st)
            (stdout st) (stderr st ++ [warn_missing ref]))
  else
    let '(sanitized, taken) := sanitize_filename decoded_ref (taken_names st) in
    Some (Resolution (dict_set (rewrite_map st) ref sanitized)
            (dict_set (resolved_images st) sanitized full_path)
            taken
            (stdout st ++ [txt "  " ++ ref ++ txt " -> " ++ sanitized])
            (stderr st)).

Fixpoint resolve_loop (st : resolution) (image_refs : list str)
    : option resolution :=
  match image_refs with
  | [] => Some st
  | ref :: refs => st' ← resolve_step st ref; resolve_loop st' refs
  end.

Definition resolve_refs (image_refs : list str) : option resolution :=
  resolve_loop (Resolution [] [] ∅ [] []) image_refs.
End Resolve.

(** ** The name of the markdown file in the gist *)

(** [datetime.datetime.now(datetime.timezone.utc)], to the second. *)
Record datetime : Type := Datetime {
  year : nat; month : nat; day : nat;
  hour : nat; minute : nat; second : nat
}.

(** A decimal number padded with zeros on the left to [width] digits. *)
Definition zero_padded (width n : nat) : str :=
  let digits := str_of_nat n in
  replicate (width - length digits) "0" ++ digits.

(** [now.strftime("%Y-%m-%dT%H%M%SZ-")] *)
Definition utc_prefix (now : datetime) : str :=
  zero_padded 4 (year now) ++ "-" :: zero_padded 2 (month now) ++
  "-" :: zero_padded 2 (day now) ++ "T" :: zero_padded 2 (hour now) ++
  zero_padded 2 (minute now) ++ zero_padded 2 (second now) ++ txt "Z-".

(** Lines 104-112 of [main]; [name] is [args.name], [None] when the option
    is not given. *)
Definition gist_md_name (now : datetime) (markdown_file : str)
    (name : option str) : str :=
  let md_basename := basename markdown_file in
  let gist_md_name :=
    match name with
    | Some n => if bool_decide (n = []) then md_basename else n
    | None => md_basename
    end in
  let gist_md_name :=
    if negb (endswith gist_md_name (txt ".md"))
    then gist_md_name ++ txt ".md" else gist_md_name in
  utc_prefix now ++ gist_md_name.

(** ** The answer of [gh gist create] *)

(** What happens after [gist_url = run(cmd)]. *)
Inductive outcome (A : Type) : Type :=
  | Exit (code : Z) (err : list str)   (* [sys.exit(code)] after printing
                                          [err] to [sys.stderr] *)
  | Proceed (a : A).
Arguments Exit {A} code err.
Arguments Proceed {A} a.

Definition snippet_host : str := txt "gist.github.com".

(** Lines 160-164 of [main]: the check of the returned text, then
    [gist_id = gist_url.rstrip("/").split("/")[-1]]. *)
Definition check_gist_url (gist_url : str) : outcome str :=
  if negb (contains gist_url snippet_host) then
    Exit 1 [txt "Error: Unexpected response from gh: " ++ gist_url]
  else
    let gist_id := default [] (last (split "/" (rstrip_char "/" gist_url))) in
    Proceed gist_id.

(** ** Raw URLs *)

(** The characters that [urllib.parse.quote] never encodes: letters, digits
    and [_.-~], and its default [safe='/']. *)
Definition quote_safe (c : ascii) : bool :=
  let n := nat_of_ascii c in
  ((65 <=? n) && (n <=? 90) || (97 <=? n) && (n <=? 122) ||
   (48 <=? n) && (n <=? 57))%nat
  || existsb (ascii_eqb c) (txt "_.-~/").

(** The UTF-8 encoding of a code point below 256, as byte values. *)
Definition utf8_encode (c : ascii) : list nat :=
  let n := nat_of_ascii c in
  if (n <? 128)%nat then [n] else [192 + n / 64; 128 + n mod 64]%nat.

Definition hex_digit (n : nat) : ascii :=
  ascii_of_nat (if (n <? 10)%nat then 48 + n else 55 + n).

(** ['%{:02X}'.format(byte)] *)
Definition percent_byte (b : nat) : str :=
  ["%"; hex_digit (b / 16); hex_digit (b mod 16)].

(** [urllib.parse.quote(s)] *)
Definition quote (s : str) : str :=
  flat_map (fun c => if quote_safe c then [c]
                     else flat_map percent_byte (utf8_encode c)) s.

Definition raw_host_prefix : str := txt "https://gist.githubusercontent.com/".

(** [f"https://gist.githubusercontent.com/{owner}/{gist_id}/raw/{encoded_name}"] *)
Definition raw_url (owner gist_id encoded_name : str) : str :=
  raw_host_prefix ++ owner ++ "/" :: gist_id ++ txt "/raw/" ++ encoded_name.

(** ** [re.sub] *)

(** A replacement template: group references and literal text.  The
    template [rf"\1{raw_url}\3"] is [[TGroup 1; TText raw_url; TGroup 3]]:
    the URL starts with a letter, so [\1] is a complete reference, and login
    names and gist identifiers contain no backslash, so the URL is copied
    as it is. *)
Inductive titem : Type :=
  | TGroup (i : nat)
  | TText (s : str).

Definition expand (template : list titem) (gs : list str) : str :=
  flat_map (fun t => match t with
                     | TGroup i => default [] (gs !! (i - 1))
                     | TText s => s
                     end) template.

(** [re.sub(r, template, s)]: the scan of [finditer]; each match is
    replaced by the expanded template and what lies between the matches is
    copied. *)
Fixpoint sub_from (ic : bool) (r : regex) (template : list titem)
    (skip : nat) (s : str) : str :=
  match s with
  | [] =>
      match skip, match_at ic r [] with
      | O, Some (_, gs) => expand template gs
      | _, _ => []
      end
  | c :: s' =>
      match skip with
      | S n => sub_from ic r template n s'
      | O =>
          match match_at ic r s with
          | Some (rest, gs) =>
              match length s - length rest with
              | O => expand template gs ++ c :: sub_from ic r template 0 s'
              | S n => expand template gs ++ sub_from ic r template n s'
              end
          | None => c :: sub_from ic r template 0 s'
          end
      end
  end.

Definition re_sub (ic : bool) (r : regex) (template : list titem) (s : str)
    : str :=
  sub_from ic r template 0 s.

(** ** The rewriting loop of [main] *)

(** [rf"(!\[[^\]]*\]\()({escaped_ref})(\))"] *)
Definition md_rewrite_re (orig_ref : str) : regex :=
  cats [ Group (cats [ Atom (Lit "!"); Atom (Lit "["); Star (NoneOf ["]"]);
                       Atom (Lit "]"); Atom (Lit "(") ]);
         Group (lits orig_ref);
         Group (Atom (Lit ")")) ].

(** [rf"(<img[^>]+src=[Q])({escaped_ref})([Q])"], compiled with
    [re.IGNORECASE]; [Q] is as in [html_img_re]. *)
Definition img_rewrite_re (orig_ref : str) : regex :=
  cats [ Group (cats [ lits (txt "<img"); Plus (NoneOf [">"]);
                       lits (txt "src="); Atom (OneOf [dquote; squote]) ]);
         Group (lits orig_ref);
         Group (Atom (OneOf [dquote; squote])) ].

(** One turn of [for orig_ref, sanitized in rewrite_map.items()]. *)
Definition rewrite_step (owner gist_id : str) (rewritten : str)
    (entry : str * str) : str :=
  let '(orig_ref, sanitized) := entry in
  let encoded_name := quote sanitized in
  let raw_url := raw_url owner gist_id encoded_name in
  let template := [TGroup 1; TText raw_url; TGroup 3] in
  let rewritten := re_sub false (md_rewrite_re orig_ref) template rewritten in
  re_sub true (img_rewrite_re orig_ref) template rewritten.

Definition rewrite_content (owner gist_id : str)
    (rewrite_map : list (str * str)) (content : str) : str :=
  foldl (rewrite_step owner gist_id) content rewrite_map.

(** ** Notions used in the statements *)

(** [sub] occurs somewhere in [s]. *)
Definition occurs_in (sub s : str) : Prop :=
  ∃ pre post, s = pre ++ sub ++ post.

(** The diagnostic printed when the answer of [gh gist create] is not a
    gist URL. *)
Definition unexpected_response (gist_url : str) : str :=
  txt "Error: Unexpected response from gh: " ++ gist_url.

(** The targets that one of the two loops of [find_local_image_refs]
    keeps: [group(1)] of each match unless it is a URL. *)
Definition local_targets (ms : list rmatch) : list str :=
  filter (fun path => is_url path = false) (map (fun mt => group mt 1) ms).

(** Stable removal of duplicates: every element stays where it is seen
    first. *)
Fixpoint first_seen (l : list str) : list str :=
  match l with
  | [] => []
  | x :: l' => x :: filter (fun y => y ≠ x) (first_seen l')
  end.

(** A decimal digit. *)
Definition is_digit (c : ascii) : Prop :=
  (48 ≤ nat_of_ascii c ≤ 57)%nat.

(** Python's order on strings: lexicographic, by code point. *)
Fixpoint str_ltb (a b : str) : bool :=
  match a, b with
  | _, [] => false
  | [], _ :: _ => true
  | x :: a', y :: b' =>
      if (nat_of_ascii x <? nat_of_ascii y)%nat then true
      else if ascii_eqb x y then str_ltb a' b' else false
  end.

(** The naming rule as the specification words it: the override when one is
    given, else the base name of the input file; [.md] appended unless the
    name ends in it; the time stamp in front. *)
Definition spec_gist_md_name (now : datetime) (markdown_file : str)
    (name : option str) : str :=
  let chosen := default (basename markdown_file) name in
  utc_prefix now ++
  (if endswith chosen (txt ".md") then chosen else chosen ++ txt ".md").

(** The ranges of the fields of a [datetime]; from the year 1000 on every
    platform prints the year with four digits. *)
Definition valid_datetime (now : datetime) : Prop :=
  (1000 ≤ Z.of_nat (year now) ≤ 9999)%Z ∧ 1 ≤ month now ≤ 12 ∧
  1 ≤ day now ≤ 31 ∧ hour now ≤ 23 ∧ minute now ≤ 59 ∧ second now ≤ 59.

(** [p] lies in the subtree of the directory [dir]: the components of [dir]
    are the first components of [p]. *)
Definition in_subtree (dir p : str) : Prop :=
  components dir `prefix_of` components p.

(** The keys of a dictionary. *)
Definition keys (d : list (str * str)) : list str := d.*1.

(** What a component of a path looks like: no slash, not empty and not a
    single dot. *)
Definition clean (c : str) : Prop := ("/" ∉ c) ∧ c ≠ [] ∧ c ≠ txt ".".

(** The two tests of the loop of [main] on a reference: the guard against
    directory traversal and [os.path.isfile]. *)
Definition accepted (unquote : str -> str) (isfile : str -> bool)
    (cwd markdown_file ref : str) : bool :=
  let dir := md_dir cwd markdown_file in
  let p := full_path unquote cwd markdown_file ref in
  bool_decide (commonpath dir p = Some dir) && isfile p.

(** ** What a pattern matches

    [parse ic r s gs gs']: the pattern [r] matches the whole of [s], and the
    groups captured on the way extend [gs] to [gs']. *)
Inductive parse (ic : bool) : regex → str → list str → list str → Prop :=
  | parse_eps gs : parse ic Eps [] gs gs
  | parse_atom a c gs :
      atom_matches ic a c = true → parse ic (Atom a) [c] gs gs
  | parse_cat r1 r2 s1 s2 gs gs1 gs2 :
      parse ic r1 s1 gs gs1 → parse ic r2 s2 gs1 gs2 →
      parse ic (Cat r1 r2) (s1 ++ s2) gs gs2
  | parse_star a s gs :
      Forall (fun c => atom_matches ic a c = true) s →
      parse ic (Star a) s gs gs
  | parse_plus a s gs :
      s ≠ [] → Forall (fun c => atom_matches ic a c = true) s →
      parse ic (Plus a) s gs gs
  | parse_group r s gs gs' :
      parse ic r s gs gs' → parse ic (Group r) s gs (gs' ++ [s]).

(** [r] matches a prefix of [s] and leaves [rest], with the groups [gs]. *)
Definition matches_prefix (ic : bool) (r : regex) (s rest : str)
    (gs : list str) : Prop :=
  ∃ s1, s = s1 ++ rest ∧ parse ic r s1 [] gs.

(** [s] spells [pattern], up to the case of the letters when [ic] is set. *)
Definition same_letters (ic : bool) (pattern s : str) : Prop :=
  Forall2 (fun p c => char_eq ic p c = true) pattern s.

#[global] Instance same_letters_dec ic pattern s :
  Decision (same_letters ic pattern s).
Proof. unfold same_letters. apply _. Defined.

Definition is_quote (c : ascii) : Prop := c = dquote ∨ c = squote.

(** ** Occurrences of a reference in the two syntaxes *)

(** What precedes the target of a markdown image: [![alt](]. *)
Definition md_open (before : str) : Prop :=
  ∃ alt, before = txt "![" ++ alt ++ txt "](" ∧ "]" ∉ alt.

(** What precedes the target in an image tag: [<img], at least one
    character of attributes without [>], [src=] and a quote; the letters in
    either case. *)
Definition img_open (before : str) : Prop :=
  ∃ tag attrs src q,
    before = tag ++ attrs ++ src ++ [q] ∧
    same_letters true (txt "<img") tag ∧ attrs ≠ [] ∧ (">" ∉ attrs) ∧
    same_letters true (txt "src=") src ∧ is_quote q.

(** [x], between [before] and [after], is the reference [ref] as the target
    of a markdown image. *)
Definition md_occurrence (ref before x after : str) : Prop :=
  md_open before ∧ x = ref ∧ after = [")"].

(** [x], between [before] and [after], is the reference [ref] as the target
    of an image tag. *)
Definition img_occurrence (ref before x after : str) : Prop :=
  img_open before ∧ x = ref ∧ ∃ q, after = [q] ∧ is_quote q.

(** The same when [x] spells [ref] up to the case of its letters. *)
Definition img_occurrence_ci (ref before x after : str) : Prop :=
  img_open before ∧ same_letters true ref x ∧ ∃ q, after = [q] ∧ is_quote q.

(** [substituted occ url t t']: [t'] is [t] with [url] in the place of [x]
    in every leftmost occurrence [before ++ x ++ after] that does not
    overlap an earlier one; everything else is copied. *)
Inductive substituted (occ : str → str → str → Prop) (url : str)
    : str → str → Prop :=
  | substituted_nil : substituted occ url [] []
  | substituted_copy c t t' :
      (∀ before x after rest,
         c :: t = before ++ x ++ after ++ rest → ¬ occ before x after) →
      substituted occ url t t' →
      substituted occ url (c :: t) (c :: t')
  | substituted_hit before x after rest rest' :
      occ before x after →
      substituted occ url rest rest' →
      substituted occ url (before ++ x ++ after ++ rest)
                          (before ++ url ++ after ++ rest').

(** ** Matches of the two extraction patterns *)

(** [m] is a markdown image [![alt](target)] and [gs] its one group. *)
Definition md_match (m : str) (gs : list str) : Prop :=
  ∃ before target,
    m = before ++ target ++ [")"] ∧ md_open before ∧
    (")" ∉ target) ∧ target ≠ [] ∧ gs = [target].

(** [m] is the part of an image tag that ends with the quoted value of
    [src], and [gs] its one group. *)
Definition img_match (m : str) (gs : list str) : Prop :=
  ∃ before target q,
    m = before ++ target ++ [q] ∧ img_open before ∧
    target ≠ [] ∧ Forall (fun c => ¬ is_quote c) target ∧ is_quote q ∧
    gs = [target].

(** [scanned occurs pos s ms]: [ms] lists, from left to right, matches that
    do not overlap in the text [s], which starts at index [pos] of the
    subject; where the scan passes a character without a match, nothing
    that [occurs] starts. *)
Inductive scanned (occurs : str → list str → Prop)
    : nat → str → list rmatch → Prop :=
  | scanned_nil pos : scanned occurs pos [] []
  | scanned_pass pos c s ms :
      (∀ m gs rest, c :: s = m ++ rest → ¬ occurs m gs) →
      scanned occurs (S pos) s ms →
      scanned occurs pos (c :: s) ms
  | scanned_hit pos m gs rest ms :
      occurs m gs → m ≠ [] →
      scanned occurs (pos + length m) rest ms →
      scanned occurs pos (m ++ rest) (RMatch pos m gs :: ms).

(** Two sorted lists of matches merged by their start. *)
Fixpoint merge_by_start (ms1 : list rmatch) : list rmatch → list rmatch :=
  fix merge_with (ms2 : list rmatch) : list rmatch :=
    match ms1, ms2 with
    | [], _ => ms2
    | _, [] => ms1
    | m1 :: ms1', m2 :: ms2' =>
        if (m_start m1 <=? m_start m2)%nat
        then m1 :: merge_by_start ms1' ms2
        else m2 :: merge_with ms2'
    end.

(** The extraction as the specification words it: the local targets of
    both syntaxes in the order of the document, each kept where it is seen
    first. *)
Definition spec_first_seen_refs (content : str) : list str :=
  first_seen (local_targets
    (merge_by_start (finditer false md_image_re content)
                    (finditer true html_img_re content))).

(** The pieces of [t] that spell [ref] up to the case of the letters, from
    left to right. *)
Fixpoint spellings (ref t : str) : list str :=
  let x := take (length ref) t in
  (if bool_decide (same_letters true ref x) then [x] else []) ++
  match t with
  | [] => []
  | _ :: t' => spellings ref t'
  end.

(** The URL of a sanitized name, by its parts. *)
Definition raw_url_of (owner gist_id sanitized : str) : str :=
  txt "https://gist.githubusercontent.com/" ++ owner ++ txt "/" ++ gist_id
  ++ txt "/raw/" ++ quote sanitized.

(** [rewritten owner gist_id m t t']: [t'] comes from [t] by one markdown
    pass and one image-tag pass for each entry of [m], in the order of [m],
    each pass working on the text that the pass before it has left. *)
Inductive rewritten (owner gist_id : str)
    : list (str * str) → str → str → Prop :=
  | rewritten_nil t : rewritten owner gist_id [] t t
  | rewritten_cons ref sanitized m t mid out t' :
      substituted (md_occurrence ref)
        (raw_url_of owner gist_id sanitized) t mid →
      substituted (img_occurrence ref)
        (raw_url_of owner gist_id sanitized) mid out →
      rewritten owner gist_id m out t' →
      rewritten owner gist_id ((ref, sanitized) :: m) t t'.

(** At every image-tag pass of the rewriting of [t], the text that the pass
    works on has the reference of the pass in no other spelling. *)
Fixpoint exact_spellings (owner gist_id : str) (m : list (str * str))
    (t : str) : Prop :=
  match m with
  | [] => True
  | (ref, sanitized) :: m' =>
      let url := raw_url owner gist_id (quote sanitized) in
      let mid := re_sub false (md_rewrite_re ref)
                   [TGroup 1; TText url; TGroup 3] t in
      Forall (fun x => x = ref) (spellings ref mid) ∧
      exact_spellings owner gist_id m'
        (rewrite_step owner gist_id t (ref, sanitized))
  end.

(** [replaces_only P url t t']: [t'] is [t] with [url] in the place of some
    pieces that satisfy [P]. *)
Inductive replaces_only (P : str → Prop) (url : str) : str → str → Prop :=
  | replaces_nil : replaces_only P url [] []
  | replaces_copy c t t' :
      replaces_only P url t t' → replaces_only P url (c :: t) (c :: t')
  | replaces_piece x t t' :
      P x → replaces_only P url t t' →
      replaces_only P url (x ++ t) (url ++ t').

(** The values of a dictionary. *)
Definition values (d : list (str * str)) : list str := d.*2.

(** A component that names a file or a directory: not empty, without
    slash, and neither [.] nor [..]. *)
Definition proper (c : str) : Prop := clean c ∧ c ≠ txt "..".

(** ** Reading a percent-encoded name

    The value of a hexadecimal digit. *)
Definition hex_value (c : ascii) : nat :=
  let n := nat_of_ascii c in
  if ((48 <=? n) && (n <=? 57))%nat then n - 48
  else if ((65 <=? n) && (n <=? 70))%nat then n - 55
  else if ((97 <=? n) && (n <=? 102))%nat then n - 87
  else 0.

(** Percent-decoding of what [quote] produces: [%XX] stands for the byte
    [XX], a byte below 128 for the character with that number, and two
    bytes [192 + h], [128 + l] for the character with the number
    [64 * h + l] (its UTF-8 encoding); any other character stands for
    itself. *)
Fixpoint percent_decode (s : str) : str :=
  match s with
  | [] => []
  | c :: rest =>
      if ascii_eqb c "%" then
        match rest with
        | h1 :: l1 :: rest1 =>
            let b1 := (16 * hex_value h1 + hex_value l1)%nat in
            if (b1 <? 128)%nat then ascii_of_nat b1 :: percent_decode rest1
            else
              match rest1 with
              | _ :: h2 :: l2 :: rest2 =>
                  let b2 := (16 * hex_value h2 + hex_value l2)%nat in
                  ascii_of_nat ((b1 - 192) * 64 + (b2 - 128))
                    :: percent_decode rest2
              | _ => c :: percent_decode rest
              end
        | _ => c :: percent_decode rest
        end
      else c :: percent_decode rest
  end.

(** The characters that [quote] can produce. *)
Definition url_char (c : ascii) : bool := quote_safe c || ascii_eqb c "%".

(** ** Documents of plain text and markdown images *)

(** A piece of a document: text, or an image [![alt](target)]. *)
Inductive piece : Type :=
  | Plain (t : str)
  | Image (alt target : str).

Definition render_piece (p : piece) : str :=
  match p with
  | Plain t => t
  | Image alt target => txt "![" ++ alt ++ txt "](" ++ target ++ [")"]
  end.

(** The text of a document. *)
Definition render (doc : list piece) : str := flat_map render_piece doc.

(** The targets of the images of a document, from left to right. *)
Definition targets (doc : list piece) : list str :=
  flat_map (fun p => match p with Plain _ => [] | Image _ t => [t] end) doc.

(** The characters [!] and [<] stand nowhere but at the head of an image;
    a description has no []], a target is not empty and has no [)]. *)
Definition plain_text (t : str) : Prop := ("!" ∉ t) ∧ ("<" ∉ t).

Definition well_formed (p : piece) : Prop :=
  match p with
  | Plain t => plain_text t
  | Image alt target =>
      plain_text alt ∧ ("]" ∉ alt) ∧
      plain_text target ∧ (")" ∉ target) ∧ target ≠ []
  end.

(** The piece with the URL of its target's entry in the rewrite map, if
    there is one, in the place of the target. *)
Definition retarget (owner gist_id : str) (m : list (str * str))
    (p : piece) : piece :=
  match p with
  | Plain t => Plain t
  | Image alt target =>
      Image alt match dict_get m target with
                | Some sanitized => raw_url owner gist_id (quote sanitized)
                | None => target
                end
  end.

(** ** The run of the script *)

(** What a run does to the outside, in the order in which it does it:
    lines printed on [sys.stdout] or [sys.stderr], calls of
    [subprocess.run], temporary directories made and removed, files copied
    with [shutil.copy2] and written, and the browser opened. *)
Inductive event : Type :=
  | Print (to_stderr : bool) (line : str)
  | Subprocess (cmd : list str) (cwd : option str)
  | MkTemp (dir : str)
  | RmTree (dir : str)
  | Copy2 (src dst : str)
  | WriteText (path text : str)
  | OpenBrowser (url : str).

(** How a piece of the script ends: it returns a value, it calls
    [sys.exit(code)], or it raises an exception that the script does not
    catch. *)
Inductive completion (A : Type) : Type :=
  | Returns (a : A)
  | Exits (code : Z)
  | Raises.
Arguments Returns {A} a.
Arguments Exits {A} code.
Arguments Raises {A}.

(** A piece of the script: the events it produces and how it ends. *)
Definition prog (A : Type) : Type := list event * completion A.

#[global] Instance prog_ret : MRet prog := fun A a => ([], Returns a).

(** Sequencing: what follows runs only when what precedes returns. *)
#[global] Instance prog_bind : MBind prog := fun A B f m =>
  match m.2 with
  | Returns a => (m.1 ++ (f a).1, (f a).2)
  | Exits code => (m.1, Exits code)
  | Raises => (m.1, Raises)
  end.

Definition emit (e : event) : prog unit := ([e], Returns tt).
Definition print (line : str) : prog unit := emit (Print false line).
Definition eprint (line : str) : prog unit := emit (Print true line).
Definition sys_exit {A} (code : Z) : prog A := ([], Exits code).
Definition raise {A} : prog A := ([], Raises).

(** [try: body finally: cleanup] and the exit of a [with] block, for a
    cleanup that does not fail: it runs however the body ends. *)
Definition finally {A} (body : prog A) (cleanup : list event) : prog A :=
  (body.1 ++ cleanup, body.2).

(** [for x in l: body(x)] *)
Fixpoint for_each {A} (l : list A) (body : A → prog unit) : prog unit :=
  match l with
  | [] => mret tt
  | x :: l' => _ ← body x; for_each l' body
  end.

(** The same for a body that updates the variables [s]. *)
Fixpoint for_fold {A S} (l : list A) (s : S) (body : S → A → prog S)
    : prog S :=
  match l with
  | [] => mret s
  | x :: l' => s' ← body s x; for_fold l' s' body
  end.

(** The exit status of the process. *)
Definition exit_status {A} (c : completion A) : Z :=
  match c with
  | Returns _ => 0
  | Exits code => code
  | Raises => 1
  end.

(** [subprocess.CompletedProcess] *)
Record completed : Type := Completed {
  returncode : Z;
  out : str;      (* [result.stdout] *)
  err : str       (* [result.stderr] *)
}.

(** What the run finds outside: the answers of the operating system, of the
    file system and of the commands.  [None] and [false] stand for a call
    that raises.  Making and removing a temporary directory, printing and
    opening the browser are taken to succeed. *)
Record world : Type := World {
  which : str → bool;                       (* [shutil.which(cmd)] finds it *)
  subprocess : list str → option str → option completed;
  isfile : str → bool;                      (* [os.path.isfile] *)
  read_text : str → option str;             (* [open(path).read()] *)
  copy2 : str → str → bool;                 (* [shutil.copy2] succeeds *)
  write_text : str → str → bool;            (* writing a text to [path] *)
  owner_login : str → option str;
    (* the [login] of the [owner] in [json.loads(text)], the empty string
       when there is none; [None] when the expression raises *)
  staging : str;                            (* [tempfile.TemporaryDirectory()] *)
  clone_dir : str;                          (* [tempfile.mkdtemp()] *)
  getcwd : str;                             (* [os.getcwd()] *)
  utcnow : datetime;                        (* [datetime.datetime.now(utc)] *)
  unquote : str → str                       (* [urllib.parse.unquote] *)
}.

(** [args] as [parser.parse_args()] returns it. *)
Record arguments : Type := Args {
  args_markdown_file : str;
  args_name : option str;
  args_public : bool;
  args_desc : option str;
  args_web : bool
}.

(** [c.isspace()] for a code point below 256 *)
Definition isspace (c : ascii) : bool :=
  let n := nat_of_ascii c in
  ((9 <=? n) && (n <=? 13) || (28 <=? n) && (n <=? 32)
   || (n =? 133) || (n =? 160))%nat.

(** [s.lstrip()] and [s.strip()] *)
Fixpoint lstrip (s : str) : str :=
  match s with
  | c :: s' => if isspace c then lstrip s' else s
  | [] => []
  end.
Definition strip (s : str) : str := rev (lstrip (rev (lstrip s))).

Section Run.
Variable w : world.

(** [subprocess.run(cmd, capture_output=True, ..., cwd=cwd)] *)
Definition subprocess_run (cmd : list str) (cwd : option str)
    : prog completed :=
  _ ← emit (Subprocess cmd cwd);
  match subprocess w cmd cwd with
  | Some result => mret result
  | None => raise
  end.

(** [run(cmd, check, cwd)] *)
Definition run (cmd : list str) (check : bool) (cwd : option str)
    : prog str :=
  result ← subprocess_run cmd cwd;
  if check && negb (returncode result =? 0)%Z then
    _ ← eprint (txt "Error running: " ++ join_with " " cmd);
    _ ← (if negb (bool_decide (err result = []))
         then eprint (strip (err result)) else mret tt);
    sys_exit 1
  else mret (strip (out result)).

Definition check_dependencies : prog unit :=
  _ ← for_each [txt "gh"; txt "git"] (fun cmd =>
         if negb (which w cmd) then
           _ ← eprint (txt "Error: '" ++ cmd ++
                       txt "' is required but not found.");
           sys_exit 1
         else mret tt);
  result ← subprocess_run [txt "gh"; txt "auth"; txt "status"] None;
  if negb (returncode result =? 0)%Z then
    _ ← eprint (txt "Error: Not authenticated with gh. Run 'gh auth login' first.");
    sys_exit 1
  else mret tt.

(** [shutil.copy2(src, dst)] *)
Definition shutil_copy2 (src dst : str) : prog unit :=
  _ ← emit (Copy2 src dst);
  if copy2 w src dst then mret tt else raise.

(** The body of [for ref in image_refs] in [main], on the variables
    [rewrite_map], [resolved_images] and [taken_names]. *)
Definition resolve_ref (md_dir : str)
    (vars : list (str * str) * list (str * str) * gset str) (ref : str)
    : prog (list (str * str) * list (str * str) * gset str) :=
  let '(rewrite_map, resolved_images, taken_names) := vars in
  let decoded_ref := unquote w ref in
  let full_path := abspath (getcwd w) (join md_dir decoded_ref) in
  match commonpath md_dir full_path with
  | None => raise
  | Some common =>
      if negb (bool_decide (common = md_dir)) then
        _ ← eprint (warn_outside ref); mret vars
      else if negb (isfile w full_path) then
        _ ← eprint (warn_missing ref); mret vars
      else
        let '(sanitized, taken_names) :=
          sanitize_filename decoded_ref taken_names in
        _ ← print (txt "  " ++ ref ++ txt " -> " ++ sanitized);
        mret (dict_set rewrite_map ref sanitized,
              dict_set resolved_images sanitized full_path,
              taken_names)
  end.

(** Lines 145-158 of [main]: the gist is created from a copy of the
    markdown file under its gist name. *)
Definition create_gist (args : arguments) (gist_md_name : str) : prog str :=
  _ ← print ("010" :: txt "Creating gist...");
  _ ← emit (MkTemp (staging w));
  finally
    (let staged_md := join (staging w) gist_md_name in
     _ ← shutil_copy2 (abspath (getcwd w) (args_markdown_file args))
           staged_md;
     let cmd := [txt "gh"; txt "gist"; txt "create"] in
     let cmd := if args_public args then cmd ++ [txt "--public"] else cmd in
     let cmd :=
       match args_desc args with
       | Some d => if bool_decide (d = []) then cmd
                   else cmd ++ [txt "--desc"; d]
       | None => cmd
       end in
     let cmd := cmd ++ [staged_md] in
     run cmd true None)
    [RmTree (staging w)].

(** Lines 168-218 of [main]: the images are added to the clone of the
    gist and pushed, and the markdown file is replaced by the rewritten
    text. *)
Definition upload_images (gist_md_name content gist_id : str)
    (rewrite_map resolved_images : list (str * str)) : prog unit :=
  let clone_dir := clone_dir w in
  _ ← emit (MkTemp clone_dir);
  finally
    (_ ← print (txt "Cloning gist repo...");
     _ ← run [txt "gh"; txt "gist"; txt "clone"; gist_id; clone_dir] true None;
     _ ← for_each resolved_images (fun '(sanitized, src_path) =>
            shutil_copy2 src_path (join clone_dir sanitized));
     _ ← run [txt "git"; txt "add"; txt "."] true (Some clone_dir);
     _ ← run [txt "git"; txt "commit"; txt "-m"; txt "Add images"] true
           (Some clone_dir);
     _ ← print (txt "Pushing images to gist...");
     _ ← run [txt "git"; txt "push"] true (Some clone_dir);
     gist_json ← run [txt "gh"; txt "api"; txt "gists/" ++ gist_id] true None;
     owner ← match owner_login w gist_json with
             | Some owner => mret owner
             | None => raise
             end;
     let rewritten := rewrite_content owner gist_id rewrite_map content in
     let rewritten_path := join clone_dir gist_md_name in
     _ ← emit (WriteText rewritten_path rewritten);
     _ ← (if write_text w rewritten_path rewritten then mret tt else raise);
     _ ← print (txt "Updating markdown with image URLs...");
     _ ← run [txt "gh"; txt "gist"; txt "edit"; gist_id; txt "-f";
              gist_md_name; rewritten_path] true None;
     print (txt "Gist updated with embedded image URLs"))
    [RmTree clone_dir].

(** [main], after [args = parser.parse_args()]. *)
Definition main (args : arguments) : prog unit :=
  _ ← (if negb (isfile w (args_markdown_file args)) then
         _ ← eprint (txt "Error: File not found: " ++
                     args_markdown_file args);
         sys_exit 1
       else mret tt);
  _ ← check_dependencies;
  let md_dir := dirname (abspath (getcwd w) (args_markdown_file args)) in
  let md_basename := basename (args_markdown_file args) in
  let gist_md_name :=
    gist_md_name (utcnow w) (args_markdown_file args) (args_name args) in
  content ← match read_text w (args_markdown_file args) with
            | Some content => mret content
            | None => raise
            end;
  let image_refs := find_local_image_refs content in
  _ ← print (txt "Processing: " ++ args_markdown_file args);
  _ ← (if negb (bool_decide (gist_md_name = md_basename))
       then print (txt "Gist filename: " ++ gist_md_name) else mret tt);
  _ ← print (txt "Found " ++ str_of_nat (length image_refs) ++
             txt " local image reference(s)");
  '(rewrite_map, resolved_images, _) ←
    for_fold image_refs ([], [], ∅) (resolve_ref md_dir);
  gist_url ← create_gist args gist_md_name;
  gist_id ← match check_gist_url gist_url with
            | Exit code lines => _ ← for_each lines eprint; sys_exit code
            | Proceed gist_id => mret gist_id
            end;
  _ ← print (txt "Gist created: " ++ gist_url);
  _ ← (if negb (bool_decide (rewrite_map = []))
       then upload_images gist_md_name content gist_id rewrite_map
              resolved_images
       else mret tt);
  _ ← print ("010" :: txt "Done! Gist URL: " ++ gist_url);
  if args_web args then
    _ ← print (txt "Opening in browser...");
    emit (OpenBrowser gist_url)
  else mret tt.
End Run.

(** ** Notions used in the statements about a run *)

Definition is_subprocess (e : event) : Prop :=
  match e with Subprocess _ _ => True | _ => False end.

Definition is_open_browser (e : event) : Prop :=
  match e with OpenBrowser _ => True | _ => False end.

Definition is_mktemp (e : event) : Prop :=
  match e with MkTemp _ => True | _ => False end.

(** A call of [subprocess.run] that returned with the code 0; every other
    event counts as succeeded. *)
Definition succeeded (w : world) (e : event) : Prop :=
  match e with
  | Subprocess cmd cwd =>
      ∃ result, subprocess w cmd cwd = Some result ∧ returncode result = 0%Z
  | _ => True
  end.

(** No command is run after a command that failed. *)
Definition ordered (w : world) (t : list event) : Prop :=
  ∀ before e after,
    t = before ++ e :: after → Exists is_subprocess after → succeeded w e.

(** The same, and all commands succeeded when the piece returns. *)
Definition disciplined {A} (w : world) (m : prog A) : Prop :=
  ordered w m.1 ∧ ∀ a, m.2 = Returns a → Forall (succeeded w) m.1.

(** Every temporary directory that is made is removed later. *)
Definition closed (t : list event) : Prop :=
  ∀ before dir after, t = before ++ MkTemp dir :: after → RmTree dir ∈ after.

(** The browser is opened, if at all, as the last event of a piece that
    returns, and on a URL that satisfies [P]. *)
Definition opens_last {A} (P : str → Prop) (m : prog A) : Prop :=
  ∀ url, OpenBrowser url ∈ m.1 →
    (∃ a, m.2 = Returns a) ∧ (∃ t, m.1 = t ++ [OpenBrowser url]) ∧ P url.

(** * Properties *)

(** ** Strings *)

Lemma ascii_eqb_eq a b : ascii_eqb a b = true ↔ a = b.
Proof. unfold ascii_eqb. apply bool_decide_eq_true. Qed.

Lemma ascii_eqb_refl a : ascii_eqb a a = true.
Proof. by apply ascii_eqb_eq. Qed.

Lemma ascii_eqb_neq a b : ascii_eqb a b = false ↔ a ≠ b.
Proof. unfold ascii_eqb. apply bool_decide_eq_false. Qed.

Lemma startswith_prefix s p : startswith s p = true ↔ p `prefix_of` s.
Proof.
  revert s. induction p as [|a p IH]; intros s; simpl.
  - split; [intros _; apply prefix_nil | done].
  - destruct s as [|b s].
    + split; [done | intros [k Hk]; by destruct k].
    + rewrite andb_true_iff, ascii_eqb_eq, IH. split.
      * intros [-> Hp]. by apply prefix_cons.
      * intros [k Hk]. simplify_eq/=. split; [done | by exists k].
Qed.

Lemma startswith_app p t : startswith (p ++ t) p = true.
Proof. apply startswith_prefix. by exists t. Qed.

Lemma contains_occurs s sub : contains s sub = true ↔ occurs_in sub s.
Proof.
  induction s as [|c s IH]; simpl; rewrite orb_true_iff, startswith_prefix.
  - split.
    + intros [[k Hk]|?]; [|done]. by exists [], k.
    + intros (pre & post & H). left. symmetry in H.
      apply app_eq_nil in H as [-> H]. apply app_eq_nil in H as [-> ->].
      by exists [].
  - rewrite IH. split.
    + intros [[k Hk]|(pre & post & ->)].
      * by exists [], k.
      * by exists (c :: pre), post.
    + intros ([|a pre] & post & H).
      * left. by exists post.
      * right. simplify_eq/=. by exists pre, post.
Qed.

(** ** The answer of [gh gist create] *)


(** ** Extraction *)

Lemma collect_refs_app ms refs :
  collect_refs ms refs = refs ++ local_targets ms.
Proof.
  unfold collect_refs, local_targets. revert refs.
  induction ms as [|mt ms IH]; intros refs; simpl.
  - by rewrite app_nil_r.
  - rewrite IH. destruct (is_url (group mt 1)) eqn:Hu; simpl.
    + rewrite filter_cons_False; [done | by rewrite Hu].
    + rewrite filter_cons_True by done. by rewrite <- app_assoc.
Qed.

Lemma dedup_loop_first_seen refs seen unique :
  snd (foldl dedup_step (seen, unique) refs)
  = unique ++ filter (fun y => y ∉ seen) (first_seen refs).
Proof.
  revert seen unique. induction refs as [|x refs IH]; intros seen unique.
  - simpl. by rewrite app_nil_r.
  - simpl. rewrite filter_cons.
    destruct (decide (x ∉ seen)) as [Hx|Hx].
    + rewrite bool_decide_eq_true_2 by done. rewrite IH.
      rewrite <- app_assoc. simpl. do 2 f_equal.
      rewrite list_filter_filter. apply list_filter_iff.
      intros y. rewrite not_elem_of_union, not_elem_of_singleton. tauto.
    + rewrite bool_decide_eq_false_2 by done. rewrite IH. f_equal.
      rewrite list_filter_filter. apply list_filter_iff.
      intros y. split; [|tauto]. intros Hy. split; [done|].
      intros ->. done.
Qed.

Lemma filter_all {A} (P : A → Prop) `{!∀ x, Decision (P x)} (l : list A) :
  (∀ x, x ∈ l → P x) → filter P l = l.
Proof.
  induction l as [|a l IH]; intros Hall; [done|].
  rewrite filter_cons_True by (apply Hall; left).
  f_equal. apply IH. intros x Hx. apply Hall. by right.
Qed.

Lemma dedup_first_seen refs : dedup refs = first_seen refs.
Proof.
  unfold dedup. rewrite dedup_loop_first_seen. simpl.
  apply filter_all. intros y _. set_solver.
Qed.

Lemma elem_of_first_seen x l : x ∈ first_seen l ↔ x ∈ l.
Proof.
  induction l as [|a l IH]; simpl; [done|].
  rewrite !elem_of_cons, list_elem_of_filter, IH.
  destruct (decide (x = a)); naive_solver.
Qed.

Lemma NoDup_first_seen l : NoDup (first_seen l).
Proof.
  induction l as [|a l IH]; simpl; [constructor|].
  constructor.
  - rewrite list_elem_of_filter. naive_solver.
  - by apply NoDup_filter.
Qed.

Lemma first_seen_sublist l : first_seen l `sublist_of` l.
Proof.
  induction l as [|a l IH]; simpl; [done|].
  apply sublist_skip. etrans; [apply sublist_filter | done].
Qed.

Lemma find_local_image_refs_eq content :
  find_local_image_refs content
  = first_seen (local_targets (finditer false md_image_re content)
                ++ local_targets (finditer true html_img_re content)).
Proof.
  unfold find_local_image_refs.
  by rewrite dedup_first_seen, !collect_refs_app.
Qed.

Lemma elem_of_local_targets path ms :
  path ∈ local_targets ms
  ↔ is_url path = false ∧ ∃ mt, mt ∈ ms ∧ group mt 1 = path.
Proof.
  unfold local_targets. rewrite list_elem_of_filter, list_elem_of_fmap.
  naive_solver.
Qed.

(** No URL is returned by the extraction. *)
Lemma find_local_image_refs_not_url content path :
  path ∈ find_local_image_refs content → is_url path = false.
Proof.
  rewrite find_local_image_refs_eq, elem_of_first_seen, elem_of_app,
    !elem_of_local_targets. naive_solver.
Qed.

Lemma is_url_raw_url owner gist_id encoded_name :
  is_url (raw_url owner gist_id encoded_name) = true.
Proof.
  unfold is_url. apply orb_true_iff. right.
  apply startswith_prefix. unfold raw_url, raw_host_prefix.
  exists (txt "gist.githubusercontent.com/" ++ owner ++
          "/" :: gist_id ++ txt "/raw/" ++ encoded_name).
  reflexivity.
Qed.

(** C7: every URL that the rewriter substitutes starts with [https://], and
    the extraction applied to the rewritten text returns none of them. *)
Theorem rewritten_urls_not_extracted
    (owner gist_id : str) (rewrite_map : list (str * str))
    (content sanitized : str) :
  let url := raw_url owner gist_id (quote sanitized) in
  let rewritten := rewrite_content owner gist_id rewrite_map content in
  txt "https://" `prefix_of` url ∧
  url ∉ find_local_image_refs rewritten.
Proof.
  intros url rewritten. split.
  - exists (txt "gist.githubusercontent.com/" ++ owner ++
            "/" :: gist_id ++ txt "/raw/" ++ quote sanitized).
    reflexivity.
  - intros Hin. apply find_local_image_refs_not_url in Hin.
    unfold url in Hin. by rewrite is_url_raw_url in Hin.
Qed.

(** C10: the test for a URL scheme is case-sensitive, although the tag is
    matched without regard to case: a target with an upper-case scheme is
    returned as a local reference, in either syntax and with either quote
    character, while the same target in lower case is not. *)
Theorem upper_case_scheme_is_extracted :
  let target := txt "HTTP://example.com/a.png" in
  is_url target = false ∧
  find_local_image_refs (txt "<IMG SRC='HTTP://example.com/a.png'>")
    = [target] ∧
  find_local_image_refs
    (txt "<IMG SRC=" ++ dquote :: target ++ [dquote; ">"]) = [target] ∧
  find_local_image_refs (txt "![a](HTTP://example.com/a.png)") = [target] ∧
  find_local_image_refs (txt "<IMG SRC='http://example.com/a.png'>") = [].
Proof. by vm_compute. Qed.

(** ** Decimal numbers *)

Lemma txt_String c s : txt (String c s) = c :: txt s.
Proof. done. Qed.

Lemma txt_inj s1 s2 : txt s1 = txt s2 → s1 = s2.
Proof.
  unfold txt. intros H.
  rewrite <- (string_of_list_ascii_of_string s1),
    <- (string_of_list_ascii_of_string s2). by rewrite H.
Qed.

Lemma pretty_N_char_digit x : is_digit (pretty_N_char x).
Proof.
  unfold pretty_N_char, is_digit.
  repeat case_match; cbv; lia.
Qed.

Lemma pretty_N_go_digits x s :
  ∃ p, txt (pretty_N_go x s) = p ++ txt s ∧ Forall is_digit p ∧
       ((0 < x)%N → p ≠ []).
Proof.
  revert s. induction (N.lt_wf_0 x) as [x _ IH]; intros s.
  destruct (decide (0 < x)%N) as [Hx|Hx].
  - rewrite pretty_N_go_step by done.
    destruct (IH (x `div` 10)%N) with
      (s := String (pretty_N_char (x `mod` 10)) s) as (p & Hp & Hd & _).
    { by apply N.div_lt. }
    exists (p ++ [pretty_N_char (x `mod` 10)]). split_and!.
    + rewrite Hp, txt_String. by rewrite <- app_assoc.
    + apply Forall_app. split; [done|].
      constructor; [apply pretty_N_char_digit | constructor].
    + intros _. by destruct p.
  - assert (x = 0%N) as -> by lia. rewrite pretty_N_go_0.
    exists []. split_and!; [done | constructor | lia].
Qed.

Lemma str_of_nat_digits n :
  str_of_nat n ≠ [] ∧ Forall is_digit (str_of_nat n).
Proof.
  unfold str_of_nat, pretty, pretty_nat, pretty, pretty_N.
  destruct (decide (N.of_nat n = 0%N)) as [H0|H0].
  - split; [done|]. constructor; [|constructor].
    unfold is_digit. cbv. lia.
  - destruct (pretty_N_go_digits (N.of_nat n) "") as (p & Hp & Hd & Hne).
    rewrite Hp. simpl. rewrite app_nil_r. split; [|done].
    apply Hne. lia.
Qed.

Lemma str_of_nat_inj n1 n2 : str_of_nat n1 = str_of_nat n2 → n1 = n2.
Proof. intros H%txt_inj. by apply (inj pretty). Qed.

Lemma zero_padded_digits width n :
  zero_padded width n ≠ [] ∧ Forall is_digit (zero_padded width n).
Proof.
  unfold zero_padded. destruct (str_of_nat_digits n) as [Hne Hd]. split.
  - intros [_ H]%app_eq_nil. done.
  - apply Forall_app. split; [|done].
    apply Forall_replicate. unfold is_digit. cbv. lia.
Qed.

(** The time stamp starts with a digit. *)
Lemma utc_prefix_head now :
  ∃ d rest, utc_prefix now = d :: rest ∧ is_digit d.
Proof.
  unfold utc_prefix.
  destruct (zero_padded_digits 4 (year now)) as [Hne Hd].
  destruct (zero_padded 4 (year now)) as [|d ds]; [done|].
  eexists d, _. split; [reflexivity|]. by inversion Hd.
Qed.

(** ** Path names *)

Lemma rfind_from_spec i c s :
  (0 ≤ i)%Z →
  (rfind_from i c s = (-1)%Z ∧ c ∉ s) ∨
  (∃ k : nat, rfind_from i c s = (i + Z.of_nat k)%Z ∧ s !! k = Some c ∧
              c ∉ drop (S k) s).
Proof.
  revert i. induction s as [|a s IH]; intros i Hi.
  - left. split; [done | apply not_elem_of_nil].
  - simpl. destruct (IH (i + 1)%Z) as [[Hr Hn]|(k & Hr & Hk & Hn)]; [lia | |].
    + rewrite Hr. simpl. destruct (ascii_eqb a c) eqn:Hac.
      * apply ascii_eqb_eq in Hac as ->. right. exists 0%nat.
        split_and!; [lia | done | done].
      * apply ascii_eqb_neq in Hac. left. split; [done|].
        rewrite not_elem_of_cons. split; [congruence | done].
    + rewrite Hr. rewrite (proj2 (Z.leb_le 0 _)) by lia.
      right. exists (S k). split_and!; [lia | done | done].
Qed.

Lemma rfind_spec s c :
  (rfind s c = (-1)%Z ∧ c ∉ s) ∨
  (∃ k : nat, rfind s c = Z.of_nat k ∧ s !! k = Some c ∧ c ∉ drop (S k) s).
Proof.
  unfold rfind. destruct (rfind_from_spec 0 c s)
    as [?|(k & Hr & Hk & Hn)]; [lia | by left |].
  right. exists k. by rewrite Hr.
Qed.

(** [os.path.basename] returns what follows the last slash. *)
Lemma basename_spec p :
  ("/" ∉ basename p) ∧ (p = basename p ∨ ∃ d, p = d ++ "/" :: basename p).
Proof.
  unfold basename, slice_from.
  destruct (rfind_spec p "/") as [[-> Hn]|(k & -> & Hp & Hn)].
  - simpl. rewrite drop_0. split; [done | by left].
  - replace (Z.to_nat (Z.of_nat k + 1)) with (S k) by lia. split; [done|].
    right. exists (take k p). by rewrite take_drop_middle.
Qed.

Lemma rfind_ge s c : (-1 ≤ rfind s c)%Z.
Proof. destruct (rfind_spec s c) as [[-> _]|(j & -> & _)]; lia. Qed.

(** [os.path.splitext] cuts its argument in two; the extension is empty or
    starts with the only dot it has. *)
Lemma splitext_spec p name ext :
  splitext p = (name, ext) →
  p = name ++ ext ∧ (ext = [] ∨ ∃ e, ext = "." :: e ∧ "." ∉ e).
Proof.
  unfold splitext, slice_to, slice_from.
  destruct (rfind_spec p ".") as [[-> Hn]|(k & -> & Hp & Hn)].
  - rewrite (proj2 (Z.ltb_ge _ _)).
    + intros [= <- <-]. rewrite app_nil_r. split; [done | by left].
    + apply rfind_ge.
  - rewrite Nat2Z.id. repeat case_match; intros [= <- <-];
      try (rewrite app_nil_r; split; [done | by left]).
    split; [by rewrite take_drop|]. right. exists (drop (S k) p).
    split; [|done]. by apply drop_S.
Qed.

(** When the name starts with an underscore, so does its stem. *)
Lemma splitext_underscore q name ext :
  splitext ("_" :: q) = (name, ext) → ∃ name', name = "_" :: name'.
Proof.
  unfold splitext, slice_to, slice_from.
  destruct (rfind_spec ("_" :: q) ".") as [[-> Hn]|(k & -> & Hp & Hn)].
  - rewrite (proj2 (Z.ltb_ge _ _)) by apply rfind_ge.
    intros [= <- <-]; eauto.
  - rewrite Nat2Z.id. destruct k as [|k]; [done|].
    repeat case_match; intros [= <- <-]; eauto.
Qed.

(** ** [sanitize_filename] *)

Lemma numbered_inj (name ext : str) k1 k2 :
  numbered name k1 ext = numbered name k2 ext → k1 = k2.
Proof.
  unfold numbered. intros H%app_inv_head. injection H as H.
  apply app_inv_tail in H. by apply str_of_nat_inj.
Qed.

(** The search for a free number stops before the fuel runs out, at the
    first number from [counter] on whose name is not taken. *)
Lemma first_free_spec (fuel : nat) (name ext : str) (taken seen : gset str)
    (counter : nat) :
  seen ⊆ taken →
  (∀ j, counter ≤ j → numbered name j ext ∈ taken →
        numbered name j ext ∈ seen) →
  size seen < fuel →
  let k := first_free fuel name ext taken counter in
  counter ≤ k ∧ (numbered name k ext ∉ taken) ∧
  ∀ j, counter ≤ j < k → numbered name j ext ∈ taken.
Proof.
  revert seen counter.
  induction fuel as [|fuel IH]; intros seen counter Hsub Hseen Hsize; [lia|].
  simpl. case_bool_decide as Hin.
  - destruct (IH (seen ∖ {[numbered name counter ext]}) (S counter))
      as (Hle & Hfree & Hbelow).
    + set_solver.
    + intros j Hj Hjt. apply elem_of_difference. split.
      * apply Hseen; [lia | done].
      * rewrite not_elem_of_singleton. intros Heq%numbered_inj. lia.
    + assert (numbered name counter ext ∈ seen) as Hc by (by apply Hseen).
      pose proof (size_difference seen {[numbered name counter ext]}) as Hd.
      rewrite size_singleton in Hd.
      assert (size seen ≠ 0) by (intros ?%size_empty_inv; set_solver).
      rewrite Hd by set_solver. lia.
    + split_and!; [lia | done |].
      intros j Hj. destruct (decide (j = counter)) as [->|]; [done|].
      apply Hbelow. lia.
  - split_and!; [done | done | intros j ?; lia].
Qed.

Lemma sanitize_filename_taken (p : str) (t : gset str) :
  (sanitize_filename p t).2 = {[(sanitize_filename p t).1]} ∪ t.
Proof.
  unfold sanitize_filename.
  case_bool_decide; [done|]. by destruct (splitext _).
Qed.

Lemma sanitize_filename_fresh (p : str) (t : gset str) :
  (sanitize_filename p t).1 ∉ t.
Proof.
  unfold sanitize_filename.
  case_bool_decide; [done|]. destruct (splitext _) as [n e]. simpl.
  by destruct (first_free_spec (S (size t)) n e t t 2)
    as (_ & Hfree & _); [done | done | lia |].
Qed.

(** C3: [sanitize_filename] returns the underscore followed by the base name
    with hyphens for spaces when that name is free; otherwise it inserts
    [-k], for the first [k] from 2 on that gives a free name, between the
    stem and the extension of that name.  The name returned was not taken
    before and is taken afterwards, so two paths with the same base name get
    two different names, both taken in the end, [_img.png] and [_img-2.png]
    when the set was empty. *)
Theorem sanitize_filename_spec (path : str) (taken : gset str) :
  let base := "_" :: replace_char " " "-" (basename path) in
  let stem := (splitext base).1 in
  let ext := (splitext base).2 in
  let result := (sanitize_filename path taken).1 in
  let taken' := (sanitize_filename path taken).2 in
  taken' = {[result]} ∪ taken ∧
  (result ∉ taken) ∧
  (base ∉ taken → result = base) ∧
  (base ∈ taken →
     ∃ k, 2 ≤ k ∧ result = numbered stem k ext ∧
          ∀ j, 2 ≤ j < k → numbered stem j ext ∈ taken) ∧
  base = stem ++ ext ∧
  (ext = [] ∨ ∃ e, ext = "." :: e ∧ "." ∉ e) ∧
  (∀ path', basename path' = basename path →
     let result' := (sanitize_filename path' taken').1 in
     let taken'' := (sanitize_filename path' taken').2 in
     result' ≠ result ∧ result ∈ taken'' ∧ result' ∈ taken'' ∧
     (taken = ∅ → basename path = txt "img.png" →
        result = txt "_img.png" ∧ result' = txt "_img-2.png")).
Proof.
  intros base stem ext result taken'.
  pose proof sanitize_filename_taken as Hset.
  pose proof sanitize_filename_fresh as Hfresh.
  assert (base ∈ taken →
     ∃ k, 2 ≤ k ∧ result = numbered stem k ext ∧
          ∀ j, 2 ≤ j < k → numbered stem j ext ∈ taken) as Hnum.
  { intros Hin. unfold result, sanitize_filename. fold base.
    rewrite bool_decide_eq_false_2 by tauto.
    unfold stem, ext. destruct (splitext base) as [n e]. simpl.
    destruct (first_free_spec (S (size taken)) n e taken taken 2)
      as (Hle & _ & Hbelow); [done | done | lia |].
    eexists. split_and!; [exact Hle | done | done]. }
  split_and!.
  - apply Hset.
  - apply Hfresh.
  - intros Hfree. unfold result, sanitize_filename. fold base.
    by rewrite bool_decide_eq_true_2.
  - exact Hnum.
  - unfold stem, ext. destruct (splitext base) as [n e] eqn:Hs.
    by apply splitext_spec in Hs as [? _].
  - unfold stem, ext. destruct (splitext base) as [n e] eqn:Hs.
    by apply splitext_spec in Hs as [_ ?].
  - intros path' Hbase result' taken''.
    assert (result ∈ taken') as Hin.
    { unfold taken'. rewrite Hset. set_solver. }
    split_and!.
    + intros Heq. apply (Hfresh path' taken'). fold result'. by rewrite Heq.
    + unfold taken''. rewrite Hset. set_solver.
    + unfold taken''. rewrite Hset. set_solver.
    + intros -> Himg.
      assert (result = txt "_img.png") as Hr.
      { unfold result, sanitize_filename. rewrite Himg.
        by rewrite bool_decide_eq_true_2 by set_solver. }
      split; [done|].
      unfold result', taken'. rewrite Hset. fold result. rewrite Hr.
      unfold sanitize_filename. rewrite Hbase, Himg.
      rewrite bool_decide_eq_false_2 by set_solver.
      change (splitext ("_" :: replace_char " " "-" (txt "img.png")))
        with (txt "_img", txt ".png").
      cbn [fst]. rewrite union_empty_r_L, size_singleton.
      cbn [first_free].
      rewrite bool_decide_eq_false_2; [done|].
      rewrite elem_of_singleton. by vm_compute.
Qed.

(** ** The name of the markdown file *)

Lemma endswith_suffix s p : endswith s p = true ↔ p `suffix_of` s.
Proof.
  unfold endswith. rewrite startswith_prefix. split.
  - intros [k Hk]. exists (rev k).
    apply (f_equal (@rev ascii)) in Hk.
    by rewrite rev_app_distr, !rev_involutive in Hk.
  - intros [k ->]. exists (rev k). by rewrite rev_app_distr.
Qed.

Lemma sanitize_filename_head (p : str) (t : gset str) :
  ∃ r, (sanitize_filename p t).1 = "_" :: r.
Proof.
  unfold sanitize_filename. case_bool_decide; [by eexists|].
  destruct (splitext _) as [n e] eqn:Hs.
  apply splitext_underscore in Hs as [n' ->]. by eexists.
Qed.

(** C8: the name of the markdown file starts with a digit of the time
    stamp and every sanitized image name with an underscore, so the
    markdown name comes first in the order of strings. *)
Theorem gist_md_name_sorts_first (now : datetime) (markdown_file : str)
    (name : option str) (path : str) (taken : gset str) :
  (∃ d rest, gist_md_name now markdown_file name = d :: rest ∧ is_digit d) ∧
  (∃ rest, (sanitize_filename path taken).1 = "_" :: rest) ∧
  str_ltb (gist_md_name now markdown_file name)
          (sanitize_filename path taken).1 = true.
Proof.
  destruct (utc_prefix_head now) as (d & rest & Hp & Hd).
  destruct (sanitize_filename_head path taken) as [r Hr].
  assert (∃ rest', gist_md_name now markdown_file name = d :: rest')
    as [rest' Hg].
  { unfold gist_md_name. rewrite Hp. by eexists. }
  split_and!; [by eauto | by eauto |].
  rewrite Hg, Hr. simpl. unfold is_digit in Hd.
  rewrite (proj2 (Nat.ltb_lt _ _)); [done|].
  change (nat_of_ascii "_") with 95. lia.
Qed.

Lemma pretty_N_go_length (w : nat) (x : N) s :
  (x < 10 ^ N.of_nat w)%N →
  ∃ p, txt (pretty_N_go x s) = p ++ txt s ∧ length p ≤ w.
Proof.
  revert x s. induction w as [|w IH]; intros x s Hx.
  - assert (x = 0%N) as -> by (simpl in Hx; lia).
    exists []. by rewrite pretty_N_go_0.
  - destruct (decide (0 < x)%N) as [Hpos|Hpos].
    + rewrite pretty_N_go_step by done.
      destruct (IH (x `div` 10)%N (String (pretty_N_char (x `mod` 10)) s))
        as (p & Hp & Hl).
      { apply N.Div0.div_lt_upper_bound.
        by rewrite Nat2N.inj_succ, N.pow_succ_r' in Hx. }
      exists (p ++ [pretty_N_char (x `mod` 10)]). split.
      * rewrite Hp, txt_String. by rewrite <- app_assoc.
      * rewrite length_app. simpl. lia.
    + assert (x = 0%N) as -> by lia.
      exists []. rewrite pretty_N_go_0. split; [done | simpl; lia].
Qed.

Lemma str_of_nat_length (w n : nat) :
  1 ≤ w → (N.of_nat n < 10 ^ N.of_nat w)%N → length (str_of_nat n) ≤ w.
Proof.
  intros Hw Hn. unfold str_of_nat, pretty, pretty_nat, pretty, pretty_N.
  destruct (decide (N.of_nat n = 0%N)) as [H0|H0]; [done|].
  destruct (pretty_N_go_length w (N.of_nat n) "" Hn) as (p & -> & Hl).
  simpl. by rewrite app_nil_r.
Qed.

Lemma zero_padded_length (w n : nat) :
  1 ≤ w → (N.of_nat n < 10 ^ N.of_nat w)%N → length (zero_padded w n) = w.
Proof.
  intros Hw Hn. unfold zero_padded.
  pose proof (str_of_nat_length w n Hw Hn).
  rewrite length_app, length_replicate. lia.
Qed.

(** The time stamp has the form [YYYY-MM-DDTHHMMSSZ-]. *)
Lemma utc_prefix_format now :
  valid_datetime now →
  ∃ Y M D h m s,
    utc_prefix now = Y ++ "-" :: M ++ "-" :: D ++ "T" :: h ++ m ++ s ++ txt "Z-" ∧
    Forall is_digit (Y ++ M ++ D ++ h ++ m ++ s) ∧
    length Y = 4 ∧ length M = 2 ∧ length D = 2 ∧
    length h = 2 ∧ length m = 2 ∧ length s = 2.
Proof.
  intros (Hy & HM & Hd & Hh & Hm & Hs).
  eexists _, _, _, _, _, _. split; [reflexivity|].
  split.
  - rewrite !Forall_app. split_and!; apply zero_padded_digits.
  - split_and!; apply zero_padded_length; simpl; lia.
Qed.

(** C6, as stated, fails when the override is the empty string: the script
    then falls back to the base name of the input file. *)
Lemma gist_md_name_empty_override :
  let now := Datetime 2026 11 4 7 45 0 in
  gist_md_name now (txt "notes.md") (Some [])
    = txt "2026-11-04T074500Z-notes.md" ∧
  spec_gist_md_name now (txt "notes.md") (Some [])
    = txt "2026-11-04T074500Z-.md" ∧
  gist_md_name now (txt "notes.md") (Some [])
    ≠ spec_gist_md_name now (txt "notes.md") (Some []).
Proof. by vm_compute. Qed.

(** C6, amended: the name of the markdown file in the gist is the time
    stamp [YYYY-MM-DDTHHMMSSZ-] followed by the override when one is given
    and is not empty, else by the base name of the input file, with [.md]
    appended unless the chosen name ends in it; [--name report] gives
    [<time stamp>-report.md]. *)
Theorem gist_md_name_spec (now : datetime) (markdown_file : str)
    (name : option str) :
  valid_datetime now →
  let result := gist_md_name now markdown_file name in
  let named (chosen : str) : Prop :=
    (txt ".md" `suffix_of` chosen → result = utc_prefix now ++ chosen) ∧
    (¬ txt ".md" `suffix_of` chosen →
       result = utc_prefix now ++ chosen ++ txt ".md") in
  (∃ Y M D h m s,
     utc_prefix now
       = Y ++ "-" :: M ++ "-" :: D ++ "T" :: h ++ m ++ s ++ txt "Z-" ∧
     Forall is_digit (Y ++ M ++ D ++ h ++ m ++ s) ∧
     length Y = 4 ∧ length M = 2 ∧ length D = 2 ∧
     length h = 2 ∧ length m = 2 ∧ length s = 2) ∧
  (∀ n, name = Some n → n ≠ [] → named n) ∧
  (name = None ∨ name = Some [] → named (basename markdown_file)) ∧
  txt ".md" `suffix_of` result ∧
  (name = Some (txt "report") → result = utc_prefix now ++ txt "report.md").
Proof.
  intros Hvalid result named.
  assert (∀ chosen,
    utc_prefix now ++
      (if negb (endswith chosen (txt ".md")) then chosen ++ txt ".md"
       else chosen) = result → named chosen) as Hnamed.
  { intros chosen <-. split; intros Hs.
    - by rewrite (proj2 (endswith_suffix _ _) Hs).
    - destruct (endswith chosen (txt ".md")) eqn:He; [|done].
      by apply endswith_suffix in He. }
  split_and!.
  - by apply utc_prefix_format.
  - intros n -> Hn. apply Hnamed. unfold result, gist_md_name.
    by rewrite bool_decide_eq_false_2.
  - intros [-> | ->]; by apply Hnamed.
  - unfold result, gist_md_name.
    match goal with
    | |- context [negb (endswith ?c _)] =>
        destruct (endswith c (txt ".md")) eqn:He; simpl
    end.
    + apply endswith_suffix in He as [k ->].
      exists (utc_prefix now ++ k). by rewrite <- app_assoc.
    + eexists (utc_prefix now ++ _). by rewrite <- app_assoc.
  - by intros ->.
Qed.

Lemma gist_md_name_spec_witness :
  let now := Datetime 2026 11 4 7 45 0 in
  valid_datetime now ∧
  gist_md_name now (txt "notes.md") (Some (txt "report"))
    = utc_prefix now ++ txt "report.md".
Proof.
  assert (valid_datetime (Datetime 2026 11 4 7 45 0)) as Hv.
  { unfold valid_datetime. simpl. lia. }
  split; [exact Hv|].
  by apply (gist_md_name_spec _ (txt "notes.md") (Some (txt "report")) Hv).
Defined.

(** ** Resolution of the references *)

Lemma split_not_nil sep s : split sep s ≠ [].
Proof.
  destruct s as [|c s]; simpl; [done|].
  destruct (ascii_eqb c sep); [done|]. by destruct (split sep s).
Qed.

Lemma split_no_sep sep s : Forall (fun piece => sep ∉ piece) (split sep s).
Proof.
  induction s as [|c s IH]; simpl.
  - constructor; [apply not_elem_of_nil | constructor].
  - destruct (ascii_eqb c sep) eqn:Hc.
    + constructor; [apply not_elem_of_nil | done].
    + apply ascii_eqb_neq in Hc.
      destruct (split sep s) as [|piece pieces].
      * constructor; [|constructor]. rewrite not_elem_of_cons.
        split; [congruence | apply not_elem_of_nil].
      * inversion IH; subst. constructor; [|done].
        rewrite not_elem_of_cons. split; [congruence | done].
Qed.

Lemma split_join sep (l : list str) :
  l ≠ [] → Forall (fun piece => sep ∉ piece) l →
  split sep (join_with sep l) = l.
Proof.
  induction l as [|p l IH]; intros Hne Hall; [done|].
  inversion Hall as [|? ? Hp Hl]; subst.
  assert (∀ rest, split sep (p ++ sep :: rest) = p :: split sep rest) as Hcut.
  { intros rest. clear -Hp. induction p as [|c p IHp]; simpl.
    - by rewrite ascii_eqb_refl.
    - apply not_elem_of_cons in Hp as [Hc Hp].
      rewrite (proj2 (ascii_eqb_neq c sep)) by congruence.
      by rewrite IHp. }
  destruct l as [|q l].
  - simpl. clear -Hp. induction p as [|c p IHp]; simpl; [done|].
    apply not_elem_of_cons in Hp as [Hc Hp].
    rewrite (proj2 (ascii_eqb_neq c sep)) by congruence.
    by rewrite IHp.
  - change (join_with sep (p :: q :: l))
      with (p ++ sep :: join_with sep (q :: l)).
    rewrite Hcut. f_equal. by apply IH.
Qed.

Lemma split_cons_sep sep s : split sep (sep :: s) = [] :: split sep s.
Proof. simpl. by rewrite ascii_eqb_refl. Qed.

Lemma components_clean p : Forall clean (components p).
Proof.
  unfold components. apply Forall_forall. intros c [[? ?] Hc]%list_elem_of_filter.
  split_and!; [|done..].
  by apply (proj1 (Forall_forall _ _) (split_no_sep "/" p)).
Qed.

Lemma components_join (l : list str) :
  Forall clean l → components ("/" :: join_with "/" l) = l.
Proof.
  intros Hl. unfold components. rewrite split_cons_sep.
  rewrite filter_cons_False by tauto.
  destruct l as [|c l]; [done|].
  rewrite split_join; [| done |].
  - apply filter_all. intros x Hx.
    apply (proj1 (Forall_forall _ _) Hl) in Hx as (_ & ? & ?). done.
  - eapply Forall_impl; [exact Hl|]. by intros x (? & _).
Qed.

Lemma common_prefix_l l1 l2 : common_prefix l1 l2 `prefix_of` l1.
Proof.
  revert l2. induction l1 as [|a l1 IH]; intros [|b l2]; simpl;
    try apply prefix_nil.
  case_bool_decide; [|apply prefix_nil]. by apply prefix_cons.
Qed.

Lemma common_prefix_r l1 l2 : common_prefix l1 l2 `prefix_of` l2.
Proof.
  revert l2. induction l1 as [|a l1 IH]; intros [|b l2]; simpl;
    try apply prefix_nil.
  case_bool_decide as Hab; [|apply prefix_nil]. subst. by apply prefix_cons.
Qed.

(** The guard against directory traversal: when [os.path.commonpath] gives
    back the directory, the path lies in its subtree. *)
Lemma commonpath_in_subtree dir p :
  isabs dir = true → commonpath dir p = Some dir → in_subtree dir p.
Proof.
  unfold commonpath, in_subtree. intros Habs.
  case_bool_decide; [|done]. rewrite Habs. intros [= Heq].
  set (common := common_prefix (components dir) (components p)) in *.
  assert (components dir = common) as ->.
  { rewrite <- Heq at 1. simpl. apply components_join.
    destruct (common_prefix_l (components dir) (components p)) as [k Hk].
    pose proof (components_clean dir) as Hc. rewrite Hk in Hc.
    by apply Forall_app in Hc as [? _]. }
  apply common_prefix_r.
Qed.

Lemma isabs_cons p : isabs p = true ↔ ∃ t, p = "/" :: t.
Proof.
  unfold isabs. rewrite startswith_prefix. split.
  - intros [k ->]. by exists k.
  - intros [t ->]. by exists t.
Qed.

Lemma normpath_abs p : isabs p = true → isabs (normpath p) = true.
Proof.
  intros [t ->]%isabs_cons. unfold normpath.
  rewrite bool_decide_eq_false_2 by done.
  change (startswith ("/" :: t) ["/"]) with true. cbv iota.
  apply isabs_cons.
  destruct (startswith ("/" :: t) (txt "//") &&
            negb (startswith ("/" :: t) (txt "///"))); simpl; eauto.
Qed.

Lemma join_abs a b : isabs a = true → isabs (join a b) = true.
Proof.
  intros Ha. unfold join. destruct (startswith b ["/"]) eqn:Hb; [done|].
  apply isabs_cons in Ha as [t ->]. apply isabs_cons.
  destruct (_ || _); simpl; eauto.
Qed.

Lemma abspath_abs cwd p : isabs cwd = true → isabs (abspath cwd p) = true.
Proof.
  intros Hc. unfold abspath. apply normpath_abs.
  destruct (isabs p) eqn:Hp; [done | by apply join_abs].
Qed.

Lemma lstrip_char_spec c s :
  ∃ n, s = replicate n c ++ lstrip_char c s.
Proof.
  induction s as [|a s [n IH]]; simpl.
  - by exists 0.
  - destruct (ascii_eqb a c) eqn:Hac.
    + apply ascii_eqb_eq in Hac as ->. exists (S n). simpl. by f_equal.
    + by exists 0.
Qed.

Lemma rstrip_char_spec c s :
  ∃ n, s = rstrip_char c s ++ replicate n c.
Proof.
  unfold rstrip_char. destruct (lstrip_char_spec c (rev s)) as [n Hn].
  exists n. apply (f_equal (@rev ascii)) in Hn.
  rewrite rev_involutive, rev_app_distr in Hn.
  rewrite Hn at 1. f_equal.
  clear. induction n as [|n IH]; simpl; [done|].
  rewrite IH. clear. induction n as [|n IH]; simpl; [done|]. by f_equal.
Qed.

Lemma forallb_replicate_eq c n :
  forallb (fun a => ascii_eqb a c) (replicate n c) = true.
Proof. induction n; simpl; [done|]. by rewrite ascii_eqb_refl. Qed.

Lemma dirname_abs p : isabs p = true → isabs (dirname p) = true.
Proof.
  intros [t ->]%isabs_cons. unfold dirname, slice_to.
  destruct (rfind_spec ("/" :: t) "/") as [[_ Hn]|(k & -> & _ & _)].
  { exfalso. apply Hn. left. }
  replace (Z.to_nat (Z.of_nat k + 1)) with (S k) by lia. simpl.
  destruct (forallb _ _) eqn:Hall; simpl; [done|].
  destruct (rstrip_char_spec "/" ("/" :: take k t)) as [n Hn].
  destruct (rstrip_char "/" ("/" :: take k t)) as [|a r] eqn:Hr.
  - simpl in Hn. assert (n ≠ 0) by (by destruct n).
    change (forallb (λ c : ascii, ascii_eqb c "/") ("/" :: take k t) = false)
      in Hall.
    by rewrite Hn, forallb_replicate_eq in Hall.
  - simpl in Hn. injection Hn as <- _. done.
Qed.

Lemma elem_of_keys_dict_set d k v k' :
  k' ∈ keys (dict_set d k v) ↔ k' = k ∨ k' ∈ keys d.
Proof.
  unfold keys. induction d as [|[k0 v0] d IH]; simpl.
  - rewrite elem_of_cons. set_solver.
  - case_bool_decide as Hk; simpl; rewrite !elem_of_cons.
    + subst. tauto.
    + rewrite IH. tauto.
Qed.

Lemma dict_get_None d k : dict_get d k = None ↔ k ∉ keys d.
Proof.
  unfold keys. induction d as [|[k0 v0] d IH]; simpl.
  - split; [intros _; apply not_elem_of_nil | done].
  - rewrite not_elem_of_cons. case_bool_decide as Hk.
    + subst. split; [done | tauto].
    + rewrite IH. split; [by split | tauto].
Qed.

Section ResolveProperties.
Variable unquote : str -> str.
Variable isfile : str -> bool.
Variables cwd markdown_file : str.
Hypothesis cwd_abs : isabs cwd = true.

Let dir := md_dir cwd markdown_file.
Let path_of := full_path unquote cwd markdown_file.
Let ok := accepted unquote isfile cwd markdown_file.
Let step := resolve_step unquote isfile cwd markdown_file.
Let loop := resolve_loop unquote isfile cwd markdown_file.

(** The warning that the loop prints for a reference it skips. *)
Let warning (ref : str) : str :=
  if bool_decide (commonpath dir (path_of ref) = Some dir)
  then warn_missing ref else warn_outside ref.

Lemma md_dir_abs : isabs dir = true.
Proof. apply dirname_abs. by apply abspath_abs. Qed.

Lemma commonpath_total ref : is_Some (commonpath dir (path_of ref)).
Proof.
  unfold commonpath. rewrite bool_decide_eq_true_2; [by eexists|].
  rewrite md_dir_abs. symmetry. by apply abspath_abs.
Qed.

Lemma resolve_step_spec st ref :
  ∃ st', step st ref = Some st' ∧
    if ok ref then
      stderr st' = stderr st ∧
      (∀ k, k ∈ keys (rewrite_map st') ↔
            k = ref ∨ k ∈ keys (rewrite_map st))
    else
      stderr st' = stderr st ++ [warning ref] ∧
      rewrite_map st' = rewrite_map st.
Proof.
  unfold step, resolve_step, ok, accepted, warning.
  fold dir. fold (path_of ref).
  change (abspath cwd (join dir (unquote ref))) with (path_of ref).
  destruct (commonpath_total ref) as [common Hc]. rewrite Hc. simpl.
  destruct (decide (common = dir)) as [->|Hne].
  - rewrite !bool_decide_eq_true_2 by done. simpl.
    destruct (isfile (path_of ref)); simpl.
    + destruct (sanitize_filename _ _) as [sanitized taken].
      eexists. split; [done|]. simpl. split; [done|].
      intros k. apply elem_of_keys_dict_set.
    + eexists. by split.
  - rewrite bool_decide_eq_false_2 by done. simpl.
    rewrite bool_decide_eq_false_2 by congruence. simpl.
    eexists. by split.
Qed.

Lemma resolve_loop_spec image_refs st :
  ∃ st', loop st image_refs = Some st' ∧
    (∀ k, k ∈ keys (rewrite_map st') →
          k ∈ keys (rewrite_map st) ∨ (k ∈ image_refs ∧ ok k = true)) ∧
    (∀ w, w ∈ stderr st → w ∈ stderr st') ∧
    (∀ ref, ref ∈ image_refs → ok ref = false →
            warning ref ∈ stderr st').
Proof.
  revert st. induction image_refs as [|ref refs IH]; intros st.
  - exists st. split_and!; [done | by left | done |].
    intros ref Hin. by apply elem_of_nil in Hin.
  - destruct (resolve_step_spec st ref) as (st1 & Hstep & Hst1).
    destruct (IH st1) as (st' & Hloop & Hkeys & Herr & Hwarn).
    exists st'. split_and!.
    + unfold loop. simpl. fold step. rewrite Hstep. simpl. exact Hloop.
    + intros k Hk. destruct (Hkeys k Hk) as [Hk1|[Hin Hok]].
      * destruct (ok ref) eqn:Hokr.
        -- destruct Hst1 as [_ Hk']. apply Hk' in Hk1 as [->|?].
           ++ right. split; [left | done].
           ++ by left.
        -- destruct Hst1 as [_ Hmap]. left. by rewrite <- Hmap.
      * right. split; [by right | done].
    + intros w Hw. apply Herr. destruct (ok ref).
      * destruct Hst1 as [-> _]. done.
      * destruct Hst1 as [-> _]. apply elem_of_app. by left.
    + intros r [->|Hin]%elem_of_cons Hr.
      * apply Herr. rewrite Hr in Hst1. destruct Hst1 as [-> _].
        apply elem_of_app. right. left.
      * by apply Hwarn.
Qed.
End ResolveProperties.

(** The resolution loop ends without an exception, and a reference whose
    decoded path, made absolute from the directory of the markdown file,
    lies outside the subtree of that directory or is not an existing
    regular file gets a warning on the error stream and is no key of the
    rewrite map; the rewriting loop, which runs over the entries of that
    map, has no pass for it. *)
Theorem rejected_refs_not_in_rewrite_map
    (unquote : str -> str) (isfile : str -> bool)
    (cwd markdown_file : str) (image_refs : list str) :
  isabs cwd = true →
  ∃ st, resolve_refs unquote isfile cwd markdown_file image_refs = Some st ∧
    ∀ ref, ref ∈ image_refs →
      let dir := md_dir cwd markdown_file in
      let p := full_path unquote cwd markdown_file ref in
      (¬ in_subtree dir p → warn_outside ref ∈ stderr st) ∧
      (in_subtree dir p → isfile p = false →
         warn_outside ref ∈ stderr st ∨ warn_missing ref ∈ stderr st) ∧
      (¬ in_subtree dir p ∨ isfile p = false →
         (ref ∉ keys (rewrite_map st)) ∧
         dict_get (rewrite_map st) ref = None ∧
         ∀ owner gist_id content,
           rewrite_content owner gist_id (rewrite_map st) content
           = foldl (rewrite_step owner gist_id) content
               (filter (fun entry => entry.1 ≠ ref) (rewrite_map st))).
Proof.
  intros Hcwd.
  destruct (resolve_loop_spec unquote isfile cwd markdown_file Hcwd
              image_refs (Resolution [] [] ∅ [] []))
    as (st & Hloop & Hkeys & _ & Hwarn).
  exists st. split; [exact Hloop|]. intros ref Hin dir p.
  assert (¬ in_subtree dir p → commonpath dir p ≠ Some dir) as Hout.
  { intros Hn Hc. apply Hn. apply commonpath_in_subtree; [|done].
    by apply md_dir_abs. }
  assert (¬ in_subtree dir p ∨ isfile p = false →
          accepted unquote isfile cwd markdown_file ref = false) as Hrej.
  { intros [Hn|Hf]; unfold accepted; fold dir; fold p.
    - by rewrite bool_decide_eq_false_2 by auto.
    - rewrite Hf. apply andb_false_r. }
  assert (¬ in_subtree dir p ∨ isfile p = false →
          ref ∉ keys (rewrite_map st)) as Hkey.
  { intros Hbad Hk. apply Hkeys in Hk as [Hk|[_ Hok]].
    - by apply elem_of_nil in Hk.
    - by rewrite Hrej in Hok. }
  split_and!.
  - intros Hn. specialize (Hwarn ref Hin (Hrej (or_introl Hn))).
    fold dir in Hwarn. fold p in Hwarn.
    by rewrite bool_decide_eq_false_2 in Hwarn by auto.
  - intros _ Hf. specialize (Hwarn ref Hin (Hrej (or_intror Hf))).
    fold dir in Hwarn. fold p in Hwarn. case_bool_decide; auto.
  - intros Hbad. split_and!.
    + by apply Hkey.
    + by apply dict_get_None, Hkey.
    + intros owner gist_id content. unfold rewrite_content. f_equal.
      symmetry. apply filter_all. intros [k v] Hkv. simpl. intros ->.
      apply (Hkey Hbad). unfold keys. apply list_elem_of_fmap.
      by exists (ref, v).
Qed.

Example rejected_refs_not_in_rewrite_map_example :
  let isfile := fun p : str => bool_decide (p = txt "/home/u/docs/img/a.png") in
  let cwd := txt "/home/u" in
  let markdown_file := txt "docs/notes.md" in
  let ref := txt "../../etc/hosts" in
  isabs cwd = true ∧
  ¬ in_subtree (md_dir cwd markdown_file)
      (full_path (fun s => s) cwd markdown_file ref) ∧
  ∃ st, resolve_refs (fun s => s) isfile cwd markdown_file
          [txt "img/a.png"; ref; txt "nope.png"] = Some st ∧
        warn_outside ref ∈ stderr st ∧ ref ∉ keys (rewrite_map st).
Proof.
  intros isfile cwd markdown_file ref.
  assert (¬ in_subtree (md_dir cwd markdown_file)
            (full_path (fun s => s) cwd markdown_file ref)) as Hout.
  { unfold in_subtree. intros Hp. apply (bool_decide_pack _) in Hp.
    by vm_compute in Hp. }
  split; [reflexivity|]. split; [exact Hout|].
  destruct (rejected_refs_not_in_rewrite_map (fun s => s) isfile
              cwd markdown_file [txt "img/a.png"; ref; txt "nope.png"]
              eq_refl) as (st & Hst & Href).
  exists st. split; [exact Hst|].
  destruct (Href ref) as (Hwarn & _ & Hkey).
  { apply elem_of_cons. right. left. }
  split; [by apply Hwarn | by apply Hkey; left].
Qed.

(** ** The matcher and what a pattern matches *)

Lemma star_match_sound ic a s k res :
  star_match ic a s k = Some res →
  ∃ s1 s2, s = s1 ++ s2 ∧
           Forall (fun c => atom_matches ic a c = true) s1 ∧
           k s2 = Some res.
Proof.
  induction s as [|c s IH]; simpl.
  - intros Hk. by exists [], [].
  - destruct (atom_matches ic a c) eqn:Hc.
    + destruct (star_match ic a s k) as [r|] eqn:Hs.
      * intros [= ->]. destruct (IH eq_refl) as (s1 & s2 & -> & Hall & Hk).
        exists (c :: s1), s2. split_and!; [done | by constructor | done].
      * intros Hk. by exists [], (c :: s).
    + intros Hk. by exists [], (c :: s).
Qed.

Lemma star_match_complete ic a s k :
  star_match ic a s k = None →
  ∀ s1 s2, s = s1 ++ s2 →
           Forall (fun c => atom_matches ic a c = true) s1 → k s2 = None.
Proof.
  induction s as [|c s IH]; simpl.
  - intros Hk s1 s2 Hs _. symmetry in Hs.
    by apply app_eq_nil in Hs as [-> ->].
  - destruct (atom_matches ic a c) eqn:Hc.
    + destruct (star_match ic a s k) as [r|] eqn:Hs; [done|].
      intros Hk [|c1 s1] s2 Heq Hall.
      * simpl in Heq. by subst.
      * injection Heq as -> ->. inversion Hall; subst. by eapply IH.
    + intros Hk [|c1 s1] s2 Heq Hall.
      * simpl in Heq. by subst.
      * injection Heq as -> ->. inversion Hall; subst. congruence.
Qed.

(** The star is greedy: the continuation fails on every longer run. *)
Lemma star_match_greedy ic a s k res :
  star_match ic a s k = Some res →
  ∃ s1 s2, s = s1 ++ s2 ∧
           Forall (fun c => atom_matches ic a c = true) s1 ∧
           k s2 = Some res ∧
           ∀ t1 t2, s = t1 ++ t2 → length s1 < length t1 →
                    Forall (fun c => atom_matches ic a c = true) t1 →
                    k t2 = None.
Proof.
  induction s as [|c s IH]; simpl.
  - intros Hk. exists [], []. split_and!; [done | done | done |].
    intros [|? ?] t2 Heq; [simpl; lia | done].
  - destruct (atom_matches ic a c) eqn:Hc.
    + destruct (star_match ic a s k) as [r|] eqn:Hs.
      * intros [= ->].
        destruct (IH eq_refl) as (s1 & s2 & -> & Hall & Hk & Hmax).
        exists (c :: s1), s2. split_and!; [done | by constructor | done |].
        intros [|c1 t1] t2 Heq Hlen Ht; [simpl in Hlen; lia|].
        injection Heq as -> Heq. inversion Ht; subst.
        apply (Hmax t1 t2); [done | simpl in Hlen; lia | done].
      * intros Hk. exists [], (c :: s).
        split_and!; [done | done | done |].
        intros [|c1 t1] t2 Heq Hlen Ht; [simpl in Hlen; lia|].
        injection Heq as -> ->. inversion Ht; subst.
        by eapply star_match_complete.
    + intros Hk. exists [], (c :: s). split_and!; [done | done | done |].
      intros [|c1 t1] t2 Heq Hlen Ht; [simpl in Hlen; lia|].
      injection Heq as -> ->. inversion Ht; subst. congruence.
Qed.

Lemma take_app_minus {A} (s1 s2 : list A) :
  take (length (s1 ++ s2) - length s2) (s1 ++ s2) = s1.
Proof.
  rewrite length_app. replace (length s1 + length s2 - length s2)
    with (length s1) by lia.
  by rewrite take_app_length.
Qed.

(** Every answer of the matcher comes from a way to match. *)
Lemma m_re_sound ic r s gs k res :
  m_re ic r s gs k = Some res →
  ∃ s1 s2 gs', s = s1 ++ s2 ∧ parse ic r s1 gs gs' ∧ k s2 gs' = Some res.
Proof.
  revert s gs k. induction r as [|a|r1 IH1 r2 IH2|a|a|r1 IH1];
    intros s gs k; simpl.
  - intros Hk. exists [], s, gs. split_and!; [done | constructor | done].
  - destruct s as [|c s]; [done|].
    destruct (atom_matches ic a c) eqn:Hc; [|done].
    intros Hk. exists [c], s, gs. split_and!; [done | by constructor | done].
  - intros H1. apply IH1 in H1 as (s1 & s2 & gs1 & -> & Hp1 & H2).
    apply IH2 in H2 as (s3 & s4 & gs2 & -> & Hp2 & Hk).
    exists (s1 ++ s3), s4, gs2.
    split_and!; [by rewrite app_assoc | by econstructor | done].
  - intros (s1 & s2 & -> & Hall & Hk)%star_match_sound.
    exists s1, s2, gs. split_and!; [done | by constructor | done].
  - destruct s as [|c s]; [done|].
    destruct (atom_matches ic a c) eqn:Hc; [|done].
    intros (s1 & s2 & -> & Hall & Hk)%star_match_sound.
    exists (c :: s1), s2, gs.
    split_and!; [done | constructor; [done | by constructor] | done].
  - intros H1. apply IH1 in H1 as (s1 & s2 & gs1 & -> & Hp1 & Hk).
    rewrite take_app_minus in Hk.
    exists s1, s2, (gs1 ++ [s1]). split_and!; [done | by constructor | done].
Qed.

(** When the matcher gives up, no way to match satisfies the continuation. *)
Lemma m_re_complete ic r s gs k :
  m_re ic r s gs k = None →
  ∀ s1 s2 gs', s = s1 ++ s2 → parse ic r s1 gs gs' → k s2 gs' = None.
Proof.
  intros Hm s1 s2 gs' Hs Hp. subst s. revert s2 k Hm.
  induction Hp as [gs|a c gs Hc|r1 r2 s1 s3 gs gs1 gs2 Hp1 IH1 Hp2 IH2
                   |a s gs Hall|a s gs Hne Hall|r1 s gs gs1 Hp1 IH1];
    intros s2 k Hm; simpl in Hm.
  - done.
  - by rewrite Hc in Hm.
  - rewrite <- app_assoc in Hm.
    apply IH1 in Hm. by apply IH2 in Hm.
  - exact (star_match_complete _ _ _ _ Hm s s2 eq_refl Hall).
  - destruct s as [|c s]; [done|]. simpl in Hm.
    inversion Hall as [|? ? Hc Hall']; subst. rewrite Hc in Hm.
    exact (star_match_complete _ _ _ _ Hm s s2 eq_refl Hall').
  - apply IH1 in Hm. by rewrite take_app_minus in Hm.
Qed.

Lemma match_at_sound ic r s rest gs :
  match_at ic r s = Some (rest, gs) → matches_prefix ic r s rest gs.
Proof.
  unfold match_at. intros (s1 & s2 & gs' & -> & Hp & [= -> ->])%m_re_sound.
  by exists s1.
Qed.

Lemma match_at_complete ic r s :
  match_at ic r s = None → ∀ rest gs, ¬ matches_prefix ic r s rest gs.
Proof.
  unfold match_at. intros Hm rest gs (s1 & -> & Hp).
  by apply (m_re_complete _ _ _ _ _ Hm _ _ _ eq_refl) in Hp.
Qed.

(** ** The shape of the matches of the four patterns *)

Lemma parse_eps_inv ic s gs gs' :
  parse ic Eps s gs gs' ↔ s = [] ∧ gs' = gs.
Proof.
  split; [by inversion 1 | intros [-> ->]; constructor].
Qed.

Lemma parse_atom_inv ic a s gs gs' :
  parse ic (Atom a) s gs gs' ↔
  ∃ c, s = [c] ∧ atom_matches ic a c = true ∧ gs' = gs.
Proof.
  split; [inversion 1; eauto | intros (c & -> & ? & ->); by constructor].
Qed.

Lemma parse_cat_inv ic r1 r2 s gs gs' :
  parse ic (Cat r1 r2) s gs gs' ↔
  ∃ s1 s2 gs1, s = s1 ++ s2 ∧ parse ic r1 s1 gs gs1 ∧ parse ic r2 s2 gs1 gs'.
Proof.
  split.
  - inversion 1; subst. eauto 10.
  - intros (s1 & s2 & gs1 & -> & ? & ?). by econstructor.
Qed.

Lemma parse_star_inv ic a s gs gs' :
  parse ic (Star a) s gs gs' ↔
  Forall (fun c => atom_matches ic a c = true) s ∧ gs' = gs.
Proof.
  split; [by inversion 1 | intros [? ->]; by constructor].
Qed.

Lemma parse_plus_inv ic a s gs gs' :
  parse ic (Plus a) s gs gs' ↔
  s ≠ [] ∧ Forall (fun c => atom_matches ic a c = true) s ∧ gs' = gs.
Proof.
  split; [by inversion 1 | intros (? & ? & ->); by constructor].
Qed.

Lemma parse_group_inv ic r s gs gs' :
  parse ic (Group r) s gs gs' ↔
  ∃ gs1, parse ic r s gs gs1 ∧ gs' = gs1 ++ [s].
Proof.
  split; [inversion 1; eauto | intros (gs1 & ? & ->); by constructor].
Qed.

Lemma parse_lits_inv ic t s gs gs' :
  parse ic (lits t) s gs gs' ↔ same_letters ic t s ∧ gs' = gs.
Proof.
  unfold same_letters. revert s. induction t as [|p t IH]; intros s; simpl.
  - rewrite parse_eps_inv. split.
    + intros [-> ->]. by split; [constructor|].
    + intros [H ->]. by inversion H.
  - rewrite parse_cat_inv. split.
    + intros (s1 & s2 & gs1 & -> & (c & -> & Hc & ->)%parse_atom_inv & Ht).
      apply IH in Ht as [Ht ->]. split; [by constructor | done].
    + intros [H ->]. inversion H as [|? c ? s2 Hc Ht]; subst.
      exists [c], s2, gs. split_and!; [done | by constructor | by apply IH].
Qed.

Lemma same_letters_exact t s : same_letters false t s ↔ s = t.
Proof.
  unfold same_letters. split.
  - induction 1 as [|p c t s Hc _ IH]; [done|].
    simpl in Hc. apply ascii_eqb_eq in Hc. by subst.
  - intros ->. induction t; constructor; [|done].
    simpl. apply ascii_eqb_refl.
Qed.

Lemma same_letters_refl ic t : same_letters ic t t.
Proof.
  induction t; constructor; [|done].
  unfold char_eq. destruct ic; apply ascii_eqb_refl.
Qed.

Lemma same_letters_length ic t s : same_letters ic t s → length s = length t.
Proof. intros H. symmetry. by eapply Forall2_length. Qed.

Lemma atom_none_of_exact p c :
  atom_matches false (NoneOf [p]) c = true ↔ c ≠ p.
Proof.
  simpl. rewrite orb_false_r, negb_true_iff. apply ascii_eqb_neq.
Qed.

Lemma atom_lit_exact p c : atom_matches false (Lit p) c = true ↔ c = p.
Proof. simpl. apply ascii_eqb_eq. Qed.

Lemma atom_not_gt ic c :
  atom_matches ic (NoneOf [">"]) c = true ↔ c ≠ ">".
Proof.
  rewrite <- ascii_eqb_neq.
  by destruct ic, c as [[] [] [] [] [] [] [] []].
Qed.

Lemma atom_quote ic c :
  atom_matches ic (OneOf [dquote; squote]) c = true ↔ is_quote c.
Proof.
  unfold is_quote. rewrite <- !ascii_eqb_eq, <- orb_true_iff.
  by destruct ic, c as [[] [] [] [] [] [] [] []].
Qed.

Lemma atom_not_quote ic c :
  atom_matches ic (NoneOf [dquote; squote]) c = true ↔ ¬ is_quote c.
Proof.
  rewrite <- (atom_quote ic c). simpl. rewrite negb_true_iff.
  by rewrite not_true_iff_false.
Qed.

Lemma Forall_atom_not_elem ic a p (s : str) :
  (∀ c, atom_matches ic a c = true ↔ c ≠ p) →
  Forall (fun c => atom_matches ic a c = true) s ↔ p ∉ s.
Proof.
  intros Ha. rewrite Forall_forall. split.
  - intros Hall Hin. apply Hall in Hin. by apply Ha in Hin.
  - intros Hn c Hc. apply Ha. intros ->. done.
Qed.

Ltac parse_inv :=
  repeat match goal with
  | H : parse _ (lits _) _ _ _ |- _ =>
      apply parse_lits_inv in H as [? ->]
  | H : parse _ (Cat _ _) _ _ _ |- _ =>
      apply parse_cat_inv in H as (? & ? & ? & -> & ? & ?)
  | H : parse _ (Atom _) _ _ _ |- _ =>
      apply parse_atom_inv in H as (? & -> & ? & ->)
  | H : parse _ Eps _ _ _ |- _ =>
      apply parse_eps_inv in H as [-> ->]
  | H : parse _ (Star _) _ _ _ |- _ =>
      apply parse_star_inv in H as [? ->]
  | H : parse _ (Plus _) _ _ _ |- _ =>
      apply parse_plus_inv in H as (? & ? & ->)
  | H : parse _ (Group _) _ _ _ |- _ =>
      apply parse_group_inv in H as (? & ? & ->)
  end.

Lemma md_image_parse s gs : parse false md_image_re s [] gs ↔ md_match s gs.
Proof.
  unfold md_image_re, md_match, md_open, cats. cbn [foldr]. split.
  - intros H. parse_inv.
    repeat match goal with
    | H : atom_matches false (Lit _) _ = true |- _ =>
        apply atom_lit_exact in H as ->
    end.
    match goal with
    | Halt : Forall (fun c => atom_matches false (NoneOf ["]"]) c = true) ?alt,
      Hne : ?target ≠ [] |- _ =>
        exists (txt "![" ++ alt ++ txt "]("), target
    end.
    split_and!; [| | |done|done].
    + change (txt "![") with ["!"; "["]. change (txt "](") with ["]"; "("].
      simpl. by rewrite <- !app_assoc.
    + eexists. split; [done|].
      by eapply Forall_atom_not_elem; [apply atom_none_of_exact|].
    + by eapply Forall_atom_not_elem; [apply atom_none_of_exact|].
  - intros (before & target & -> & (alt & -> & Halt) & Htarget & Hne & ->).
    rewrite <- !app_assoc.
    apply (parse_cat _ _ _ ["!"] _ _ []); [by constructor|].
    apply (parse_cat _ _ _ ["["] _ _ []); [by constructor|].
    apply (parse_cat _ _ _ alt _ _ []).
    { constructor. by eapply Forall_atom_not_elem;
        [apply atom_none_of_exact|]. }
    apply (parse_cat _ _ _ ["]"] _ _ []); [by constructor|].
    apply (parse_cat _ _ _ ["("] _ _ []); [by constructor|].
    apply (parse_cat _ _ _ target _ _ [target]).
    { apply (parse_group _ _ _ [] []). constructor; [done|].
      by eapply Forall_atom_not_elem; [apply atom_none_of_exact|]. }
    apply (parse_cat _ _ _ [")"] [] _ [target]); by constructor.
Qed.


Lemma md_rewrite_parse ref s gs :
  parse false (md_rewrite_re ref) s [] gs ↔
  ∃ before x after,
    s = before ++ x ++ after ∧ md_occurrence ref before x after ∧
    gs = [before; x; after].
Proof.
  unfold md_rewrite_re, md_occurrence, md_open, cats. cbn [foldr]. split.
  - intros H. parse_inv.
    repeat match goal with
    | H : atom_matches false (Lit _) _ = true |- _ =>
        apply atom_lit_exact in H as ->
    | H : same_letters false _ _ |- _ => apply same_letters_exact in H as ->
    end.
    match goal with
    | Halt : Forall _ ?alt |- _ =>
        exists (txt "![" ++ alt ++ txt "]("), ref, [")"]; rename Halt into Ha
    end.
    change (txt "![") with ["!"; "["]. change (txt "](") with ["]"; "("].
    rewrite !app_nil_r. simpl. split_and!; [done | | done | done | done].
    eexists. split; [done|].
    by eapply Forall_atom_not_elem; [apply atom_none_of_exact|].
  - intros (before & x & after & -> & ((alt & -> & Halt) & -> & ->) & ->).
    apply (parse_cat _ _ _ _ _ _ [txt "![" ++ alt ++ txt "]("]).
    { apply (parse_group _ _ _ [] []).
      change (txt "![") with ["!"; "["]. change (txt "](") with ["]"; "("].
      apply (parse_cat _ _ _ ["!"] _ _ []); [by constructor|].
      apply (parse_cat _ _ _ ["["] _ _ []); [by constructor|].
      apply (parse_cat _ _ _ alt _ _ []).
      { constructor. by eapply Forall_atom_not_elem;
          [apply atom_none_of_exact|]. }
      apply (parse_cat _ _ _ ["]"] _ _ []); [by constructor|].
      apply (parse_cat _ _ _ ["("] [] _ []); by constructor. }
    apply (parse_cat _ _ _ _ _ _ [txt "![" ++ alt ++ txt "]("; ref]).
    { apply (parse_group _ _ _ _ [_]). apply parse_lits_inv.
      split; [apply same_letters_refl | done]. }
    apply (parse_cat _ _ _ [")"] [] _
             [txt "![" ++ alt ++ txt "]("; ref; [")"]]); [|constructor].
    apply (parse_group _ _ _ _ [_; _]). by constructor.
Qed.

Lemma img_open_parse s gs gs' :
  parse true (cats [ lits (txt "<img"); Plus (NoneOf [">"]);
                     lits (txt "src="); Atom (OneOf [dquote; squote]) ])
        s gs gs' ↔ img_open s ∧ gs' = gs.
Proof.
  unfold img_open, cats. cbn [foldr]. split.
  - intros H. parse_inv. split; [|done].
    eexists _, _, _, _. split_and!; [|done|done| |done|].
    + by rewrite app_nil_r.
    + by eapply Forall_atom_not_elem; [apply atom_not_gt|].
    + by apply (atom_quote true).
  - intros ((tag & attrs & src & q & -> & Htag & Hne & Hgt & Hsrc & Hq) & ->).
    apply (parse_cat _ _ _ tag _ _ gs); [by apply parse_lits_inv|].
    apply (parse_cat _ _ _ attrs _ _ gs).
    { constructor; [done|].
      by eapply Forall_atom_not_elem; [apply atom_not_gt|]. }
    apply (parse_cat _ _ _ src _ _ gs); [by apply parse_lits_inv|].
    apply (parse_cat _ _ _ [q] [] _ gs); [|constructor].
    constructor. by apply atom_quote.
Qed.

Lemma img_rewrite_parse ref s gs :
  parse true (img_rewrite_re ref) s [] gs ↔
  ∃ before x after,
    s = before ++ x ++ after ∧ img_occurrence_ci ref before x after ∧
    gs = [before; x; after].
Proof.
  unfold img_rewrite_re, img_occurrence_ci.
  change (cats [?a; ?b; ?c]) with (Cat a (Cat b (Cat c Eps))). split.
  - intros H.
    apply parse_cat_inv in H as (s1 & t1 & gs1 & -> & H1 & H).
    apply parse_cat_inv in H as (s2 & t2 & gs2 & -> & H2 & H).
    apply parse_cat_inv in H as (s3 & t3 & gs3 & -> & H3 & H).
    apply parse_eps_inv in H as [-> ->].
    apply parse_group_inv in H1 as (g1 & [H1 ->]%img_open_parse & ->).
    apply parse_group_inv in H2 as (g2 & [H2 ->]%parse_lits_inv & ->).
    apply parse_group_inv in H3 as (g3 & (q & -> & Hq & ->)%parse_atom_inv & ->).
    exists s1, s2, [q]. rewrite app_nil_r.
    split_and!; [done | done | done | | done].
    exists q. split; [done | by apply (atom_quote true)].
  - intros (before & x & after & -> & (Hopen & Hx & q & -> & Hq) & ->).
    apply (parse_cat _ _ _ _ _ _ [before]).
    { apply (parse_group _ _ _ [] []). by apply img_open_parse. }
    apply (parse_cat _ _ _ _ _ _ [before; x]).
    { apply (parse_group _ _ _ _ [_]). by apply parse_lits_inv. }
    apply (parse_cat _ _ _ [q] [] _ [before; x; [q]]); [|constructor].
    apply (parse_group _ _ _ _ [_; _]). constructor. by apply atom_quote.
Qed.

Lemma html_img_parse s gs : parse true html_img_re s [] gs ↔ img_match s gs.
Proof.
  unfold html_img_re, img_match.
  change (cats [?a; ?b; ?c; ?d; ?e; ?f])
    with (Cat a (Cat b (Cat c (Cat d (Cat e (Cat f Eps)))))).
  split.
  - intros H.
    apply parse_cat_inv in H as (s1 & t1 & gs1 & -> & H1 & H).
    apply parse_cat_inv in H as (s2 & t2 & gs2 & -> & H2 & H).
    apply parse_cat_inv in H as (s3 & t3 & gs3 & -> & H3 & H).
    apply parse_cat_inv in H as (s4 & t4 & gs4 & -> & H4 & H).
    apply parse_cat_inv in H as (s5 & t5 & gs5 & -> & H5 & H).
    apply parse_cat_inv in H as (s6 & t6 & gs6 & -> & H6 & H).
    apply parse_eps_inv in H as [-> ->].
    assert (img_open (s1 ++ s2 ++ s3 ++ s4) ∧ gs4 = []) as [Hopen ->].
    { apply img_open_parse. unfold cats. cbn [foldr].
      apply (parse_cat _ _ _ _ _ _ _ _ H1).
      apply (parse_cat _ _ _ _ _ _ _ _ H2).
      apply (parse_cat _ _ _ _ _ _ _ _ H3).
      rewrite <- (app_nil_r s4).
      apply (parse_cat _ _ _ _ _ _ _ _ H4). constructor. }
    apply parse_group_inv in H5 as (g5 & (Hne & Hall & ->)%parse_plus_inv & ->).
    apply parse_atom_inv in H6 as (q & -> & Hq & ->).
    exists (s1 ++ s2 ++ s3 ++ s4), s5, q. rewrite app_nil_r.
    split_and!; [by rewrite <- !app_assoc | done | done | | | done].
    + eapply Forall_impl; [exact Hall|]. intros c. apply atom_not_quote.
    + by apply (atom_quote true).
  - intros (before & target & q & -> & Hopen & Hne & Hall & Hq & ->).
    destruct Hopen as (tag & attrs & src & q0 & -> & Htag & Hattrs & Hgt
                       & Hsrc & Hq0).
    rewrite <- !app_assoc.
    apply (parse_cat _ _ _ tag _ _ []); [by apply parse_lits_inv|].
    apply (parse_cat _ _ _ attrs _ _ []).
    { constructor; [done|].
      by eapply Forall_atom_not_elem; [apply atom_not_gt|]. }
    apply (parse_cat _ _ _ src _ _ []); [by apply parse_lits_inv|].
    apply (parse_cat _ _ _ [q0] _ _ []).
    { constructor. by apply atom_quote. }
    apply (parse_cat _ _ _ target [q] _ [target]).
    { apply (parse_group _ _ _ [] []). constructor; [done|].
      eapply Forall_impl; [exact Hall|]. intros c. apply atom_not_quote. }
    apply (parse_cat _ _ _ [q] [] _ [target]); [|constructor].
    constructor. by apply atom_quote.
Qed.


(** ** The scans of [re.finditer] and [re.sub] *)

Lemma finditer_from_skip ic r pos n s :
  n ≤ length s →
  finditer_from ic r pos n s = finditer_from ic r (pos + n) 0 (drop n s).
Proof.
  revert pos n. induction s as [|c s IH]; intros pos n Hn.
  - simpl in Hn. assert (n = 0) as -> by lia. by rewrite Nat.add_0_r.
  - destruct n as [|n]; [by rewrite Nat.add_0_r|].
    simpl in Hn. cbn [finditer_from drop]. rewrite IH by lia.
    f_equal. lia.
Qed.

Lemma sub_from_skip ic r template n s :
  n ≤ length s →
  sub_from ic r template n s = sub_from ic r template 0 (drop n s).
Proof.
  revert n. induction s as [|c s IH]; intros n Hn.
  - simpl in Hn. by assert (n = 0) as -> by lia.
  - destruct n as [|n]; [done|].
    simpl in Hn. cbn [sub_from drop]. apply IH. lia.
Qed.

Lemma match_span {A} (c : A) s s1 rest :
  c :: s = s1 ++ rest → s1 ≠ [] →
  ∃ k, length (c :: s) - length rest = S k ∧ take (S k) (c :: s) = s1 ∧
       k ≤ length s ∧ drop k s = rest ∧ length s1 = S k.
Proof.
  intros Heq Hne. destruct s1 as [|c1 s1]; [done|].
  injection Heq as -> ->. exists (length s1). split_and!.
  - simpl. rewrite !length_app. lia.
  - simpl. f_equal. apply take_app_length.
  - rewrite length_app. lia.
  - by rewrite drop_app_length.
  - done.
Qed.

(** [re.finditer] lists the leftmost matches that do not overlap. *)
Lemma finditer_from_scanned ic r pos s :
  (∀ m gs, parse ic r m [] gs → m ≠ []) →
  scanned (fun m gs => parse ic r m [] gs) pos s (finditer_from ic r pos 0 s).
Proof.
  intros Hne. remember (length s) as n eqn:Hn.
  revert pos s Hn. induction (lt_wf n) as [n _ IH]. intros pos s ->.
  destruct s as [|c s].
  - simpl. destruct (match_at ic r []) as [[rest gs]|] eqn:Hm; [|constructor].
    apply match_at_sound in Hm as (s1 & Hs & Hp).
    symmetry in Hs. apply app_eq_nil in Hs as [-> _].
    by apply Hne in Hp.
  - cbn [finditer_from].
    destruct (match_at ic r (c :: s)) as [[rest gs]|] eqn:Hm.
    + apply match_at_sound in Hm as (s1 & Hs & Hp).
      pose proof (Hne _ _ Hp) as Hs1.
      destruct (match_span c s s1 rest Hs Hs1)
        as (k & Hlen & Htake & Hk & Hdrop & Hl1).
      cbv zeta. rewrite Hlen, Htake. cbn [Nat.sub]. rewrite Nat.sub_0_r.
      rewrite finditer_from_skip by done. rewrite Hdrop, Hs.
      apply scanned_hit; [done | done |].
      replace (pos + length s1) with (S pos + k) by lia.
      eapply IH; [|reflexivity].
      apply (f_equal length) in Hs. rewrite length_app, Hl1 in Hs. lia.
    + apply scanned_pass.
      * intros m gs rest Heq Hp.
        eapply match_at_complete; [exact Hm|]. by exists m.
      * eapply IH; [|reflexivity]. simpl. lia.
Qed.

(** [re.sub] with the template of the script replaces the second group of
    the leftmost matches that do not overlap. *)
Lemma re_sub_substituted ic r (occ : str → str → str → Prop) url :
  (∀ s gs, parse ic r s [] gs ↔
     ∃ before x after,
       s = before ++ x ++ after ∧ occ before x after ∧
       gs = [before; x; after]) →
  (∀ before x after, occ before x after → before ≠ []) →
  ∀ t, substituted occ url t
         (re_sub ic r [TGroup 1; TText url; TGroup 3] t).
Proof.
  intros Hshape Hne t. unfold re_sub. remember (length t) as n eqn:Hn.
  revert t Hn. induction (lt_wf n) as [n _ IH]. intros t ->.
  destruct t as [|c t].
  - simpl. destruct (match_at ic r []) as [[rest gs]|] eqn:Hm; [|constructor].
    apply match_at_sound in Hm as (s1 & Hs & Hp).
    symmetry in Hs. apply app_eq_nil in Hs as [-> _].
    apply Hshape in Hp as (before & x & after & Hs & Hocc & _).
    symmetry in Hs. apply app_eq_nil in Hs as [-> _].
    by apply Hne in Hocc.
  - cbn [sub_from].
    destruct (match_at ic r (c :: t)) as [[rest gs]|] eqn:Hm.
    + apply match_at_sound in Hm as (s1 & Hs & Hp).
      apply Hshape in Hp as (before & x & after & -> & Hocc & ->).
      assert (before ++ x ++ after ≠ []) as Hs1.
      { intros [H _]%app_eq_nil. by apply Hne in Hocc. }
      destruct (match_span c t _ rest Hs Hs1)
        as (k & -> & _ & Hk & Hdrop & Hl1).
      rewrite sub_from_skip by done. rewrite Hdrop, Hs.
      replace (expand [TGroup 1; TText url; TGroup 3] [before; x; after])
        with (before ++ url ++ after) by (simpl; by rewrite app_nil_r).
      rewrite <- !app_assoc. apply substituted_hit; [done|].
      eapply IH; [|reflexivity].
      apply (f_equal length) in Hs. rewrite length_app, Hl1 in Hs. lia.
    + apply substituted_copy.
      * intros before x after rest Heq Hocc.
        eapply match_at_complete; [exact Hm|].
        exists (before ++ x ++ after). split.
        -- by rewrite <- !app_assoc.
        -- apply Hshape. by exists before, x, after.
      * eapply IH; [|reflexivity]. simpl. lia.
Qed.

Lemma md_open_not_nil before : md_open before → before ≠ [].
Proof. by intros (alt & -> & _). Qed.

Lemma img_open_not_nil before : img_open before → before ≠ [].
Proof.
  intros (tag & attrs & src & q & -> & Htag & _).
  apply same_letters_length in Htag. by destruct tag.
Qed.

Lemma md_pass_substituted ref url t :
  substituted (md_occurrence ref) url t
    (re_sub false (md_rewrite_re ref) [TGroup 1; TText url; TGroup 3] t).
Proof.
  apply re_sub_substituted.
  - apply md_rewrite_parse.
  - intros before x after (Hopen & _). by apply md_open_not_nil.
Qed.

Lemma img_pass_substituted ref url t :
  substituted (img_occurrence_ci ref) url t
    (re_sub true (img_rewrite_re ref) [TGroup 1; TText url; TGroup 3] t).
Proof.
  apply re_sub_substituted.
  - apply img_rewrite_parse.
  - intros before x after (Hopen & _). by apply img_open_not_nil.
Qed.

Lemma elem_of_spellings ref t x :
  x ∈ spellings ref t ↔
  same_letters true ref x ∧ ∃ pre post, t = pre ++ x ++ post.
Proof.
  induction t as [|c t IH].
  - simpl. rewrite app_nil_r. rewrite take_nil. case_bool_decide as Hs.
    + rewrite list_elem_of_singleton. split.
      * intros ->. split; [done|]. by exists [], [].
      * intros [_ (pre & post & Heq)]. symmetry in Heq.
        apply app_eq_nil in Heq as [_ Heq]. by apply app_eq_nil in Heq as [-> _].
    + split; [by intros ?%elem_of_nil|].
      intros [Hx (pre & post & Heq)]. symmetry in Heq.
      apply app_eq_nil in Heq as [_ Heq]. apply app_eq_nil in Heq as [-> _].
      done.
  - cbn [spellings]. rewrite elem_of_app, IH. split.
    + intros [Hx|[Hx (pre & post & ->)]].
      * case_bool_decide as Hs; [|by apply elem_of_nil in Hx].
        apply list_elem_of_singleton in Hx as ->. split; [done|].
        exists [], (drop (length ref) (c :: t)). simpl.
        by rewrite take_drop.
      * split; [done|]. by exists (c :: pre), post.
    + intros [Hx ([|c' pre] & post & Heq)].
      * left. simpl in Heq. rewrite Heq.
        rewrite <- (same_letters_length _ _ _ Hx), take_app_length.
        rewrite bool_decide_eq_true_2 by done. by left.
      * right. injection Heq as -> ->. split; [done|]. by exists pre, post.
Qed.


Lemma substituted_exact ref url t t' :
  Forall (fun x => x = ref) (spellings ref t) →
  substituted (img_occurrence_ci ref) url t t' →
  substituted (img_occurrence ref) url t t'.
Proof.
  intros Hexact Hsub.
  assert (∀ pre x post, t = pre ++ x ++ post → same_letters true ref x →
                        x = ref) as Hex.
  { intros pre x post Heq Hx.
    apply (proj1 (Forall_forall _ _) Hexact), elem_of_spellings.
    split; [done | by exists pre, post]. }
  clear Hexact. induction Hsub as [|c t t' Hno Hsub IH
                                   |before x after rest rest' Hocc Hsub IH].
  - constructor.
  - apply substituted_copy.
    + intros before x after rest Heq (Hopen & -> & Hq).
      apply (Hno _ _ _ _ Heq). split_and!; [done | | done].
      apply same_letters_refl.
    + apply IH. intros pre x post -> Hx.
      by apply (Hex (c :: pre) x post).
  - destruct Hocc as (Hopen & Hx & Hq).
    assert (x = ref) as ->.
    { apply (Hex before x (after ++ rest)); [done | done]. }
    apply substituted_hit; [by split_and! |].
    apply IH. intros pre x post -> Hx'.
    apply (Hex (before ++ ref ++ after ++ pre) x post); [|done].
    by rewrite <- !app_assoc.
Qed.

Lemma substituted_unchanged occ url t t' :
  (∀ pre x post, t = pre ++ x ++ post →
                 ∀ before after, ¬ occ before x after) →
  substituted occ url t t' → t' = t.
Proof.
  intros Hno Hsub.
  induction Hsub as [|c t t' _ Hsub IH|before x after rest rest' Hocc _ _].
  - done.
  - f_equal. apply IH. intros pre x post -> before after.
    by apply (Hno (c :: pre) x post).
  - exfalso. by apply (Hno before x (after ++ rest) eq_refl before after).
Qed.

Lemma substituted_replaces_only occ (P : str → Prop) url t t' :
  (∀ before x after, occ before x after → P x) →
  substituted occ url t t' → replaces_only P url t t'.
Proof.
  intros HP Hsub.
  assert (∀ (s u u' : str), replaces_only P url u u' →
                            replaces_only P url (s ++ u) (s ++ u')) as Hcopy.
  { intros s u u' Hu. induction s; [done|]. simpl. by constructor. }
  induction Hsub as [|c t t' _ _ IH|before x after rest rest' Hocc _ IH].
  - constructor.
  - by constructor.
  - apply Hcopy. apply replaces_piece; [by eapply HP|]. by apply Hcopy.
Qed.

Lemma raw_url_of_eq owner gist_id sanitized :
  raw_url owner gist_id (quote sanitized) = raw_url_of owner gist_id sanitized.
Proof. reflexivity. Qed.

(** ** The order of the extracted references *)

Lemma scanned_ext (occ1 occ2 : str → list str → Prop) pos s ms :
  (∀ m gs, occ1 m gs ↔ occ2 m gs) →
  scanned occ1 pos s ms → scanned occ2 pos s ms.
Proof.
  intros Hext. induction 1 as [pos|pos c s ms Hno _ IH|pos m gs rest ms Hocc Hne _ IH].
  - constructor.
  - apply scanned_pass; [|done].
    intros m gs rest Heq Hocc. apply (Hno m gs rest Heq). by apply Hext.
  - apply scanned_hit; [by apply Hext | done | done].
Qed.

Lemma md_match_not_nil m gs : md_match m gs → m ≠ [].
Proof.
  intros (before & target & -> & Hopen & _) [H _]%app_eq_nil.
  by apply md_open_not_nil in Hopen.
Qed.

Lemma img_match_not_nil m gs : img_match m gs → m ≠ [].
Proof.
  intros (before & target & q & -> & Hopen & _) [H _]%app_eq_nil.
  by apply img_open_not_nil in Hopen.
Qed.

(** C1, as stated, fails when an image tag comes before a markdown image:
    the markdown target is returned first. *)
Lemma find_local_image_refs_not_document_order :
  let content := txt "<img src='a.png'> ![x](b.png)" in
  find_local_image_refs content = [txt "b.png"; txt "a.png"] ∧
  spec_first_seen_refs content = [txt "a.png"; txt "b.png"] ∧
  find_local_image_refs content ≠ spec_first_seen_refs content.
Proof. by vm_compute. Qed.

(** C1, amended: [find_local_image_refs] returns the targets that do not
    start with [http://] or [https://], without duplicates, in the order in
    which they are seen first in the list made of the targets of the
    markdown images, from left to right, followed by the targets of the
    image tags, from left to right. *)
Theorem find_local_image_refs_spec (content : str) :
  let md := finditer false md_image_re content in
  let img := finditer true html_img_re content in
  scanned md_match 0 content md ∧
  scanned img_match 0 content img ∧
  find_local_image_refs content
    = first_seen (local_targets md ++ local_targets img) ∧
  NoDup (find_local_image_refs content) ∧
  (∀ path, path ∈ find_local_image_refs content ↔
     is_url path = false ∧ ∃ mt, mt ∈ md ++ img ∧ group mt 1 = path).
Proof.
  intros md img. split_and!.
  - eapply scanned_ext; [apply md_image_parse|].
    apply finditer_from_scanned.
    intros m gs Hp%md_image_parse. by eapply md_match_not_nil.
  - eapply scanned_ext; [apply html_img_parse|].
    apply finditer_from_scanned.
    intros m gs Hp%html_img_parse. by eapply img_match_not_nil.
  - apply find_local_image_refs_eq.
  - rewrite find_local_image_refs_eq. apply NoDup_first_seen.
  - intros path.
    rewrite find_local_image_refs_eq, elem_of_first_seen, elem_of_app,
      !elem_of_local_targets. fold md. fold img. split.
    + intros [[? (mt & ? & ?)]|[? (mt & ? & ?)]]; (split; [done|]);
        exists mt; rewrite elem_of_app; auto.
    + intros [? (mt & [?|?]%elem_of_app & ?)]; [left | right]; eauto.
Qed.

(** ** Rewriting *)

Lemma rewrite_step_unfold owner gist_id t ref sanitized :
  rewrite_step owner gist_id t (ref, sanitized)
  = re_sub true (img_rewrite_re ref)
      [TGroup 1; TText (raw_url owner gist_id (quote sanitized)); TGroup 3]
      (re_sub false (md_rewrite_re ref)
         [TGroup 1; TText (raw_url owner gist_id (quote sanitized)); TGroup 3]
         t).
Proof. done. Qed.

(** A pass for a reference that the text has in no spelling changes
    nothing. *)
Lemma rewrite_step_unchanged owner gist_id t ref sanitized :
  spellings ref t = [] → rewrite_step owner gist_id t (ref, sanitized) = t.
Proof.
  intros Hnone. rewrite rewrite_step_unfold.
  assert (∀ pre x post, t = pre ++ x ++ post → ¬ same_letters true ref x)
    as Hno.
  { intros pre x post Heq Hx.
    assert (x ∈ spellings ref t) as Hin.
    { apply elem_of_spellings. split; [done | by exists pre, post]. }
    rewrite Hnone in Hin. by apply elem_of_nil in Hin. }
  set (url := raw_url owner gist_id (quote sanitized)).
  assert (re_sub false (md_rewrite_re ref) [TGroup 1; TText url; TGroup 3] t
          = t) as ->.
  { eapply substituted_unchanged; [|apply md_pass_substituted].
    intros pre x post Heq before after (_ & -> & _).
    eapply Hno; [done|]. apply same_letters_refl. }
  eapply substituted_unchanged; [|apply img_pass_substituted].
  intros pre x post Heq before after (_ & Hx & _). by eapply Hno.
Qed.




(** ** URL targets *)

Lemma same_letters_lower ref x :
  same_letters true ref x → map lower x = map lower ref.
Proof.
  induction 1 as [|p c ref x Hc _ IH]; [done|].
  simpl in *. apply ascii_eqb_eq in Hc. by f_equal.
Qed.

Lemma startswith_lower s p :
  startswith s p = true → startswith (map lower s) (map lower p) = true.
Proof.
  rewrite !startswith_prefix. intros [k ->]. exists (map lower k).
  apply map_app.
Qed.

Lemma is_url_lower x : is_url x = true → is_url (map lower x) = true.
Proof.
  unfold is_url. rewrite !orb_true_iff.
  intros [H|H]; [left | right]; by apply startswith_lower in H.
Qed.

(** What spells, up to the case of the letters, a reference that is no URL
    in any case is no URL. *)
Lemma same_letters_not_url ref x :
  is_url (map lower ref) = false → same_letters true ref x → is_url x = false.
Proof.
  intros Href Hx. destruct (is_url x) eqn:Hu; [|done].
  apply is_url_lower in Hu. rewrite (same_letters_lower _ _ Hx) in Hu.
  congruence.
Qed.

Lemma resolve_step_keys unquote isfile cwd markdown_file st ref st' :
  resolve_step unquote isfile cwd markdown_file st ref = Some st' →
  ∀ k, k ∈ keys (rewrite_map st') → k = ref ∨ k ∈ keys (rewrite_map st).
Proof.
  unfold resolve_step. destruct (commonpath _ _) as [common|]; [|done].
  simpl. repeat case_match; intros [= <-]; simpl; intros k Hk; auto.
  by apply elem_of_keys_dict_set in Hk.
Qed.

Lemma resolve_loop_keys unquote isfile cwd markdown_file image_refs st st' :
  resolve_loop unquote isfile cwd markdown_file st image_refs = Some st' →
  ∀ k, k ∈ keys (rewrite_map st') →
       k ∈ image_refs ∨ k ∈ keys (rewrite_map st).
Proof.
  revert st. induction image_refs as [|ref refs IH]; intros st; simpl.
  - intros [= <-]. auto.
  - destruct (resolve_step _ _ _ _ st ref) as [st1|] eqn:Hstep; [|done].
    simpl. intros Hloop k Hk.
    destruct (IH _ Hloop k Hk) as [Hin|Hin].
    + left. by right.
    + destruct (resolve_step_keys _ _ _ _ _ _ _ Hstep k Hin) as [->|?].
      * left. left.
      * by right.
Qed.



(** ** A skipped reference that is rewritten *)

(** C4: with [a.png] in the directory and no [A.PNG], the reference [A.PNG]
    is skipped with a warning and is no key of the rewrite map; but the
    image-tag pass for [a.png] compares the reference without regard to
    the case of the letters, and puts the URL of [a.png] in the place of
    [A.PNG] too. *)
Theorem skipped_reference_is_rewritten :
  let content := txt "<img src='a.png'> <img src='A.PNG'>" in
  let isfile := fun p : str => bool_decide (p = txt "/home/u/docs/a.png") in
  let resolved :=
    resolve_refs (fun s => s) isfile (txt "/home/u") (txt "docs/notes.md")
      (find_local_image_refs content) in
  find_local_image_refs content = [txt "a.png"; txt "A.PNG"] ∧
  rewrite_map <$> resolved = Some [(txt "a.png", txt "_a.png")] ∧
  stderr <$> resolved = Some [warn_missing (txt "A.PNG")] ∧
  rewrite_content (txt "octocat") (txt "abc123")
    [(txt "a.png", txt "_a.png")] content
  = txt "<img src='https://gist.githubusercontent.com/octocat/abc123/raw/_a.png'> <img src='https://gist.githubusercontent.com/octocat/abc123/raw/_a.png'>" ∧
  re_sub false (md_rewrite_re (txt "a.png"))
    [TGroup 1; TText (txt "U"); TGroup 3] (txt "![x](a.png) ![y](A.PNG)")
  = txt "![x](U) ![y](A.PNG)".
Proof. by vm_compute. Qed.

(** ** Invariants of the resolution loop *)

Lemma elem_of_dict_set d k v k' v' :
  (k', v') ∈ dict_set d k v → (k' = k ∧ v' = v) ∨ (k', v') ∈ d.
Proof.
  induction d as [|[k0 v0] d IH]; simpl.
  - intros [= -> ->]%list_elem_of_singleton. by left.
  - case_bool_decide as Hk.
    + subst. intros [[= -> ->]|Hin]%elem_of_cons; [by left|].
      right. by right.
    + intros [[= -> ->]|Hin]%elem_of_cons.
      * right. left.
      * destruct (IH Hin) as [?|?]; [by left|]. right. by right.
Qed.

Lemma dict_get_dict_set d k v k' :
  dict_get (dict_set d k v) k' = if decide (k = k') then Some v
                                 else dict_get d k'.
Proof.
  induction d as [|[k0 v0] d IH]; simpl.
  - case_bool_decide; by case_decide.
  - case_bool_decide as Hk; simpl.
    + subst. case_bool_decide; by case_decide.
    + rewrite IH. case_bool_decide; [|done].
      subst. by rewrite decide_False by congruence.
Qed.

Lemma keys_dict_set d k v :
  keys (dict_set d k v) = if decide (k ∈ keys d) then keys d
                          else keys d ++ [k].
Proof.
  unfold keys. induction d as [|[k0 v0] d IH].
  - simpl. destruct (decide (k ∈ [])) as [Hin|_]; [|done].
    by apply elem_of_nil in Hin.
  - cbn [dict_set]. rewrite fmap_cons. cbn [fst].
    case_bool_decide as Hk.
    + subst. rewrite fmap_cons. cbn [fst].
      destruct (decide (k ∈ k :: d.*1)) as [_|Hin]; [done|].
      exfalso. apply Hin. left.
    + rewrite fmap_cons, IH. cbn [fst].
      destruct (decide (k ∈ d.*1)) as [Hin|Hin],
               (decide (k ∈ k0 :: d.*1)) as [Hin'|Hin']; try done.
      * exfalso. apply Hin'. by right.
      * apply elem_of_cons in Hin' as [?|?]; [congruence | done].
Qed.

Lemma NoDup_keys_dict_set d k v :
  NoDup (keys d) → NoDup (keys (dict_set d k v)).
Proof.
  intros Hd. rewrite keys_dict_set. case_decide; [done|].
  apply NoDup_app. split_and!; [done | | apply NoDup_singleton].
  intros x Hx ->%list_elem_of_singleton. done.
Qed.

Lemma elem_of_values_dict_set d k v v' :
  v' ∈ values (dict_set d k v) → v' = v ∨ v' ∈ values d.
Proof.
  unfold values. intros ([k' v''] & -> & Hin)%list_elem_of_fmap. simpl.
  apply elem_of_dict_set in Hin as [[_ ->]|Hin]; [by left|].
  right. apply list_elem_of_fmap. by exists (k', v'').
Qed.

Lemma NoDup_values_dict_set d k v :
  NoDup (values d) → v ∉ values d → NoDup (values (dict_set d k v)).
Proof.
  unfold values. induction d as [|[k0 v0] d IH]; simpl; intros Hd Hv.
  - apply NoDup_singleton.
  - apply NoDup_cons in Hd as [Hv0 Hd].
    apply not_elem_of_cons in Hv as [Hne Hv].
    case_bool_decide as Hk; simpl.
    + apply NoDup_cons. by split.
    + apply NoDup_cons. split; [|by apply IH].
      intros [->|Hin]%elem_of_values_dict_set; done.
Qed.

(** ** Sanitized names are flat *)

Lemma digit_not_sep c : is_digit c → c ≠ "/" ∧ c ≠ " ".
Proof.
  unfold is_digit. intros Hc. split; intros ->; cbv in Hc; lia.
Qed.

Lemma sanitize_filename_chars (path : str) (taken : gset str) :
  Forall (fun c => c ≠ "/" ∧ c ≠ " ") (sanitize_filename path taken).1.
Proof.
  assert (Forall (fun c => c ≠ "/" ∧ c ≠ " ")
            ("_" :: replace_char " " "-" (basename path))) as Hbase.
  { constructor; [done|]. unfold replace_char. apply Forall_fmap.
    destruct (basename_spec path) as [Hslash _].
    apply Forall_forall. intros c Hc. simpl.
    destruct (ascii_eqb c " ") eqn:Hsp; [done|].
    apply ascii_eqb_neq in Hsp. split; [|done]. by intros ->. }
  unfold sanitize_filename. case_bool_decide; [done|].
  destruct (splitext _) as [name ext] eqn:Hs. simpl.
  apply splitext_spec in Hs as [Heq _]. rewrite Heq in Hbase.
  apply Forall_app in Hbase as [Hname Hext].
  unfold numbered. apply Forall_app. split; [done|].
  constructor; [done|]. apply Forall_app. split; [|done].
  destruct (str_of_nat_digits (first_free (S (size taken)) name ext taken 2))
    as [_ Hd].
  eapply Forall_impl; [exact Hd|]. intros c. apply digit_not_sep.
Qed.

Lemma sanitize_filename_no_slash (path : str) (taken : gset str) :
  "/" ∉ (sanitize_filename path taken).1.
Proof.
  intros Hin.
  by apply (proj1 (Forall_forall _ _) (sanitize_filename_chars path taken))
    in Hin as [? _].
Qed.

(** The name that [sanitize_filename] returns is a single path component
    without spaces: it has no slash and no space and starts with an
    underscore, whatever the path and the set of taken names. *)
Theorem sanitize_filename_flat (path : str) (taken : gset str) :
  let result := (sanitize_filename path taken).1 in
  ("/" ∉ result) ∧ (" " ∉ result) ∧ ∃ rest, result = "_" :: rest.
Proof.
  intros result. split_and!.
  - apply sanitize_filename_no_slash.
  - intros Hin.
    by apply (proj1 (Forall_forall _ _) (sanitize_filename_chars path taken))
      in Hin as [_ ?].
  - apply sanitize_filename_head.
Qed.

Section LoopInvariants.
Variable unquote : str -> str.
Variable isfile : str -> bool.
Variables cwd markdown_file : str.

Let path_of := full_path unquote cwd markdown_file.
Let ok := accepted unquote isfile cwd markdown_file.
Let step := resolve_step unquote isfile cwd markdown_file.
Let loop := resolve_loop unquote isfile cwd markdown_file.

(** What one turn of the loop does to the state. *)
Lemma resolve_step_cases st ref st' :
  step st ref = Some st' →
  (ok ref = true ∧
   let sanitized := (sanitize_filename (unquote ref) (taken_names st)).1 in
   rewrite_map st' = dict_set (rewrite_map st) ref sanitized ∧
   resolved_images st'
     = dict_set (resolved_images st) sanitized (path_of ref) ∧
   taken_names st' = {[sanitized]} ∪ taken_names st ∧
   length (stdout st') = S (length (stdout st)) ∧
   stderr st' = stderr st) ∨
  (ok ref = false ∧
   rewrite_map st' = rewrite_map st ∧
   resolved_images st' = resolved_images st ∧
   taken_names st' = taken_names st ∧
   stdout st' = stdout st ∧
   length (stderr st') = S (length (stderr st))).
Proof.
  unfold step, resolve_step, ok, accepted, path_of, full_path.
  destruct (commonpath _ _) as [common|] eqn:Hc; [|done]. simpl.
  destruct (decide (common = md_dir cwd markdown_file)) as [->|Hne].
  - rewrite !bool_decide_eq_true_2 by done. simpl.
    destruct (isfile _); simpl.
    + pose proof (sanitize_filename_taken (unquote ref) (taken_names st))
        as Htaken.
      destruct (sanitize_filename _ _) as [sanitized taken]. simpl in *.
      intros [= <-]. left. simpl.
      split_and!; try done. rewrite length_app. simpl. lia.
    + intros [= <-]. right. simpl.
      split_and!; try done. rewrite length_app. simpl. lia.
  - rewrite bool_decide_eq_false_2 by done. simpl.
    rewrite bool_decide_eq_false_2 by congruence. simpl.
    intros [= <-]. right. simpl.
    split_and!; try done. rewrite length_app. simpl. lia.
Qed.

(** The invariant: the keys and the values of [rewrite_map] are pairwise
    distinct, every value is taken and is the key under which
    [resolved_images] holds the path of the reference, and every key of
    [resolved_images] is taken. *)
Let invariant (st : resolution) : Prop :=
  NoDup (keys (rewrite_map st)) ∧
  NoDup (values (rewrite_map st)) ∧
  (∀ k v, (k, v) ∈ rewrite_map st →
     v ∈ taken_names st ∧
     dict_get (resolved_images st) v = Some (path_of k)) ∧
  (∀ v, v ∈ keys (resolved_images st) → v ∈ taken_names st).

Lemma resolve_step_invariant st ref st' :
  invariant st → step st ref = Some st' → invariant st'.
Proof.
  intros (Hkeys & Hvalues & Hmap & Himg) Hstep.
  apply resolve_step_cases in Hstep
    as [(_ & Hrm & Hri & Ht & _)|(_ & Hrm & Hri & Ht & _)].
  - set (sanitized := (sanitize_filename (unquote ref) (taken_names st)).1)
      in *.
    assert (sanitized ∉ taken_names st) as Hfresh
      by apply sanitize_filename_fresh.
    unfold invariant. rewrite Hrm, Hri, Ht. split_and!.
    + by apply NoDup_keys_dict_set.
    + apply NoDup_values_dict_set; [done|].
      intros ([k v] & -> & Hin)%list_elem_of_fmap. simpl in Hfresh.
      by apply Hmap in Hin as [? _].
    + intros k v [[-> ->]|Hin]%elem_of_dict_set.
      * split; [set_solver|]. rewrite dict_get_dict_set.
        by rewrite decide_True.
      * destruct (Hmap k v Hin) as [Hv Hget]. split; [set_solver|].
        rewrite dict_get_dict_set. rewrite decide_False; [done|].
        intros Heq. apply Hfresh. by rewrite Heq.
    + intros v Hv. rewrite keys_dict_set in Hv.
      case_decide; [set_solver|].
      apply elem_of_app in Hv as [Hv|Hv%list_elem_of_singleton];
        set_solver.
  - unfold invariant. by rewrite Hrm, Hri, Ht.
Qed.

Lemma resolve_loop_invariant image_refs st st' :
  invariant st → loop st image_refs = Some st' → invariant st'.
Proof.
  unfold loop. revert st.
  induction image_refs as [|ref refs IH]; intros st Hinv; simpl.
  - by intros [= <-].
  - fold step. destruct (step st ref) as [st1|] eqn:Hstep; simpl; [|done].
    apply IH. by eapply resolve_step_invariant.
Qed.

Lemma resolve_loop_keys_order image_refs st st' :
  loop st image_refs = Some st' →
  keys (rewrite_map st')
  = keys (rewrite_map st)
    ++ filter (fun r => r ∉ keys (rewrite_map st))
         (first_seen (filter (fun r => ok r = true) image_refs)) ∧
  length (stdout st')
  = length (stdout st) + length (filter (fun r => ok r = true) image_refs) ∧
  length (stdout st') + length (stderr st')
  = length (stdout st) + length (stderr st) + length image_refs.
Proof.
  unfold loop. revert st.
  induction image_refs as [|ref refs IH]; intros st; simpl.
  - intros [= <-]. rewrite app_nil_r. split_and!; [done | simpl; lia | lia].
  - fold step. destruct (step st ref) as [st1|] eqn:Hstep; simpl; [|done].
    intros Hloop. destruct (IH _ Hloop) as (Hk & Hout & Hlines).
    apply resolve_step_cases in Hstep
      as [(Hok & Hrm & _ & _ & Hso & Hse)|(Hok & Hrm & _ & _ & Hso & Hse)].
    + rewrite filter_cons_True by done. cbn [first_seen length].
      rewrite Hse in Hlines. split_and!; [|lia|lia].
      rewrite Hk, Hrm, keys_dict_set.
      destruct (decide (ref ∈ keys (rewrite_map st))) as [Hin|Hin].
      * rewrite filter_cons_False by tauto. f_equal.
        rewrite list_filter_filter. apply list_filter_iff.
        intros y. split; [|tauto]. intros Hy. split; [done|]. by intros ->.
      * rewrite filter_cons_True by done. rewrite <- app_assoc. simpl.
        do 2 f_equal. rewrite list_filter_filter. apply list_filter_iff.
        intros y. rewrite elem_of_app, list_elem_of_singleton. tauto.
    + rewrite filter_cons_False by congruence.
      rewrite Hso in Hout, Hlines. split_and!; [by rewrite Hk, Hrm|lia|lia].
Qed.
End LoopInvariants.

Lemma first_seen_NoDup l : NoDup l → first_seen l = l.
Proof.
  induction 1 as [|x l Hx _ IH]; [done|]. simpl. rewrite IH. f_equal.
  apply filter_all. intros y Hy ->. done.
Qed.

Lemma resolve_refs_invariant
    (unquote : str -> str) (isfile : str -> bool)
    (cwd markdown_file : str) (image_refs : list str) (st : resolution) :
  resolve_refs unquote isfile cwd markdown_file image_refs = Some st →
  NoDup (keys (rewrite_map st)) ∧
  NoDup (values (rewrite_map st)) ∧
  ∀ ref sanitized, (ref, sanitized) ∈ rewrite_map st →
    sanitized ∈ taken_names st ∧
    dict_get (resolved_images st) sanitized
      = Some (full_path unquote cwd markdown_file ref).
Proof.
  intros Hloop.
  eapply resolve_loop_invariant in Hloop as (Hk & Hv & Hmap & _).
  - by split_and!.
  - split_and!; simpl; try apply NoDup_nil_2.
    + intros k v Hin. by apply elem_of_nil in Hin.
    + intros v Hin. by apply elem_of_nil in Hin.
Qed.

(** The rewrite map that the loop builds is one-to-one: no two references
    share a sanitized name, every sanitized name is recorded as taken, and
    [resolved_images] holds under it the absolute path of its reference, so
    no image file is uploaded under the name of another. *)
Theorem resolve_refs_one_to_one
    (unquote : str -> str) (isfile : str -> bool)
    (cwd markdown_file : str) (image_refs : list str) (st : resolution) :
  resolve_refs unquote isfile cwd markdown_file image_refs = Some st →
  NoDup (keys (rewrite_map st)) ∧
  NoDup (values (rewrite_map st)) ∧
  ∀ ref sanitized, (ref, sanitized) ∈ rewrite_map st →
    sanitized ∈ taken_names st ∧
    dict_get (resolved_images st) sanitized
      = Some (full_path unquote cwd markdown_file ref).
Proof. apply resolve_refs_invariant. Qed.

Lemma resolve_refs_one_to_one_witness :
  let isfile := fun p : str =>
    bool_decide (p = txt "/home/u/docs/a/img.png") ||
    bool_decide (p = txt "/home/u/docs/b/img.png") in
  ∃ st,
    resolve_refs (fun s => s) isfile (txt "/home/u") (txt "docs/notes.md")
      [txt "a/img.png"; txt "b/img.png"] = Some st ∧
    rewrite_map st = [(txt "a/img.png", txt "_img.png");
                      (txt "b/img.png", txt "_img-2.png")] ∧
    NoDup (values (rewrite_map st)).
Proof.
  intros isfile.
  destruct (resolve_refs (fun s => s) isfile (txt "/home/u")
              (txt "docs/notes.md") [txt "a/img.png"; txt "b/img.png"])
    as [st|] eqn:Hst; [|by vm_compute in Hst].
  exists st. split; [done|]. split.
  - apply (f_equal (fmap rewrite_map)) in Hst. vm_compute in Hst.
    injection Hst as Hst. symmetry. exact Hst.
  - eapply resolve_refs_one_to_one. exact Hst.
Defined.

(** The keys of the rewrite map are exactly the references that pass the
    two tests of the loop, in the order in which they are met first; the
    loop prints one line for every reference, on the output stream when it
    keeps the reference and on the error stream when it skips it. *)
Theorem resolve_refs_keys
    (unquote : str -> str) (isfile : str -> bool)
    (cwd markdown_file : str) (image_refs : list str) (st : resolution) :
  resolve_refs unquote isfile cwd markdown_file image_refs = Some st →
  let kept :=
    filter (fun r => accepted unquote isfile cwd markdown_file r = true)
      image_refs in
  keys (rewrite_map st) = first_seen kept ∧
  (NoDup image_refs → keys (rewrite_map st) = kept) ∧
  (∀ ref, ref ∈ keys (rewrite_map st) ↔
          ref ∈ image_refs ∧
          accepted unquote isfile cwd markdown_file ref = true) ∧
  length (stdout st) = length kept ∧
  length (stdout st) + length (stderr st) = length image_refs.
Proof.
  intros Hloop kept.
  apply resolve_loop_keys_order in Hloop as (Hk & Hout & Hlines).
  simpl in Hk, Hout, Hlines.
  assert (keys (rewrite_map st) = first_seen kept) as Hkeys.
  { rewrite Hk. apply filter_all. intros y _. apply not_elem_of_nil. }
  split_and!; [done | | | done | done].
  - intros Hnd. rewrite Hkeys. apply first_seen_NoDup.
    by apply NoDup_filter.
  - intros ref. rewrite Hkeys, elem_of_first_seen. unfold kept.
    rewrite list_elem_of_filter. tauto.
Qed.

Lemma resolve_refs_keys_witness :
  let isfile := fun p : str => bool_decide (p = txt "/home/u/docs/a.png") in
  ∃ st,
    resolve_refs (fun s => s) isfile (txt "/home/u") (txt "docs/notes.md")
      [txt "nope.png"; txt "a.png"; txt "../x.png"] = Some st ∧
    keys (rewrite_map st) = [txt "a.png"] ∧
    length (stdout st) + length (stderr st) = 3.
Proof.
  intros isfile.
  destruct (resolve_refs (fun s => s) isfile (txt "/home/u")
              (txt "docs/notes.md")
              [txt "nope.png"; txt "a.png"; txt "../x.png"])
    as [st|] eqn:Hst; [|by vm_compute in Hst].
  exists st. split; [done|].
  destruct (resolve_refs_keys _ _ _ _ _ _ Hst) as (Hk & _ & _ & _ & Hl).
  split; [|exact Hl]. rewrite Hk. by vm_compute.
Defined.

(** ** Normal forms of paths *)

Lemma removelast_Forall {A} (P : A → Prop) (l : list A) :
  Forall P l → Forall P (removelast l).
Proof.
  induction 1 as [|x l Hx Hl IH]; [constructor|].
  simpl. destruct l; [constructor|]. by constructor.
Qed.

Lemma last_Forall {A} (P : A → Prop) (l : list A) x :
  Forall P l → last l = Some x → P x.
Proof.
  intros Hl Hx. apply last_Some in Hx as [l' ->].
  apply Forall_app in Hl as [_ Hx]. by inversion Hx.
Qed.

(** With at least one leading slash, the loop of [os.path.normpath] keeps
    only proper components. *)
Lemma normpath_step_proper n new_comps comp :
  n ≠ 0 → ("/" ∉ comp) → Forall proper new_comps →
  Forall proper (normpath_step n new_comps comp).
Proof.
  intros Hn Hslash Hnew. unfold normpath_step.
  case_bool_decide as Hempty; [done|].
  case_bool_decide as Hdot; [done|]. simpl.
  case_bool_decide as Hdd; simpl.
  - subst comp. rewrite (proj2 (Nat.eqb_neq n 0) Hn). simpl.
    destruct (decide (new_comps = [])) as [->|Hne].
    + by rewrite bool_decide_eq_true_2.
    + rewrite (bool_decide_eq_false_2 (new_comps = [])) by done. simpl.
      case_bool_decide as Hlast.
      * apply (last_Forall _ _ _ Hnew) in Hlast as [_ Hlast]. done.
      * by apply removelast_Forall.
  - apply Forall_app. split; [done|]. constructor; [|constructor].
    by split_and!.
Qed.

Lemma normpath_loop_proper n comps new_comps :
  n ≠ 0 → Forall (fun c => "/" ∉ c) comps → Forall proper new_comps →
  Forall proper (foldl (normpath_step n) new_comps comps).
Proof.
  intros Hn Hcomps. revert new_comps.
  induction Hcomps as [|c comps Hc _ IH]; intros new_comps Hnew; [done|].
  simpl. apply IH. by apply normpath_step_proper.
Qed.

(** The normal form of an absolute path: one or two slashes, then proper
    components with single slashes between them. *)
Lemma normpath_abs_form p :
  isabs p = true →
  ∃ n comps, normpath p = replicate n "/" ++ join_with "/" comps ∧
             (n = 1 ∨ n = 2) ∧ Forall proper comps ∧
             (n = 2 ↔ (startswith p (txt "//") = true ∧
                       startswith p (txt "///") = false)).
Proof.
  intros [t ->]%isabs_cons. unfold normpath.
  rewrite bool_decide_eq_false_2 by done.
  change (startswith ("/" :: t) ["/"]) with true. cbv iota.
  set (n := if startswith ("/" :: t) (txt "//") &&
               negb (startswith ("/" :: t) (txt "///")) then 2 else 1).
  assert (n = 1 ∨ n = 2) as Hn by (unfold n; destruct (_ && _); auto).
  set (comps := foldl (normpath_step n) [] (split "/" ("/" :: t))).
  exists n, comps. split_and!.
  - rewrite bool_decide_eq_false_2; [done|]. by destruct Hn as [-> | ->].
  - done.
  - apply normpath_loop_proper; [lia | apply split_no_sep | constructor].
  - unfold n. destruct (startswith ("/" :: t) (txt "//")),
      (startswith ("/" :: t) (txt "///")); simpl; intuition congruence.
Qed.

Lemma proper_clean l : Forall proper l → Forall clean l.
Proof. intros Hl. eapply Forall_impl; [exact Hl|]. by intros c [? _]. Qed.

(** The components of a path in normal form are the ones it was built
    from. *)
Lemma components_normal n comps :
  n = 1 ∨ n = 2 → Forall proper comps →
  components (replicate n "/" ++ join_with "/" comps) = comps.
Proof.
  intros Hn Hc%proper_clean. destruct Hn as [-> | ->]; simpl.
  - by apply components_join.
  - unfold components. rewrite split_cons_sep.
    rewrite filter_cons_False by tauto. by apply components_join.
Qed.

Lemma join_with_snoc sep (l : list str) c :
  l ≠ [] → join_with sep (l ++ [c]) = join_with sep l ++ sep :: c.
Proof.
  induction l as [|a l IH]; [done|]. intros _.
  destruct l as [|b l]; [done|].
  change (join_with sep ((a :: b :: l) ++ [c]))
    with (a ++ sep :: join_with sep ((b :: l) ++ [c])).
  rewrite IH by done.
  change (join_with sep (a :: b :: l)) with (a ++ sep :: join_with sep (b :: l)).
  by rewrite <- app_assoc.
Qed.

(** A joined list of proper components does not end with a slash. *)
Lemma join_with_last (l : list str) :
  l ≠ [] → Forall proper l →
  ∃ s c, join_with "/" l = s ++ [c] ∧ c ≠ "/".
Proof.
  intros Hne Hl. destruct (exists_last Hne) as (init & x & ->).
  apply Forall_app in Hl as [_ Hx]. inversion Hx as [|? ? [(Hs & Hx0 & _) _] _].
  subst. destruct (exists_last Hx0) as (x' & c & ->).
  assert (c ≠ "/") as Hc.
  { intros ->. apply Hs. apply elem_of_app. right. left. }
  destruct init as [|a init].
  - simpl. by exists x', c.
  - rewrite join_with_snoc by done.
    exists (join_with "/" (a :: init) ++ "/" :: x'), c.
    split; [|done]. by rewrite <- app_assoc.
Qed.

Lemma lstrip_char_cons_ne c a s : a ≠ c → lstrip_char c (a :: s) = a :: s.
Proof. intros Ha. simpl. by rewrite (proj2 (ascii_eqb_neq a c)). Qed.

Lemma rstrip_char_snoc_ne c s a : a ≠ c → rstrip_char c (s ++ [a]) = s ++ [a].
Proof.
  intros Ha. unfold rstrip_char. rewrite rev_app_distr. simpl.
  rewrite (proj2 (ascii_eqb_neq a c)) by done.
  change (a :: rev s) with (rev [a] ++ rev s).
  by rewrite <- rev_app_distr, rev_involutive.
Qed.

Lemma rstrip_char_snoc_eq c s : rstrip_char c (s ++ [c]) = rstrip_char c s.
Proof.
  unfold rstrip_char. rewrite rev_app_distr. simpl.
  by rewrite ascii_eqb_refl.
Qed.

(** [rfind] in a text that ends with a piece free of the character. *)
Lemma rfind_app_free s c tail :
  c ∉ tail → rfind ((s ++ [c]) ++ tail) c = Z.of_nat (length s).
Proof.
  intros Hfree.
  destruct (rfind_spec ((s ++ [c]) ++ tail) c) as [[_ Hn]|(k & -> & Hk & Hn)].
  { exfalso. apply Hn. rewrite !elem_of_app. left. right. left. }
  f_equal. destruct (Nat.lt_trichotomy k (length s)) as [Hlt|[->|Hgt]].
  - exfalso. apply Hn. rewrite <- app_assoc.
    rewrite drop_app_le by lia. apply elem_of_app. right. left.
  - done.
  - exfalso. apply Hfree. rewrite lookup_app_r in Hk
      by (rewrite length_app; simpl; lia).
    by eapply list_elem_of_lookup_2.
Qed.

Lemma forallb_slash_false (s : str) c t :
  c ≠ "/" → forallb (fun a => ascii_eqb a "/") (s ++ c :: t) = false.
Proof.
  intros Hc. rewrite forallb_app. simpl.
  rewrite (proj2 (ascii_eqb_neq c "/")) by done. simpl. apply andb_false_r.
Qed.

(** [os.path.dirname] of a path in normal form drops the last component. *)
Lemma dirname_normal n comps :
  n = 1 ∨ n = 2 → Forall proper comps →
  dirname (replicate n "/" ++ join_with "/" comps)
  = replicate n "/" ++ join_with "/" (removelast comps).
Proof.
  intros Hn Hcomps.
  destruct (decide (comps = [])) as [->|Hne].
  { by destruct Hn as [-> | ->]. }
  destruct (exists_last Hne) as (init & c & ->).
  rewrite removelast_last.
  pose proof Hcomps as Hall. apply Forall_app in Hall as [Hinit Hc].
  inversion Hc as [|? ? [(Hslash & _ & _) _] _]; subst.
  unfold dirname, slice_to.
  destruct (decide (init = [])) as [->|Hinit_ne].
  - assert (replicate n "/" ++ join_with "/" ([] ++ [c])
            = (replicate (n - 1) "/" ++ ["/"]) ++ c) as ->.
    { by destruct Hn as [-> | ->]. }
    rewrite rfind_app_free by done. rewrite length_replicate.
    replace (Z.to_nat (Z.of_nat (n - 1) + 1)) with n by lia.
    assert (take n ((replicate (n - 1) "/" ++ ["/"]) ++ c) = replicate n "/")
      as ->.
    { by destruct Hn as [-> | ->]. }
    simpl. rewrite app_nil_r.
    by destruct Hn as [-> | ->].
  - rewrite join_with_snoc by done.
    destruct (join_with_last init Hinit_ne Hinit) as (s & c' & Hjoin & Hc').
    set (body := replicate n "/" ++ join_with "/" init).
    assert (replicate n "/" ++ join_with "/" init ++ "/" :: c
            = (body ++ ["/"]) ++ c) as ->.
    { unfold body. by rewrite <- !app_assoc. }
    rewrite rfind_app_free by done.
    replace (Z.to_nat (Z.of_nat (length body) + 1))
      with (length (body ++ ["/"])) by (rewrite length_app; simpl; lia).
    rewrite take_app_length.
    assert (body ++ ["/"] = (replicate n "/" ++ s) ++ c' :: ["/"]) as Hbody.
    { unfold body. rewrite Hjoin. by rewrite <- !app_assoc. }
    rewrite (bool_decide_eq_false_2 (body ++ ["/"] = [])) by (by destruct body).
    rewrite Hbody at 1. rewrite forallb_slash_false by done. simpl.
    rewrite rstrip_char_snoc_eq. unfold body. rewrite Hjoin.
    rewrite app_assoc. by apply rstrip_char_snoc_ne.
Qed.

Lemma common_prefix_of_prefix l1 l2 :
  l1 `prefix_of` l2 → common_prefix l1 l2 = l1.
Proof.
  intros [k ->]. induction l1 as [|a l1 IH]; simpl.
  - by destruct k.
  - rewrite bool_decide_eq_true_2 by done. by f_equal.
Qed.

Lemma join_with_no_leading_slash (l : list str) :
  Forall clean l → ¬ ["/"] `prefix_of` join_with "/" l.
Proof.
  intros Hl [k Hk]. destruct l as [|a l]; [done|].
  inversion Hl as [|? ? (Hs & Hne & _) _]; subst.
  destruct a as [|c a]; [done|].
  assert (c = "/") as ->.
  { destruct l; simpl in Hk; by injection Hk. }
  apply Hs. left.
Qed.

Section Guard.
Variable unquote : str -> str.
Variable isfile : str -> bool.
Variables cwd markdown_file : str.
Hypothesis cwd_abs : isabs cwd = true.

Let dir := md_dir cwd markdown_file.
Let path_of := full_path unquote cwd markdown_file.

(** The directory of the markdown file is in normal form. *)
Lemma md_dir_normal :
  ∃ n comps, dir = replicate n "/" ++ join_with "/" comps ∧
             (n = 1 ∨ n = 2) ∧ Forall proper comps.
Proof.
  unfold dir, md_dir.
  destruct (normpath_abs_form
              (if isabs markdown_file then markdown_file
               else join cwd markdown_file))
    as (n & comps & Hnorm & Hn & Hcomps & _).
  { destruct (isabs markdown_file) eqn:Hm; [done | by apply join_abs]. }
  exists n, (removelast comps). unfold abspath. rewrite Hnorm.
  split_and!; [by apply dirname_normal | done | by apply removelast_Forall].
Qed.

(** The path that the loop tests is in normal form. *)
Lemma full_path_normal ref :
  ∃ n comps, path_of ref = replicate n "/" ++ join_with "/" comps ∧
             (n = 1 ∨ n = 2) ∧ Forall proper comps.
Proof.
  unfold path_of, full_path, abspath.
  assert (isabs (join (md_dir cwd markdown_file) (unquote ref)) = true)
    as Habs by (apply join_abs, md_dir_abs, cwd_abs).
  rewrite Habs.
  destruct (normpath_abs_form _ Habs) as (n & comps & Hnorm & Hn & Hc & _).
  by exists n, comps.
Qed.

Lemma commonpath_value ref :
  commonpath dir (path_of ref)
  = Some ("/" :: join_with "/"
            (common_prefix (components dir) (components (path_of ref)))).
Proof.
  unfold commonpath. rewrite bool_decide_eq_true_2.
  - unfold dir. by rewrite md_dir_abs.
  - unfold dir, path_of, full_path.
    rewrite md_dir_abs by done. symmetry. by apply abspath_abs.
Qed.

(** With a single leading slash the guard is exact. *)
Lemma guard_single_slash ref :
  startswith dir (txt "//") = false →
  commonpath dir (path_of ref) = Some dir ↔ in_subtree dir (path_of ref).
Proof.
  intros Hsingle. split.
  - apply commonpath_in_subtree. unfold dir. by apply md_dir_abs.
  - intros Hsub. rewrite commonpath_value.
    rewrite common_prefix_of_prefix by done.
    destruct md_dir_normal as (n & comps & Hdir & [-> | ->] & Hcomps).
    + f_equal. rewrite Hdir at 2. rewrite Hdir.
      by rewrite (components_normal 1) by auto.
    + rewrite Hdir in Hsingle. done.
Qed.

(** With two leading slashes the guard lets nothing through. *)
Lemma guard_double_slash ref :
  startswith dir (txt "//") = true →
  commonpath dir (path_of ref) ≠ Some dir.
Proof.
  intros Hdouble. rewrite commonpath_value. intros [= Heq].
  apply startswith_prefix in Hdouble as [k Hk].
  rewrite Hk in Heq at 2. simpl in Heq. injection Heq as Heq.
  eapply (join_with_no_leading_slash
            (common_prefix (components dir) (components (path_of ref)))).
  - destruct (common_prefix_l (components dir) (components (path_of ref)))
      as [rest Hrest].
    pose proof (components_clean dir) as Hc. rewrite Hrest in Hc.
    by apply Forall_app in Hc as [? _].
  - exists k. exact Heq.
Qed.
End Guard.



(** When the directory of the markdown file does not start with two
    slashes, the loop keeps a reference exactly when its path lies in the
    subtree of the directory and names an existing regular file. *)
Theorem traversal_guard_exact
    (unquote : str -> str) (isfile : str -> bool)
    (cwd markdown_file ref : str) :
  isabs cwd = true →
  startswith (md_dir cwd markdown_file) (txt "//") = false →
  accepted unquote isfile cwd markdown_file ref = true ↔
  in_subtree (md_dir cwd markdown_file)
    (full_path unquote cwd markdown_file ref) ∧
  isfile (full_path unquote cwd markdown_file ref) = true.
Proof.
  intros Hcwd Hsingle. unfold accepted.
  rewrite andb_true_iff, bool_decide_eq_true.
  by rewrite (guard_single_slash unquote cwd markdown_file Hcwd ref Hsingle).
Qed.

Lemma traversal_guard_exact_witness :
  let isfile := fun p : str => bool_decide (p = txt "/home/u/docs/img/a.png") in
  isabs (txt "/home/u") = true ∧
  startswith (md_dir (txt "/home/u") (txt "docs/notes.md")) (txt "//") = false ∧
  in_subtree (md_dir (txt "/home/u") (txt "docs/notes.md"))
    (full_path (fun s => s) (txt "/home/u") (txt "docs/notes.md")
       (txt "./img/a.png")).
Proof.
  intros isfile. split; [reflexivity|]. split; [reflexivity|].
  apply (traversal_guard_exact (fun s => s) isfile (txt "/home/u")
           (txt "docs/notes.md") (txt "./img/a.png") eq_refl eq_refl).
  reflexivity.
Defined.

Section DoubleSlash.
Variable unquote : str -> str.
Variable isfile : str -> bool.
Variables cwd markdown_file : str.
Hypothesis cwd_abs : isabs cwd = true.
Hypothesis double :
  startswith (md_dir cwd markdown_file) (txt "//") = true.

Lemma resolve_loop_double_slash image_refs st :
  resolve_loop unquote isfile cwd markdown_file st image_refs
  = Some (Resolution (rewrite_map st) (resolved_images st) (taken_names st)
            (stdout st) (stderr st ++ map warn_outside image_refs)).
Proof.
  revert st. induction image_refs as [|ref refs IH]; intros st; simpl.
  - rewrite app_nil_r. by destruct st.
  - unfold resolve_step.
    change (abspath cwd (join (md_dir cwd markdown_file) (unquote ref)))
      with (full_path unquote cwd markdown_file ref).
    pose proof (guard_double_slash unquote cwd markdown_file cwd_abs ref
                  double) as Hguard.
    rewrite (commonpath_value unquote cwd markdown_file cwd_abs ref) in *.
    simpl. rewrite bool_decide_eq_false_2 by congruence. simpl.
    rewrite IH. simpl. by rewrite <- app_assoc.
Qed.
End DoubleSlash.

(** When the directory of the markdown file starts with two slashes, which
    [os.path.normpath] keeps and [os.path.commonpath] drops, the loop skips
    every reference as lying outside the directory: the rewrite map stays
    empty and each reference gets that warning. *)
Theorem double_slash_directory_rejects_all
    (unquote : str -> str) (isfile : str -> bool)
    (cwd markdown_file : str) (image_refs : list str) :
  isabs cwd = true →
  startswith (md_dir cwd markdown_file) (txt "//") = true →
  ∃ st, resolve_refs unquote isfile cwd markdown_file image_refs = Some st ∧
        rewrite_map st = [] ∧
        stderr st = map warn_outside image_refs.
Proof.
  intros Hcwd Hdouble. eexists. split.
  - unfold resolve_refs. by apply resolve_loop_double_slash.
  - done.
Qed.

Lemma double_slash_directory_rejects_all_witness :
  isabs (txt "/home/u") = true ∧
  md_dir (txt "/home/u") (txt "//data/docs/notes.md") = txt "//data/docs" ∧
  ∃ st, resolve_refs (fun s => s) (fun _ => true) (txt "/home/u")
          (txt "//data/docs/notes.md") [txt "a.png"] = Some st ∧
        rewrite_map st = [] ∧
        stderr st = [warn_outside (txt "a.png")].
Proof.
  split; [reflexivity|]. split; [reflexivity|].
  apply (double_slash_directory_rejects_all (fun s => s) (fun _ => true)
           (txt "/home/u") (txt "//data/docs/notes.md") [txt "a.png"]);
    reflexivity.
Defined.

(** ** The gist identifier *)

Lemma split_last sep s :
  ∃ id, last (split sep s) = Some id ∧ (sep ∉ id) ∧
        (s = id ∨ ∃ pre, s = pre ++ sep :: id).
Proof.
  induction s as [|c s (id & Hlast & Hfree & Hs)]; simpl.
  - exists []. split_and!; [done | apply not_elem_of_nil | by left].
  - destruct (ascii_eqb c sep) eqn:Hc.
    + apply ascii_eqb_eq in Hc as ->. exists id. split_and!; [|done|].
      * destruct (split sep s) eqn:Hsp; [by apply split_not_nil in Hsp|].
        done.
      * right. destruct Hs as [->|[pre ->]]; [by exists [] |].
        by exists (sep :: pre).
    + apply ascii_eqb_neq in Hc.
      destruct (split sep s) as [|piece pieces] eqn:Hsp;
        [by apply split_not_nil in Hsp|].
      destruct pieces as [|p2 pieces].
      * simpl in Hlast. injection Hlast as ->.
        destruct Hs as [->|[pre ->]].
        -- exists (c :: id). split_and!; [done | | by left].
           rewrite not_elem_of_cons. split; [congruence | done].
        -- exfalso. pose proof (split_no_sep sep (pre ++ sep :: id)) as Hall.
           rewrite Hsp in Hall. inversion Hall as [|? ? Hp _]; subst.
           assert (length (split sep (pre ++ sep :: id)) ≥ 2) as Hlen.
           { clear. induction pre as [|a pre IH]; simpl.
             - rewrite ascii_eqb_refl. simpl.
               pose proof (split_not_nil sep id).
               destruct (split sep id); [done | simpl; lia].
             - destruct (ascii_eqb a sep); [simpl in *; lia|].
               destruct (split sep (pre ++ sep :: id)); simpl in *; lia. }
           rewrite Hsp in Hlen. simpl in Hlen. lia.
      * exists id. split_and!; [done | done |].
        right. destruct Hs as [->|[pre ->]].
        -- exfalso. pose proof (split_no_sep sep id) as Hall.
           assert (split sep id = [id]) as Hone.
           { clear -Hfree. induction id as [|a id IH]; [done|].
             apply not_elem_of_cons in Hfree as [Ha Hfree]. simpl.
             rewrite (proj2 (ascii_eqb_neq a sep)) by congruence.
             by rewrite IH. }
           rewrite Hone in Hsp. done.
        -- by exists (c :: pre).
Qed.

Lemma lstrip_char_head c s a t : lstrip_char c s = a :: t → a ≠ c.
Proof.
  induction s as [|b s IH]; simpl; [done|].
  destruct (ascii_eqb b c) eqn:Hb; [done|].
  intros [= -> ->]. by apply ascii_eqb_neq.
Qed.

Lemma rstrip_char_last c s t : rstrip_char c s ≠ t ++ [c].
Proof.
  unfold rstrip_char. intros Heq.
  apply (f_equal (@rev ascii)) in Heq.
  rewrite rev_involutive, rev_app_distr in Heq. simpl in Heq.
  by apply lstrip_char_head in Heq.
Qed.

Lemma not_occurs_in_slashes n : ¬ occurs_in snippet_host (replicate n "/").
Proof.
  intros (pre & post & Heq).
  assert ("g" ∈ replicate n "/") as Hin.
  { rewrite Heq. apply elem_of_app. right. apply elem_of_app. left. left. }
  by apply elem_of_replicate in Hin as [? _].
Qed.

(** The gist identifier: when the check of the returned text lets the run
    go on, the identifier is the last non-empty piece between slashes of
    that text; it is not empty and has no slash, and only slashes follow
    it. *)
Theorem gist_id_is_last_segment (gist_url gist_id : str) :
  check_gist_url gist_url = Proceed gist_id →
  gist_id ≠ [] ∧ ("/" ∉ gist_id) ∧
  ∃ n, gist_url = gist_id ++ replicate n "/" ∨
       ∃ pre, gist_url = pre ++ "/" :: gist_id ++ replicate n "/".
Proof.
  unfold check_gist_url.
  destruct (contains gist_url snippet_host) eqn:Hc; simpl; [|done].
  apply contains_occurs in Hc.
  destruct (rstrip_char_spec "/" gist_url) as [n Hn].
  destruct (split_last "/" (rstrip_char "/" gist_url))
    as (id & Hlast & Hfree & Hs).
  rewrite Hlast. simpl. intros [= <-].
  assert (id ≠ []) as Hne.
  { intros ->. destruct Hs as [Hs|[pre Hs]].
    - rewrite Hs in Hn. simpl in Hn. rewrite Hn in Hc.
      by apply not_occurs_in_slashes in Hc.
    - by apply rstrip_char_last in Hs. }
  split_and!; [done | done |]. exists n.
  destruct Hs as [Hs|[pre Hs]]; rewrite Hs in Hn.
  - by left.
  - right. exists pre. by rewrite <- app_assoc in Hn.
Qed.

Lemma gist_id_is_last_segment_witness :
  check_gist_url (txt "https://gist.github.com/octocat/abc123//")
    = Proceed (txt "abc123") ∧
  txt "abc123" ≠ [] ∧ ("/" ∉ txt "abc123").
Proof.
  split; [reflexivity|].
  destruct (gist_id_is_last_segment
              (txt "https://gist.github.com/octocat/abc123//") (txt "abc123")
              eq_refl) as (Hne & Hfree & _).
  by split.
Defined.

(** ** Percent-encoding *)

Lemma quote_cons c s :
  quote (c :: s)
  = (if quote_safe c then [c] else flat_map percent_byte (utf8_encode c))
    ++ quote s.
Proof. done. Qed.

Lemma percent_decode_token c rest :
  percent_decode
    ((if quote_safe c then [c] else flat_map percent_byte (utf8_encode c))
     ++ rest)
  = c :: percent_decode rest.
Proof. destruct c as [[] [] [] [] [] [] [] []]; reflexivity. Qed.

Lemma percent_decode_quote s : percent_decode (quote s) = s.
Proof.
  induction s as [|c s IH]; [done|].
  rewrite quote_cons, percent_decode_token. by f_equal.
Qed.

Lemma url_char_token c :
  forallb url_char
    (if quote_safe c then [c] else flat_map percent_byte (utf8_encode c))
  = true.
Proof. destruct c as [[] [] [] [] [] [] [] []]; vm_compute; reflexivity. Qed.

Lemma slash_token c :
  existsb (ascii_eqb "/")
    (if quote_safe c then [c] else flat_map percent_byte (utf8_encode c))
  = ascii_eqb "/" c.
Proof. destruct c as [[] [] [] [] [] [] [] []]; vm_compute; reflexivity. Qed.

Lemma quote_url_chars s c : c ∈ quote s → url_char c = true.
Proof.
  induction s as [|a s IH]; [by intros ?%elem_of_nil|].
  rewrite quote_cons, elem_of_app. intros [Hc|Hc]; [|by apply IH].
  pose proof (url_char_token a) as Hall.
  rewrite forallb_forall in Hall. apply Hall. by apply list_elem_of_In.
Qed.

Lemma quote_slash s : "/" ∈ quote s ↔ "/" ∈ s.
Proof.
  induction s as [|a s IH]; [done|].
  rewrite quote_cons, elem_of_app, elem_of_cons, IH.
  pose proof (slash_token a) as Htok.
  assert ("/" ∈ (if quote_safe a then [a]
                 else flat_map percent_byte (utf8_encode a)) ↔ "/" = a)
    as ->; [|done].
  rewrite <- ascii_eqb_eq, <- Htok, list_elem_of_In. split.
  - intros Hin. apply existsb_exists. exists "/". split; [done|].
    apply ascii_eqb_refl.
  - intros (x & Hx & ->%ascii_eqb_eq)%existsb_exists. done.
Qed.

Lemma quote_inj s1 s2 : quote s1 = quote s2 → s1 = s2.
Proof.
  intros H. apply (f_equal percent_decode) in H.
  by rewrite !percent_decode_quote in H.
Qed.

(** The encoded name is made of letters, digits, [_.-~/] and [%] only: it
    has no parenthesis, bracket, quote, angle bracket, exclamation mark,
    backslash, space or line break, whatever the name holds; and it has a
    slash only where the name has one, so the encoded form of a sanitized
    name is one path segment. *)
Theorem quote_keeps_target_syntax (s : str) :
  (∀ c, c ∈ quote s → url_char c = true) ∧
  (∀ c, c ∈ txt "()[]<>!' \" ++ [dquote; "010"; "013"] → c ∉ quote s) ∧
  ("/" ∈ quote s ↔ "/" ∈ s) ∧
  (∀ path taken, "/" ∉ quote (sanitize_filename path taken).1).
Proof.
  split_and!.
  - apply quote_url_chars.
  - intros c Hc Hq. apply quote_url_chars in Hq.
    repeat (apply elem_of_cons in Hc as [->|Hc]; [by vm_compute in Hq|]).
    by apply elem_of_nil in Hc.
  - apply quote_slash.
  - intros path taken Hin. apply (proj1 (quote_slash _)) in Hin.
    by apply sanitize_filename_no_slash in Hin.
Qed.

Lemma NoDup_values_inj (d : list (str * str)) k1 k2 v :
  NoDup (keys d) → (k1, v) ∈ d → (k2, v) ∈ d → NoDup (values d) → k1 = k2.
Proof.
  unfold keys, values. induction d as [|[k0 v0] d IH]; intros Hk H1 H2 Hv.
  - by apply elem_of_nil in H1.
  - rewrite !fmap_cons in *. simpl in *.
    apply NoDup_cons in Hk as [_ Hk]. apply NoDup_cons in Hv as [Hv0 Hv].
    apply elem_of_cons in H1 as [H1|H1]; apply elem_of_cons in H2 as [H2|H2].
    + congruence.
    + injection H1 as -> ->. exfalso. apply Hv0.
      apply list_elem_of_fmap. by exists (k2, v0).
    + injection H2 as -> ->. exfalso. apply Hv0.
      apply list_elem_of_fmap. by exists (k1, v0).
    + by apply IH.
Qed.


(** ** Documents of plain text and markdown images *)

Lemma split_at_first {A} (c : A) (a a' r r' : list A) :
  c ∉ a → c ∉ a' → a ++ c :: r = a' ++ c :: r' → a = a' ∧ r = r'.
Proof.
  revert a'. induction a as [|x a IH]; intros [|x' a'] Ha Ha'; simpl.
  - by intros [= ->].
  - intros [= <- _]. exfalso. apply Ha'. left.
  - intros [= -> _]. exfalso. apply Ha. left.
  - intros [= -> Heq]. apply not_elem_of_cons in Ha as [_ Ha].
    apply not_elem_of_cons in Ha' as [_ Ha'].
    destruct (IH a' Ha Ha' Heq) as [-> ->]. done.
Qed.

Lemma scanned_cons_inv occ pos c s ms :
  scanned occ pos (c :: s) ms →
  ((∀ m gs rest, c :: s = m ++ rest → ¬ occ m gs) ∧
   scanned occ (S pos) s ms) ∨
  (∃ m gs rest ms', c :: s = m ++ rest ∧ occ m gs ∧
     ms = RMatch pos m gs :: ms' ∧ scanned occ (pos + length m) rest ms').
Proof.
  intros H. remember (c :: s) as t eqn:Ht.
  destruct H as [|pos c' s' ms Hno Hs|pos m gs rest ms Hocc Hne Hs].
  - done.
  - injection Ht as -> ->. by left.
  - right. symmetry in Ht. by exists m, gs, rest, ms.
Qed.

Lemma scanned_nil_inv occ pos ms : scanned occ pos [] ms → ms = [].
Proof.
  assert (∀ t, scanned occ pos t ms → t = [] → ms = []) as Hgen;
    [|by eauto].
  intros t H Ht.
  destruct H as [| |pos m gs rest ms Hocc Hne Hs]; [done|done|].
  by apply app_eq_nil in Ht as [-> _].
Qed.

(** A scan passes a text that has nowhere the character with which every
    match begins. *)
Lemma scanned_skip occ (c0 : ascii) p s pos ms :
  (∀ m gs, occ m gs → ∃ m', m = c0 :: m') →
  c0 ∉ p → scanned occ pos (p ++ s) ms → scanned occ (pos + length p) s ms.
Proof.
  intros Hhead. revert pos.
  induction p as [|c p IH]; intros pos Hp; simpl.
  - by rewrite Nat.add_0_r.
  - apply not_elem_of_cons in Hp as [Hc Hp].
    intros [[_ Hs]|(m & gs & rest & ms' & Heq & Hocc & _)]%scanned_cons_inv.
    + replace (pos + S (length p)) with (S pos + length p) by lia.
      by apply IH.
    + apply Hhead in Hocc as [m' ->]. simpl in Heq. by injection Heq as -> _.
Qed.

Lemma substituted_cons_inv occ url c t t' :
  substituted occ url (c :: t) t' →
  ((∀ before x after rest,
      c :: t = before ++ x ++ after ++ rest → ¬ occ before x after) ∧
   ∃ t'', t' = c :: t'' ∧ substituted occ url t t'') ∨
  (∃ before x after rest rest',
     c :: t = before ++ x ++ after ++ rest ∧ occ before x after ∧
     t' = before ++ url ++ after ++ rest' ∧ substituted occ url rest rest').
Proof.
  intros H. remember (c :: t) as s eqn:Hs.
  destruct H as [|c' s' t'' Hno Hsub|before x after rest rest' Hocc Hsub].
  - done.
  - injection Hs as -> ->. left. split; [done|]. by exists t''.
  - right. symmetry in Hs. by exists before, x, after, rest, rest'.
Qed.

Lemma substituted_nil_inv occ url t' :
  (∀ before x after, occ before x after → before ≠ []) →
  substituted occ url [] t' → t' = [].
Proof.
  intros Hne.
  assert (∀ s, substituted occ url s t' → s = [] → t' = []) as Hgen;
    [|by eauto].
  intros s H Hs.
  destruct H as [| |before x after rest rest' Hocc Hsub]; [done|done|].
  apply app_eq_nil in Hs as [-> _]. exfalso. by eapply Hne.
Qed.

(** A pass copies a text that has nowhere the character with which every
    occurrence begins. *)
Lemma substituted_skip occ url (c0 : ascii) p s t' :
  (∀ before x after, occ before x after → ∃ b, before = c0 :: b) →
  c0 ∉ p → substituted occ url (p ++ s) t' →
  ∃ s', t' = p ++ s' ∧ substituted occ url s s'.
Proof.
  intros Hhead. revert t'.
  induction p as [|c p IH]; intros t' Hp; simpl.
  - intros Hs. by exists t'.
  - apply not_elem_of_cons in Hp as [Hc Hp].
    intros [[_ (t'' & -> & Hs)]
           |(before & x & after & rest & rest' & Heq & Hocc & _)]
           %substituted_cons_inv.
    + destruct (IH t'' Hp Hs) as (s' & -> & Hs'). by exists s'.
    + apply Hhead in Hocc as [b ->]. simpl in Heq. by injection Heq as -> _.
Qed.

Lemma md_open_head before : md_open before → ∃ b, before = "!" :: b.
Proof. intros (alt & -> & _). by eexists. Qed.

Lemma md_match_head m gs : md_match m gs → ∃ m', m = "!" :: m'.
Proof.
  intros (before & target & -> & [b ->]%md_open_head & _). by eexists.
Qed.

Lemma char_eq_lt c : char_eq true "<" c = true → c = "<".
Proof.
  destruct c as [[] [] [] [] [] [] [] []]; vm_compute; (done || congruence).
Qed.

Lemma img_open_head before : img_open before → ∃ b, before = "<" :: b.
Proof.
  intros (tag & attrs & src & q & -> & Htag & _).
  inversion Htag as [|p c ps cs Hc _]; subst.
  apply char_eq_lt in Hc as ->. by eexists.
Qed.

Lemma img_match_head m gs : img_match m gs → ∃ m', m = "<" :: m'.
Proof.
  intros (before & target & q & -> & [b ->]%img_open_head & _). by eexists.
Qed.

(** A markdown image at the head of a text is the one match there. *)
Lemma md_match_image alt target rest m gs rest' :
  "]" ∉ alt → ")" ∉ target →
  md_match m gs →
  m ++ rest' = render_piece (Image alt target) ++ rest →
  m = render_piece (Image alt target) ∧ gs = [target] ∧ rest' = rest.
Proof.
  intros Halt Htarget
    (before & target' & -> & (alt' & -> & Halt') & Htarget' & _ & ->) Heq.
  simpl in Heq. rewrite <- !app_assoc in Heq. simpl in Heq.
  injection Heq as Heq.
  apply split_at_first in Heq as [-> Heq]; [|done|done].
  injection Heq as Heq. rewrite <- !app_assoc in Heq. simpl in Heq.
  apply split_at_first in Heq as [-> ->]; [|done|done].
  split; [|done]. simpl. by rewrite <- !app_assoc.
Qed.

Lemma image_md_match alt target :
  "]" ∉ alt → ")" ∉ target → target ≠ [] →
  md_match (render_piece (Image alt target)) [target].
Proof.
  intros Halt Htarget Hne. exists (txt "![" ++ alt ++ txt "]("), target.
  split_and!; [|by exists alt|done|done|done].
  simpl. by rewrite <- !app_assoc.
Qed.

Lemma scanned_md_document doc pos ms :
  Forall well_formed doc →
  scanned md_match pos (render doc) ms →
  map (fun mt => group mt 1) ms = targets doc.
Proof.
  intros Hwf. revert pos ms.
  induction Hwf as [|[t|alt target] doc Hp _ IH]; intros pos ms; simpl.
  - by intros ->%scanned_nil_inv.
  - destruct Hp as [Hbang _]. intros Hs.
    eapply scanned_skip in Hs; [|apply md_match_head|done]. by eapply IH.
  - destruct Hp as (_ & Halt & _ & Htarget & Hne).
    change ("!" :: "[" :: (alt ++ "]" :: "(" :: target ++ [")"]) ++ render doc)
      with (render_piece (Image alt target) ++ render doc).
    pose proof (image_md_match alt target Halt Htarget Hne) as Hocc.
    simpl in Hocc |- *.
    intros [[Hno _]|(m & gs & rest & ms' & Heq & Hm & -> & Hs)]
           %scanned_cons_inv.
    + exfalso.
      by apply (Hno ("!" :: "[" :: alt ++ "]" :: "(" :: target ++ [")"])
                  [target] (render doc) eq_refl).
    + symmetry in Heq.
      destruct (md_match_image alt target (render doc) m gs rest
                  Halt Htarget Hm Heq) as (-> & -> & ->).
      simpl. f_equal. by eapply IH.
Qed.

Lemma image_not_elem (c : ascii) alt target :
  c ∉ txt "![]()" → c ∉ alt → c ∉ target →
  c ∉ render_piece (Image alt target).
Proof.
  intros Hc Halt Htarget. simpl in Hc |- *.
  repeat (rewrite elem_of_cons || rewrite elem_of_app).
  rewrite !elem_of_cons in Hc. tauto.
Qed.

Lemma render_no_lt doc : Forall well_formed doc → "<" ∉ render doc.
Proof.
  induction 1 as [|[t|alt target] doc Hp _ IH]; simpl.
  - apply not_elem_of_nil.
  - destruct Hp as [_ Hlt]. rewrite elem_of_app. tauto.
  - destruct Hp as ([_ Halt] & _ & [_ Htarget] & _).
    change ("<" ∉ render_piece (Image alt target) ++ render doc).
    rewrite elem_of_app.
    assert ("<" ∉ render_piece (Image alt target)); [|tauto].
    apply image_not_elem; [|done|done].
    intros Hin. simpl in Hin.
    rewrite !elem_of_cons, elem_of_nil in Hin. naive_solver.
Qed.

Lemma scanned_img_none pos s ms :
  "<" ∉ s → scanned img_match pos s ms → ms = [].
Proof.
  intros Hlt Hs. rewrite <- (app_nil_r s) in Hs.
  eapply scanned_skip in Hs; [|apply img_match_head|done].
  by apply scanned_nil_inv in Hs.
Qed.

Lemma finditer_md_scanned content :
  scanned md_match 0 content (finditer false md_image_re content).
Proof.
  eapply scanned_ext; [apply md_image_parse|].
  apply finditer_from_scanned.
  intros m gs Hp%md_image_parse. by eapply md_match_not_nil.
Qed.

Lemma finditer_img_scanned content :
  scanned img_match 0 content (finditer true html_img_re content).
Proof.
  eapply scanned_ext; [apply html_img_parse|].
  apply finditer_from_scanned.
  intros m gs Hp%html_img_parse. by eapply img_match_not_nil.
Qed.

Lemma find_local_image_refs_render doc :
  Forall well_formed doc →
  find_local_image_refs (render doc)
  = first_seen (filter (fun t => is_url t = false) (targets doc)).
Proof.
  intros Hwf.
  pose proof (finditer_md_scanned (render doc)) as Hmd.
  pose proof (finditer_img_scanned (render doc)) as Himg.
  rewrite find_local_image_refs_eq. unfold local_targets.
  apply scanned_md_document in Hmd; [|done].
  apply scanned_img_none in Himg; [|by apply render_no_lt].
  by rewrite Hmd, Himg, app_nil_r.
Qed.

Lemma md_occurrence_head ref before x after :
  md_occurrence ref before x after → ∃ b, before = "!" :: b.
Proof. intros [Hopen _]. by apply md_open_head. Qed.

Lemma img_occurrence_ci_head ref before x after :
  img_occurrence_ci ref before x after → ∃ b, before = "<" :: b.
Proof. intros [Hopen _]. by apply img_open_head. Qed.

Lemma retarget_one_eq owner gist_id ref sanitized alt target :
  retarget owner gist_id [(ref, sanitized)] (Image alt target)
  = Image alt (if bool_decide (ref = target)
               then raw_url owner gist_id (quote sanitized) else target).
Proof. simpl. by case_bool_decide. Qed.

(** The markdown pass for [ref] on the text of a document. *)
Lemma md_pass_document owner gist_id ref sanitized doc t' :
  Forall well_formed doc → ")" ∉ ref →
  substituted (md_occurrence ref) (raw_url owner gist_id (quote sanitized))
    (render doc) t' →
  t' = render (retarget owner gist_id [(ref, sanitized)] <$> doc).
Proof.
  intros Hwf Href. revert t'.
  induction Hwf as [|[t|alt target] doc Hp _ IH]; intros t'.
  - intros Hs. eapply substituted_nil_inv; [|exact Hs].
    intros before x after [Hopen _]. by apply md_open_not_nil.
  - destruct Hp as [Hbang _]. simpl. intros Hs.
    eapply substituted_skip in Hs as (s' & -> & Hs);
      [|apply md_occurrence_head|done].
    f_equal. by apply IH.
  - destruct Hp as ([Hbalt _] & Halt & [Hbtarget _] & Htarget & Hne).
    rewrite fmap_cons, retarget_one_eq.
    change (render (?p :: ?d)) with (render_piece p ++ render d).
    set (url := raw_url owner gist_id (quote sanitized)).
    cbn [render_piece txt list_ascii_of_string app].
    intros [[Hno (t'' & -> & Hs)]
           |(before & x & after & rest & rest' & Heq & Hocc & -> & Hs)]
           %substituted_cons_inv.
    + assert (ref ≠ target) as Hneq.
      { intros ->.
        apply (Hno (txt "![" ++ alt ++ txt "](") target [")"] (render doc)).
        - simpl. rewrite <- !app_assoc. simpl. by rewrite <- !app_assoc.
        - split; [by exists alt | done]. }
      rewrite bool_decide_eq_false_2 by done.
      cbn [render_piece txt list_ascii_of_string app]. f_equal.
      change ("[" :: (alt ++ "]" :: "(" :: target ++ [")"]) ++ render doc)
        with (("[" :: alt ++ "]" :: "(" :: target ++ [")"]) ++ render doc)
        in Hs.
      eapply substituted_skip in Hs as (s' & -> & Hs);
        [|apply md_occurrence_head|].
      * simpl. do 2 f_equal. by apply IH.
      * repeat (rewrite not_elem_of_cons || rewrite not_elem_of_app).
        split_and!; try done. apply not_elem_of_nil.
    + destruct Hocc as ((alt' & -> & Halt') & -> & ->).
      simpl in Heq. rewrite <- !app_assoc in Heq. simpl in Heq.
      injection Heq as Heq.
      apply split_at_first in Heq as [<- Heq]; [|done|done].
      injection Heq as Heq. rewrite <- !app_assoc in Heq. simpl in Heq.
      apply split_at_first in Heq as [<- <-]; [|done|done].
      rewrite bool_decide_eq_true_2 by done.
      apply IH in Hs as ->.
      clearbody url. simpl. rewrite <- !app_assoc. simpl.
      by rewrite <- !app_assoc.
Qed.

(** The image-tag pass changes nothing in a text without [<]. *)
Lemma img_pass_no_tag ref url t :
  "<" ∉ t → re_sub true (img_rewrite_re ref) [TGroup 1; TText url; TGroup 3] t = t.
Proof.
  intros Hlt. pose proof (img_pass_substituted ref url t) as Hs.
  rewrite <- (app_nil_r t) in Hs at 1.
  eapply substituted_skip in Hs as (s' & Heq & Hs);
    [|apply img_occurrence_ci_head|done].
  rewrite Heq. apply substituted_nil_inv in Hs as ->.
  - apply app_nil_r.
  - intros before x after [Hopen _]. by apply img_open_not_nil.
Qed.

Lemma raw_url_free owner gist_id encoded_name (c : ascii) :
  c ∈ txt "!<)" → c ∉ owner ++ gist_id →
  (c ∈ encoded_name → url_char c = true) →
  c ∉ raw_url owner gist_id encoded_name.
Proof.
  intros Hc Hparts Hname. unfold raw_url.
  rewrite not_elem_of_app in Hparts. destruct Hparts as [Howner Hgist].
  rewrite !not_elem_of_app, not_elem_of_cons, !not_elem_of_app.
  simpl in Hc. rewrite !elem_of_cons, elem_of_nil in Hc.
  destruct Hc as [->|[->|[->|[]]]];
    (split_and!; [apply (bool_decide_unpack _); by vm_compute
                 | done | done | done
                 | apply (bool_decide_unpack _); by vm_compute
                 | intros Hin%Hname; by vm_compute in Hin]).
Qed.

Lemma raw_url_not_nil owner gist_id encoded_name :
  raw_url owner gist_id encoded_name ≠ [].
Proof. done. Qed.

Section Rewriting.
Variables owner gist_id : str.
Hypothesis url_parts : ∀ c : ascii, c ∈ txt "!<)" → c ∉ owner ++ gist_id.

Lemma raw_url_target sanitized :
  plain_text (raw_url owner gist_id (quote sanitized)) ∧
  (")" ∉ raw_url owner gist_id (quote sanitized)) ∧
  raw_url owner gist_id (quote sanitized) ≠ [].
Proof.
  assert (∀ c : ascii, c ∈ txt "!<)" →
            c ∉ raw_url owner gist_id (quote sanitized)) as Hfree.
  { intros c Hc. apply raw_url_free; [done | by apply url_parts |].
    apply quote_url_chars. }
  split_and!; [split| |apply raw_url_not_nil]; apply Hfree; simpl;
    rewrite !elem_of_cons; auto.
Qed.

Lemma retarget_well_formed m p :
  well_formed p → well_formed (retarget owner gist_id m p).
Proof.
  destruct p as [t|alt target]; simpl; [done|].
  intros (Halt & Hclose & Htarget & Hparen & Hne).
  destruct (dict_get m target) as [sanitized|]; [|done].
  destruct (raw_url_target sanitized) as (? & ? & ?). done.
Qed.

Lemma rewrite_step_document ref sanitized doc :
  Forall well_formed doc → ")" ∉ ref →
  rewrite_step owner gist_id (render doc) (ref, sanitized)
  = render (retarget owner gist_id [(ref, sanitized)] <$> doc).
Proof.
  intros Hwf Href. rewrite rewrite_step_unfold.
  rewrite (md_pass_document owner gist_id ref sanitized doc _ Hwf Href
             (md_pass_substituted _ _ _)).
  apply img_pass_no_tag. apply render_no_lt.
  apply Forall_fmap. eapply Forall_impl; [exact Hwf|].
  intros p. apply retarget_well_formed.
Qed.

Lemma retarget_cons ref sanitized m p :
  (∀ k, k ∈ keys m → is_url k = false) →
  retarget owner gist_id m (retarget owner gist_id [(ref, sanitized)] p)
  = retarget owner gist_id ((ref, sanitized) :: m) p.
Proof.
  intros Hkeys. destruct p as [t|alt target]; [done|].
  rewrite retarget_one_eq. simpl. case_bool_decide; [|done].
  assert (dict_get m (raw_url owner gist_id (quote sanitized)) = None) as ->;
    [|done].
  apply dict_get_None. intros Hin%Hkeys.
  by rewrite is_url_raw_url in Hin.
Qed.

Lemma rewrite_content_document m doc :
  Forall well_formed doc →
  (∀ k, k ∈ keys m → (")" ∉ k) ∧ is_url k = false) →
  rewrite_content owner gist_id m (render doc)
  = render (retarget owner gist_id m <$> doc).
Proof.
  revert doc. induction m as [|[ref sanitized] m IH]; intros doc Hwf Hkeys.
  - unfold rewrite_content. simpl. f_equal.
    rewrite <- (list_fmap_id doc) at 1. apply list_fmap_ext.
    intros i [t|alt target] _; done.
  - change (rewrite_content owner gist_id ((ref, sanitized) :: m) (render doc))
      with (rewrite_content owner gist_id m
              (rewrite_step owner gist_id (render doc) (ref, sanitized))).
    rewrite rewrite_step_document; [|done|apply Hkeys; left].
    rewrite IH.
    + rewrite <- list_fmap_compose. f_equal. apply list_fmap_ext.
      intros i p _. simpl. apply retarget_cons.
      intros k Hk. apply Hkeys. by right.
    + apply Forall_fmap. eapply Forall_impl; [exact Hwf|].
      intros p. apply retarget_well_formed.
    + intros k Hk. apply Hkeys. by right.
Qed.

Lemma targets_retarget m doc :
  targets (retarget owner gist_id m <$> doc)
  = (fun t => match dict_get m t with
              | Some sanitized => raw_url owner gist_id (quote sanitized)
              | None => t
              end) <$> targets doc.
Proof.
  induction doc as [|[t|alt target] doc IH]; [done|done|].
  rewrite fmap_cons. simpl. f_equal. exact IH.
Qed.
End Rewriting.

Lemma first_seen_filter (P : str → Prop) `{!∀ x, Decision (P x)} l :
  first_seen (filter P l) = filter P (first_seen l).
Proof.
  induction l as [|x l IH]; [done|].
  simpl. destruct (decide (P x)) as [HP|HP].
  - rewrite !filter_cons_True by done. simpl. f_equal.
    rewrite IH, !list_filter_filter. apply list_filter_iff. tauto.
  - rewrite !filter_cons_False by done.
    rewrite IH, list_filter_filter. apply list_filter_iff.
    intros y. split; [|tauto]. intros Hy. split; [done|]. by intros ->.
Qed.

Lemma targets_well_formed doc t :
  Forall well_formed doc → t ∈ targets doc → (")" ∉ t) ∧ t ≠ [].
Proof.
  induction 1 as [|[t0|alt target] doc Hp _ IH]; simpl.
  - by intros ?%elem_of_nil.
  - done.
  - destruct Hp as (_ & _ & _ & Hparen & Hne).
    intros [->|Hin]%elem_of_cons; [done | by apply IH].
Qed.

Lemma extracted_keys m doc :
  Forall well_formed doc →
  (∀ ref, ref ∈ keys m → ref ∈ find_local_image_refs (render doc)) →
  ∀ k, k ∈ keys m → (")" ∉ k) ∧ is_url k = false.
Proof.
  intros Hwf Hkeys k Hk%Hkeys.
  rewrite find_local_image_refs_render, elem_of_first_seen,
    list_elem_of_filter in Hk by done.
  destruct Hk as [Hurl Hin]. split; [|done].
  by eapply targets_well_formed.
Qed.

Lemma filter_retargeted owner gist_id m (ts : list str) :
  filter (fun t => is_url t = false)
    ((fun t => match dict_get m t with
               | Some sanitized => raw_url owner gist_id (quote sanitized)
               | None => t
               end) <$> ts)
  = filter (fun t => t ∉ keys m) (filter (fun t => is_url t = false) ts).
Proof.
  rewrite list_filter_filter.
  induction ts as [|t ts IH]; [done|].
  rewrite fmap_cons. destruct (dict_get m t) as [sanitized|] eqn:Hget.
  - rewrite filter_cons_False by (by rewrite is_url_raw_url).
    rewrite filter_cons_False; [done|].
    intros [Hnot _]. apply dict_get_None in Hnot. congruence.
  - apply dict_get_None in Hget.
    destruct (is_url t) eqn:Hurl.
    + rewrite !filter_cons_False; [done | | congruence].
      intros [_ ?]. congruence.
    + rewrite !filter_cons_True by done. by f_equal.
Qed.

(** On a document made of plain text and markdown images, where [!] and
    [<] stand only at the head of an image, the extraction returns the
    targets of the images that are no URLs, each where it is met first:
    every image is found, and nothing else is. *)
Theorem find_local_image_refs_document (doc : list piece) :
  Forall well_formed doc →
  find_local_image_refs (render doc)
  = first_seen (filter (fun t => is_url t = false) (targets doc)).
Proof. apply find_local_image_refs_render. Qed.

Lemma find_local_image_refs_document_witness :
  let doc := [Plain (txt "See "); Image (txt "a") (txt "img/a.png");
              Image (txt "web") (txt "https://x.org/w.png");
              Plain (txt ", then "); Image (txt "again") (txt "img/a.png");
              Image (txt "b") (txt "b.png")] in
  render doc
  = txt "See ![a](img/a.png)![web](https://x.org/w.png), then ![again](img/a.png)![b](b.png)" ∧
  find_local_image_refs (render doc) = [txt "img/a.png"; txt "b.png"].
Proof.
  intros doc. split; [reflexivity|].
  rewrite (find_local_image_refs_document doc); [reflexivity|].
  repeat (apply Forall_cons; split); try apply Forall_nil;
    repeat split; apply (bool_decide_unpack _); by vm_compute.
Defined.





Lemma filter_ext_elem {A} (P Q : A → Prop)
    `{!∀ x, Decision (P x)} `{!∀ x, Decision (Q x)} (l : list A) :
  (∀ x, x ∈ l → P x ↔ Q x) → filter P l = filter Q l.
Proof.
  induction l as [|x l IH]; intros Hext; [done|].
  assert (filter P l = filter Q l) as Hl.
  { apply IH. intros y Hy. apply Hext. by right. }
  destruct (decide (P x)) as [HP|HP].
  - rewrite !filter_cons_True; [by f_equal | by apply Hext; [left|] | done].
  - rewrite !filter_cons_False; [done | | done].
    intros HQ. apply HP. apply Hext; [left | done].
Qed.

Lemma resolve_refs_keys_iff
    (unquote : str -> str) (isfile : str -> bool)
    (cwd markdown_file : str) (image_refs : list str) (st : resolution) :
  resolve_refs unquote isfile cwd markdown_file image_refs = Some st →
  ∀ ref, ref ∈ keys (rewrite_map st) ↔
         ref ∈ image_refs ∧
         accepted unquote isfile cwd markdown_file ref = true.
Proof.
  intros Hloop ref.
  apply resolve_loop_keys_order in Hloop as (Hk & _).
  simpl in Hk. rewrite Hk.
  rewrite list_elem_of_filter, elem_of_first_seen, list_elem_of_filter.
  split; [tauto|]. intros [? ?]. split; [apply not_elem_of_nil | done].
Qed.


(** ** The files of the temporary directories *)

Lemma resolve_loop_image_names unquote isfile cwd markdown_file
    image_refs st st' :
  (∀ v, v ∈ keys (resolved_images st) → ("/" ∉ v) ∧ ∃ r, v = "_" :: r) →
  resolve_loop unquote isfile cwd markdown_file st image_refs = Some st' →
  ∀ v, v ∈ keys (resolved_images st') → ("/" ∉ v) ∧ ∃ r, v = "_" :: r.
Proof.
  revert st. induction image_refs as [|ref refs IH]; intros st Hinv; simpl.
  - by intros [= <-].
  - destruct (resolve_step unquote isfile cwd markdown_file st ref)
      as [st1|] eqn:Hstep; simpl; [|done].
    apply IH.
    apply resolve_step_cases in Hstep
      as [(_ & _ & Hri & _)|(_ & _ & Hri & _)]; rewrite Hri; [|done].
    intros v [->|Hin]%elem_of_keys_dict_set; [|by apply Hinv].
    split; [apply sanitize_filename_no_slash|apply sanitize_filename_head].
Qed.

Lemma basename_free (a b : str) : "/" ∉ b → basename ((a ++ ["/"]) ++ b) = b.
Proof.
  intros Hb. unfold basename, slice_from. rewrite rfind_app_free by done.
  replace (Z.to_nat (Z.of_nat (length a) + 1)) with (length (a ++ ["/"]))
    by (rewrite length_app; simpl; lia).
  by rewrite drop_app_length.
Qed.

Lemma basename_no_slash (b : str) : "/" ∉ b → basename b = b.
Proof.
  intros Hb. destruct (basename_spec b) as [_ [<-|[d Heq]]]; [done|].
  exfalso. apply Hb. rewrite Heq. apply elem_of_app. right. left.
Qed.

Lemma join_relative (a b : str) :
  startswith b ["/"] = false →
  join a b = a ++ b ∨ join a b = (a ++ ["/"]) ++ b.
Proof.
  intros Hb. unfold join. rewrite Hb.
  destruct (bool_decide (a = []) || endswith a ["/"]); [by left|].
  right. by rewrite <- app_assoc.
Qed.

Lemma startswith_head (c : ascii) (s : str) :
  c ≠ "/" → startswith (c :: s) ["/"] = false.
Proof.
  intros Hc. simpl. unfold ascii_eqb. rewrite bool_decide_eq_false_2; done.
Qed.

Lemma basename_join (a b : str) : "/" ∉ b → b ≠ [] → basename (join a b) = b.
Proof.
  intros Hb Hne. unfold join.
  destruct b as [|c b]; [done|].
  rewrite startswith_head by (intros ->; apply Hb; left).
  destruct (bool_decide (a = []) || endswith a ["/"]) eqn:Hend.
  - apply orb_true_iff in Hend as [Hnil|Hend].
    + apply bool_decide_eq_true in Hnil as ->. by apply basename_no_slash.
    + apply endswith_suffix in Hend as [a' ->]. by apply basename_free.
  - change (a ++ "/" :: c :: b) with (a ++ ["/"] ++ c :: b).
    rewrite app_assoc. by apply basename_free.
Qed.

Lemma join_inj (a b1 b2 : str) :
  startswith b1 ["/"] = false → startswith b2 ["/"] = false →
  join a b1 = join a b2 → b1 = b2.
Proof.
  unfold join. intros -> ->.
  destruct (bool_decide (a = []) || endswith a ["/"]).
  - apply app_inv_head.
  - intros H%app_inv_head. by injection H.
Qed.

Lemma gist_md_name_relative now markdown_file name :
  startswith (gist_md_name now markdown_file name) ["/"] = false ∧
  ∀ r, gist_md_name now markdown_file name ≠ "_" :: r.
Proof.
  destruct (utc_prefix_head now) as (d & rest & Hp & Hd).
  unfold gist_md_name. rewrite Hp. unfold is_digit in Hd. split.
  - apply startswith_head. intros ->. cbv in Hd. lia.
  - intros r [= -> _]. cbv in Hd. lia.
Qed.

(** The files of the cloned gist do not collide: every image is written
    directly into the directory of the clone, under its sanitized name, at
    a path that differs from that of every other image and from that of
    the rewritten markdown file. *)
Theorem clone_files_distinct
    (unquote : str -> str) (isfile : str -> bool)
    (cwd markdown_file : str) (image_refs : list str) (st : resolution)
    (now : datetime) (name : option str) (clone_dir : str) :
  resolve_refs unquote isfile cwd markdown_file image_refs = Some st →
  ∀ sanitized, sanitized ∈ keys (resolved_images st) →
    basename (join clone_dir sanitized) = sanitized ∧
    join clone_dir sanitized
    ≠ join clone_dir (gist_md_name now markdown_file name) ∧
    ∀ other, other ∈ keys (resolved_images st) → other ≠ sanitized →
      join clone_dir other ≠ join clone_dir sanitized.
Proof.
  intros Hst.
  assert (∀ v, v ∈ keys (resolved_images st) →
               ("/" ∉ v) ∧ ∃ r, v = "_" :: r) as Hnames.
  { eapply resolve_loop_image_names; [|exact Hst].
    intros v Hin. by apply elem_of_nil in Hin. }
  intros sanitized Hin.
  destruct (Hnames _ Hin) as [Hfree [r ->]].
  destruct (gist_md_name_relative now markdown_file name) as [Hrel Hhead].
  split_and!.
  - by apply basename_join.
  - intros Heq%join_inj; [|by apply startswith_head|done].
    by eapply Hhead.
  - intros other Hother Hne Heq. destruct (Hnames _ Hother) as [_ [r' ->]].
    apply join_inj in Heq; [done| |]; by apply startswith_head.
Qed.

Lemma clone_files_distinct_witness :
  let isfile := fun p : str =>
    bool_decide (p = txt "/home/u/docs/a/img.png") ||
    bool_decide (p = txt "/home/u/docs/b/img.png") in
  ∃ st,
    resolve_refs (fun s => s) isfile (txt "/home/u") (txt "docs/notes.md")
      [txt "a/img.png"; txt "b/img.png"] = Some st ∧
    keys (resolved_images st) = [txt "_img.png"; txt "_img-2.png"] ∧
    basename (join (txt "/tmp/clone") (txt "_img-2.png")) = txt "_img-2.png" ∧
    join (txt "/tmp/clone") (txt "_img-2.png")
    ≠ join (txt "/tmp/clone")
        (gist_md_name (Datetime 2026 1 2 3 4 5) (txt "docs/notes.md") None).
Proof.
  intros isfile.
  destruct (resolve_refs (fun s => s) isfile (txt "/home/u")
              (txt "docs/notes.md") [txt "a/img.png"; txt "b/img.png"])
    as [st|] eqn:Hst; [|by vm_compute in Hst].
  exists st. split; [done|].
  assert (keys (resolved_images st) = [txt "_img.png"; txt "_img-2.png"])
    as Hkeys.
  { apply (f_equal (fmap (fun st => keys (resolved_images st)))) in Hst.
    vm_compute in Hst. injection Hst as Hst. symmetry. exact Hst. }
  split; [done|].
  destruct (clone_files_distinct _ _ _ _ _ st (Datetime 2026 1 2 3 4 5) None
              (txt "/tmp/clone") Hst (txt "_img-2.png")) as (Hb & Hmd & _).
  - rewrite Hkeys. right. left.
  - by split.
Defined.

(** ** The run of the script *)

Lemma prog_bind_eq {A B} (m : prog A) (f : A → prog B) :
  m ≫= f = match m.2 with
           | Returns a => (m.1 ++ (f a).1, (f a).2)
           | Exits code => (m.1, Exits code)
           | Raises => (m.1, Raises)
           end.
Proof. done. Qed.

(** A property of all events passes from the pieces to their sequence. *)
Lemma bind_Forall {A B} (Q : event → Prop) (m : prog A) (f : A → prog B) :
  Forall Q m.1 → (∀ a, m.2 = Returns a → Forall Q (f a).1) →
  Forall Q (m ≫= f).1.
Proof.
  intros Hm Hf. rewrite prog_bind_eq.
  destruct m as [t [a|code|]]; simpl in *; [|done|done].
  apply Forall_app. split; [done | by apply Hf].
Qed.

Lemma for_each_Forall {A} (Q : event → Prop) (l : list A) body :
  (∀ x, Forall Q (body x).1) → Forall Q (for_each l body).1.
Proof.
  intros Hbody. induction l as [|x l IH]; simpl; [by constructor|].
  apply bind_Forall; [apply Hbody | by intros []].
Qed.

Lemma for_fold_Forall {A S} (Q : event → Prop) (l : list A) (s : S) body :
  (∀ s x, Forall Q (body s x).1) → Forall Q (for_fold l s body).1.
Proof.
  intros Hbody. revert s. induction l as [|x l IH]; intros s; simpl.
  - by constructor.
  - apply bind_Forall; [apply Hbody | intros s' _; apply IH].
Qed.

Lemma finally_Forall {A} (Q : event → Prop) (body : prog A) cleanup :
  Forall Q body.1 → Forall Q cleanup → Forall Q (finally body cleanup).1.
Proof. intros. by apply Forall_app. Qed.

Lemma run_Forall (Q : event → Prop) w cmd check cwd :
  Q (Subprocess cmd cwd) → (∀ line, Q (Print true line)) →
  Forall Q (run w cmd check cwd).1.
Proof.
  intros Hcmd Hprint. unfold run, subprocess_run.
  destruct (subprocess w cmd cwd) as [result|]; simpl.
  - destruct (check && negb (returncode result =? 0)%Z); simpl;
      [|by repeat constructor].
    destruct (negb (bool_decide (err result = []))); simpl;
      by repeat constructor.
  - by repeat constructor.
Qed.

Lemma check_dependencies_Forall (Q : event → Prop) w :
  Q (Subprocess [txt "gh"; txt "auth"; txt "status"] None) →
  (∀ line, Q (Print true line)) →
  Forall Q (check_dependencies w).1.
Proof.
  intros Hcmd Hprint. unfold check_dependencies, subprocess_run.
  apply bind_Forall.
  - apply for_each_Forall. intros cmd.
    destruct (negb (which w cmd)); simpl; by repeat constructor.
  - intros [] _. apply bind_Forall.
    + destruct (subprocess w _ _); simpl; by repeat constructor.
    + intros result _. destruct (negb (returncode result =? 0)%Z); simpl;
        by repeat constructor.
Qed.

Lemma resolve_ref_Forall (Q : event → Prop) w md_dir vars ref :
  (∀ to_stderr line, Q (Print to_stderr line)) →
  Forall Q (resolve_ref w md_dir vars ref).1.
Proof.
  intros Hprint. unfold resolve_ref. destruct vars as [[rm ri] tk].
  destruct (commonpath _ _) as [common|]; [|by constructor].
  destruct (negb (bool_decide (common = md_dir))); simpl;
    [by repeat constructor|].
  destruct (negb (isfile w _)); simpl; [by repeat constructor|].
  destruct (sanitize_filename _ _). simpl. by repeat constructor.
Qed.

Lemma shutil_copy2_Forall (Q : event → Prop) w src dst :
  Q (Copy2 src dst) → Forall Q (shutil_copy2 w src dst).1.
Proof.
  intros Hcopy. unfold shutil_copy2.
  destruct (copy2 w src dst); simpl; by repeat constructor.
Qed.

(** *** Commands stop at the first failure *)

Lemma succeeded_other w e : ¬ is_subprocess e → succeeded w e.
Proof. by destruct e. Qed.

Lemma ordered_app w t t' :
  Forall (succeeded w) t → ordered w t' → ordered w (t ++ t').
Proof.
  intros Ht Ht' before e after Heq Hafter.
  apply app_eq_app in Heq as [l [[-> Heq]|[-> Heq]]].
  - destruct l as [|e' l]; simpl in Heq.
    + by apply (Ht' [] e after).
    + injection Heq as <- ->.
      apply Forall_app in Ht as [_ Ht]. by inversion Ht.
  - by apply (Ht' l e after).
Qed.

Lemma ordered_app_quiet w t t' :
  ordered w t → Forall (fun e => ¬ is_subprocess e) t' → ordered w (t ++ t').
Proof.
  intros Ht Ht' before e after Heq Hafter.
  apply app_eq_app in Heq as [l [[-> Heq]|[-> Heq]]].
  - destruct l as [|e' l]; simpl in Heq.
    + subst t'. apply succeeded_other.
      by inversion Ht'.
    + injection Heq as <- ->. apply (Ht before e l eq_refl).
      apply Exists_app in Hafter as [Hl|Hl]; [done|].
      exfalso. apply Exists_exists in Hl as (x & Hx & Hsub).
      by apply (proj1 (Forall_forall _ _) Ht') in Hx.
  - apply succeeded_other.
    assert (e ∈ t') as Hin.
    { rewrite Heq. apply elem_of_app. right. left. }
    by apply (proj1 (Forall_forall _ _) Ht') in Hin.
Qed.

Lemma ordered_quiet w t :
  Forall (fun e => ¬ is_subprocess e) t → ordered w t.
Proof.
  intros Ht. rewrite <- (app_nil_l t). apply ordered_app_quiet; [|done].
  intros before e after Heq. by destruct before.
Qed.

Lemma disciplined_quiet {A} w (m : prog A) :
  Forall (fun e => ¬ is_subprocess e) m.1 → disciplined w m.
Proof.
  intros Ht. split; [by apply ordered_quiet|].
  intros _ _. eapply Forall_impl; [exact Ht|]. apply succeeded_other.
Qed.

Lemma disciplined_bind {A B} w (m : prog A) (f : A → prog B) :
  disciplined w m → (∀ a, m.2 = Returns a → disciplined w (f a)) →
  disciplined w (m ≫= f).
Proof.
  intros [Hord Hok] Hf. rewrite prog_bind_eq.
  destruct m as [t [a|code|]]; simpl in *.
  - destruct (Hf a eq_refl) as [Hord' Hok']. split; simpl.
    + apply ordered_app; [by eapply Hok | done].
    + intros b Hb. apply Forall_app. split; [by eapply Hok | by eapply Hok'].
  - by split.
  - by split.
Qed.

Lemma disciplined_finally {A} w (body : prog A) cleanup :
  disciplined w body → Forall (fun e => ¬ is_subprocess e) cleanup →
  disciplined w (finally body cleanup).
Proof.
  intros [Hord Hok] Hquiet. split; simpl.
  - by apply ordered_app_quiet.
  - intros a Ha. apply Forall_app. split; [by eapply Hok|].
    eapply Forall_impl; [exact Hquiet|]. apply succeeded_other.
Qed.

Lemma disciplined_for_each {A} w (l : list A) body :
  (∀ x, disciplined w (body x)) → disciplined w (for_each l body).
Proof.
  intros Hbody. induction l as [|x l IH]; simpl.
  - apply disciplined_quiet. constructor.
  - apply disciplined_bind; [apply Hbody | by intros [] _].
Qed.

Lemma disciplined_for_fold {A S} w (l : list A) (s : S) body :
  (∀ s x, disciplined w (body s x)) → disciplined w (for_fold l s body).
Proof.
  intros Hbody. revert s. induction l as [|x l IH]; intros s; simpl.
  - apply disciplined_quiet. constructor.
  - apply disciplined_bind; [apply Hbody | intros s' _; apply IH].
Qed.

Lemma ordered_single w e : ordered w [e].
Proof.
  intros before e' after Heq Hafter.
  destruct before as [|? [|? ?]]; simplify_eq/=. by inversion Hafter.
Qed.

Lemma disciplined_run w cmd cwd : disciplined w (run w cmd true cwd).
Proof.
  unfold run, subprocess_run.
  destruct (subprocess w cmd cwd) as [result|] eqn:Hrun;
    cbn -[txt join_with strip].
  - destruct (returncode result =? 0)%Z eqn:Hcode; simpl.
    + apply Z.eqb_eq in Hcode. split; simpl.
      * apply ordered_single.
      * intros _ _. repeat constructor. by exists result.
    + split; simpl; [|by destruct (negb _)].
      apply (ordered_app_quiet w [Subprocess cmd cwd]);
        [apply ordered_single|].
      destruct (negb _); simpl; repeat constructor; by intros [].
  - split; [|done]. apply ordered_single.
Qed.

Lemma disciplined_check_dependencies w :
  disciplined w (check_dependencies w).
Proof.
  unfold check_dependencies. apply disciplined_bind.
  - apply disciplined_for_each. intros cmd. apply disciplined_quiet.
    destruct (negb (which w cmd)); simpl; repeat constructor; by intros [].
  - intros [] _. unfold subprocess_run.
    destruct (subprocess w _ None) as [result|] eqn:Hrun;
      cbn -[txt join_with strip].
    + destruct (returncode result =? 0)%Z eqn:Hcode; simpl.
      * apply Z.eqb_eq in Hcode. split; simpl.
        -- apply ordered_single.
        -- intros _ _. repeat constructor. by exists result.
      * split; [|done]. simpl.
        apply (ordered_app_quiet w [Subprocess _ None]);
          [apply ordered_single|].
        repeat constructor. by intros [].
    + split; [|done]. apply ordered_single.
Qed.

#[local] Ltac quiet_piece :=
  apply disciplined_quiet;
  repeat match goal with
         | |- context [if ?b then _ else _] => destruct b
         | |- context [match ?x with Some _ => _ | None => _ end] => destruct x
         end;
  simpl;
  by repeat (constructor; try by intros []).

Lemma disciplined_resolve_ref w md_dir vars ref :
  disciplined w (resolve_ref w md_dir vars ref).
Proof.
  apply disciplined_quiet. apply resolve_ref_Forall. by intros ? ? [].
Qed.

Lemma disciplined_shutil_copy2 w src dst :
  disciplined w (shutil_copy2 w src dst).
Proof.
  apply disciplined_quiet. apply shutil_copy2_Forall. by intros [].
Qed.

Lemma disciplined_create_gist w args gist_md_name :
  disciplined w (create_gist w args gist_md_name).
Proof.
  unfold create_gist.
  apply disciplined_bind; [quiet_piece|intros [] _].
  apply disciplined_bind; [quiet_piece|intros [] _].
  apply disciplined_finally; [|repeat constructor; by intros []].
  apply disciplined_bind; [apply disciplined_shutil_copy2|intros [] _].
  apply disciplined_run.
Qed.

Lemma disciplined_upload_images w gist_md_name content gist_id
    rewrite_map resolved_images :
  disciplined w (upload_images w gist_md_name content gist_id rewrite_map
                   resolved_images).
Proof.
  unfold upload_images.
  apply disciplined_bind; [quiet_piece|intros [] _].
  apply disciplined_finally; [|repeat constructor; by intros []].
  apply disciplined_bind; [quiet_piece|intros [] _].
  apply disciplined_bind; [apply disciplined_run|intros ? _].
  apply disciplined_bind.
  { apply disciplined_for_each. intros [sanitized src_path].
    apply disciplined_shutil_copy2. }
  intros [] _.
  apply disciplined_bind; [apply disciplined_run|intros ? _].
  apply disciplined_bind; [apply disciplined_run|intros ? _].
  apply disciplined_bind; [quiet_piece|intros [] _].
  apply disciplined_bind; [apply disciplined_run|intros ? _].
  apply disciplined_bind; [apply disciplined_run|intros gist_json _].
  apply disciplined_bind; [quiet_piece|intros owner _].
  apply disciplined_bind; [quiet_piece|intros [] _].
  apply disciplined_bind; [quiet_piece|intros [] _].
  apply disciplined_bind; [quiet_piece|intros [] _].
  apply disciplined_bind; [apply disciplined_run|intros ? _].
  quiet_piece.
Qed.

Lemma disciplined_main w args : disciplined w (main w args).
Proof.
  unfold main.
  apply disciplined_bind; [quiet_piece|intros [] _].
  apply disciplined_bind; [apply disciplined_check_dependencies|intros [] _].
  apply disciplined_bind; [quiet_piece|intros content _].
  apply disciplined_bind; [quiet_piece|intros [] _].
  apply disciplined_bind; [quiet_piece|intros [] _].
  apply disciplined_bind; [quiet_piece|intros [] _].
  apply disciplined_bind.
  { apply disciplined_for_fold. intros vars ref.
    apply disciplined_resolve_ref. }
  intros [[rewrite_map resolved_images] taken_names] _.
  apply disciplined_bind; [apply disciplined_create_gist|intros gist_url _].
  apply disciplined_bind.
  { apply disciplined_quiet.
    destruct (check_gist_url gist_url) as [code lines|gist_id];
      [|by constructor].
    apply bind_Forall; [|intros; by constructor].
    apply for_each_Forall. intros line. repeat constructor. by intros []. }
  intros gist_id _.
  apply disciplined_bind; [quiet_piece|intros [] _].
  apply disciplined_bind.
  { destruct (negb _); [apply disciplined_upload_images|quiet_piece]. }
  intros [] _.
  apply disciplined_bind; [quiet_piece|intros [] _].
  quiet_piece.
Qed.

(** *** What the pieces of [main] emit *)

Lemma create_gist_Forall (Q : event → Prop) w args gist_md_name :
  (∀ to_stderr line, Q (Print to_stderr line)) →
  (∀ cmd cwd, Q (Subprocess cmd cwd)) →
  Q (MkTemp (staging w)) → Q (RmTree (staging w)) →
  (∀ src dst, Q (Copy2 src dst)) →
  Forall Q (create_gist w args gist_md_name).1.
Proof.
  intros Hprint Hcmd Hmk Hrm Hcopy. unfold create_gist.
  apply bind_Forall; [by repeat constructor|intros [] _].
  apply bind_Forall; [by repeat constructor|intros [] _].
  apply finally_Forall; [|by repeat constructor].
  apply bind_Forall; [by apply shutil_copy2_Forall|intros [] _].
  by apply run_Forall.
Qed.

Lemma upload_images_Forall (Q : event → Prop) w gist_md_name content gist_id
    rewrite_map resolved_images :
  (∀ to_stderr line, Q (Print to_stderr line)) →
  (∀ cmd cwd, Q (Subprocess cmd cwd)) →
  Q (MkTemp (clone_dir w)) → Q (RmTree (clone_dir w)) →
  (∀ src dst, Q (Copy2 src dst)) →
  (∀ path text, Q (WriteText path text)) →
  Forall Q (upload_images w gist_md_name content gist_id rewrite_map
              resolved_images).1.
Proof.
  intros Hprint Hcmd Hmk Hrm Hcopy Hwrite. unfold upload_images.
  apply bind_Forall; [by repeat constructor|intros [] _].
  apply finally_Forall; [|by repeat constructor].
  apply bind_Forall; [by repeat constructor|intros [] _].
  apply bind_Forall; [by apply run_Forall|intros ? _].
  apply bind_Forall.
  { apply for_each_Forall. intros [sanitized src_path].
    by apply shutil_copy2_Forall. }
  intros [] _.
  apply bind_Forall; [by apply run_Forall|intros ? _].
  apply bind_Forall; [by apply run_Forall|intros ? _].
  apply bind_Forall; [by repeat constructor|intros [] _].
  apply bind_Forall; [by apply run_Forall|intros ? _].
  apply bind_Forall; [by apply run_Forall|intros gist_json _].
  apply bind_Forall; [by destruct (owner_login w gist_json); constructor|].
  intros owner _.
  apply bind_Forall; [by repeat constructor|intros [] _].
  apply bind_Forall; [by destruct (write_text w _ _); constructor|].
  intros [] _.
  apply bind_Forall; [by repeat constructor|intros [] _].
  apply bind_Forall; [by apply run_Forall|intros ? _].
  by repeat constructor.
Qed.

(** The events of [main] before the end of the upload. *)
Lemma main_Forall (Q : event → Prop) w args :
  (∀ to_stderr line, Q (Print to_stderr line)) →
  (∀ cmd cwd, Q (Subprocess cmd cwd)) →
  Q (MkTemp (staging w)) → Q (RmTree (staging w)) →
  Q (MkTemp (clone_dir w)) → Q (RmTree (clone_dir w)) →
  (∀ src dst, Q (Copy2 src dst)) →
  (∀ path text, Q (WriteText path text)) →
  (∀ url, Q (OpenBrowser url)) →
  Forall Q (main w args).1.
Proof.
  intros Hprint Hcmd Hmk Hrm Hmk' Hrm' Hcopy Hwrite Hopen. unfold main.
  apply bind_Forall.
  { destruct (negb (isfile w _)); by repeat constructor. }
  intros [] _.
  apply bind_Forall; [by apply check_dependencies_Forall|intros [] _].
  apply bind_Forall; [by destruct (read_text w _); constructor|].
  intros content _.
  apply bind_Forall; [by repeat constructor|intros [] _].
  apply bind_Forall; [by destruct (negb _); repeat constructor|intros [] _].
  apply bind_Forall; [by repeat constructor|intros [] _].
  apply bind_Forall.
  { apply for_fold_Forall. intros vars ref. by apply resolve_ref_Forall. }
  intros [[rewrite_map resolved_images] taken_names] _.
  apply bind_Forall; [by apply create_gist_Forall|intros gist_url _].
  apply bind_Forall.
  { destruct (check_gist_url gist_url) as [code lines|gist_id];
      [|by constructor].
    apply bind_Forall; [|intros; by constructor].
    apply for_each_Forall. intros line. by repeat constructor. }
  intros gist_id _.
  apply bind_Forall; [by repeat constructor|intros [] _].
  apply bind_Forall.
  { destruct (negb _); [by apply upload_images_Forall|by constructor]. }
  intros [] _.
  apply bind_Forall; [by repeat constructor|intros [] _].
  destruct (args_web args); by repeat constructor.
Qed.

(** *** Temporary directories *)

Lemma closed_app t t' : closed t → closed t' → closed (t ++ t').
Proof.
  intros Ht Ht' before dir after Heq.
  apply app_eq_app in Heq as [l [[-> Heq]|[-> Heq]]].
  - destruct l as [|e l]; simpl in Heq.
    + by apply (Ht' [] dir after).
    + injection Heq as <- ->. apply elem_of_app. left.
      by apply (Ht before dir l).
  - by apply (Ht' l dir after).
Qed.

Lemma closed_quiet t : Forall (fun e => ¬ is_mktemp e) t → closed t.
Proof.
  intros Ht before dir after ->.
  apply Forall_app in Ht as [_ Ht]. by inversion Ht.
Qed.

Lemma closed_bind {A B} (m : prog A) (f : A → prog B) :
  closed m.1 → (∀ a, closed (f a).1) → closed (m ≫= f).1.
Proof.
  intros Hm Hf. rewrite prog_bind_eq.
  destruct m as [t [a|code|]]; simpl in *; [|done|done].
  by apply closed_app.
Qed.

(** A directory made before a [try] or [with] block and removed when the
    block is left. *)
Lemma closed_block {A} dir (body : prog A) :
  closed body.1 →
  closed (emit (MkTemp dir) ≫= fun _ => finally body [RmTree dir]).1.
Proof.
  intros Hbody. rewrite prog_bind_eq. simpl.
  intros before d after Heq. destruct before as [|e before]; simpl in Heq.
  - injection Heq as <- <-. apply elem_of_app. right. left.
  - injection Heq as _ Heq. revert Heq. apply closed_app; [done|].
    apply closed_quiet. repeat constructor. by intros [].
Qed.

#[local] Ltac no_mktemp :=
  apply closed_quiet;
  first [ apply run_Forall | apply check_dependencies_Forall
        | apply shutil_copy2_Forall | idtac ];
  repeat match goal with
         | |- context [if ?b then _ else _] => destruct b
         | |- context [match ?x with Some _ => _ | None => _ end] => destruct x
         end;
  simpl; by repeat (constructor || intros ? || intros []).

Lemma closed_main w args : closed (main w args).1.
Proof.
  unfold main.
  apply closed_bind; [no_mktemp|intros []].
  apply closed_bind; [no_mktemp|intros []].
  apply closed_bind; [no_mktemp|intros content].
  apply closed_bind; [no_mktemp|intros []].
  apply closed_bind; [no_mktemp|intros []].
  apply closed_bind; [no_mktemp|intros []].
  apply closed_bind.
  { apply closed_quiet. apply for_fold_Forall. intros vars ref.
    apply resolve_ref_Forall. by intros ? ? []. }
  intros [[rewrite_map resolved_images] taken_names].
  apply closed_bind.
  { unfold create_gist. apply closed_bind; [no_mktemp|intros []].
    apply closed_block.
    apply closed_bind; [no_mktemp|intros []]. no_mktemp. }
  intros gist_url.
  apply closed_bind.
  { apply closed_quiet.
    destruct (check_gist_url gist_url) as [code lines|gist_id];
      [|by constructor].
    apply bind_Forall; [|intros; by constructor].
    apply for_each_Forall. intros line. repeat constructor. by intros []. }
  intros gist_id.
  apply closed_bind; [no_mktemp|intros []].
  apply closed_bind.
  { destruct (negb _); [|no_mktemp]. unfold upload_images.
    apply closed_block. apply closed_quiet.
    apply bind_Forall; [by repeat (constructor || intros [])|intros [] _].
    apply bind_Forall; [apply run_Forall; by intros; intros []|intros ? _].
    apply bind_Forall.
    { apply for_each_Forall. intros [sanitized src_path].
      apply shutil_copy2_Forall. by intros []. }
    intros [] _.
    apply bind_Forall; [apply run_Forall; by intros; intros []|intros ? _].
    apply bind_Forall; [apply run_Forall; by intros; intros []|intros ? _].
    apply bind_Forall; [by repeat (constructor || intros [])|intros [] _].
    apply bind_Forall; [apply run_Forall; by intros; intros []|intros ? _].
    apply bind_Forall; [apply run_Forall; by intros; intros []|].
    intros gist_json _.
    apply bind_Forall; [by destruct (owner_login w gist_json); constructor|].
    intros owner _.
    apply bind_Forall; [by repeat (constructor || intros [])|intros [] _].
    apply bind_Forall; [by destruct (write_text w _ _); constructor|].
    intros [] _.
    apply bind_Forall; [by repeat (constructor || intros [])|intros [] _].
    apply bind_Forall; [apply run_Forall; by intros; intros []|intros ? _].
    by repeat (constructor || intros []). }
  intros [].
  apply closed_bind; [no_mktemp|intros []].
  no_mktemp.
Qed.

(** *** The browser *)

Lemma opens_last_quiet {A} (P : str → Prop) (m : prog A) :
  Forall (fun e => ¬ is_open_browser e) m.1 → opens_last P m.
Proof.
  intros Hquiet url Hin.
  by apply (proj1 (Forall_forall _ _) Hquiet) in Hin.
Qed.

Lemma opens_last_bind {A B} (P : str → Prop) (m : prog A) (f : A → prog B) :
  Forall (fun e => ¬ is_open_browser e) m.1 →
  (∀ a, m.2 = Returns a → opens_last P (f a)) →
  opens_last P (m ≫= f).
Proof.
  intros Hquiet Hf url. rewrite prog_bind_eq.
  destruct m as [t [a|code|]]; simpl in *.
  - intros [Hin|Hin]%elem_of_app.
    { by apply (proj1 (Forall_forall _ _) Hquiet) in Hin. }
    destruct (Hf a eq_refl url Hin) as ((b & Hb) & (t' & Ht') & HP).
    split_and!; [by exists b| |done].
    exists (t ++ t'). by rewrite Ht', app_assoc.
  - intros Hin. by apply (proj1 (Forall_forall _ _) Hquiet) in Hin.
  - intros Hin. by apply (proj1 (Forall_forall _ _) Hquiet) in Hin.
Qed.

#[local] Ltac no_browser :=
  first [ apply run_Forall | apply check_dependencies_Forall
        | apply create_gist_Forall | apply upload_images_Forall | idtac ];
  repeat match goal with
         | |- context [if ?b then _ else _] => destruct b
         | |- context [match ?x with Some _ => _ | None => _ end] => destruct x
         end;
  simpl; by repeat (constructor || intros ? || intros []).

Lemma opens_last_main w args :
  opens_last
    (fun url => args_web args = true ∧ contains url snippet_host = true)
    (main w args).
Proof.
  unfold main.
  apply opens_last_bind; [no_browser|intros [] _].
  apply opens_last_bind; [no_browser|intros [] _].
  apply opens_last_bind; [no_browser|intros content _].
  apply opens_last_bind; [no_browser|intros [] _].
  apply opens_last_bind; [no_browser|intros [] _].
  apply opens_last_bind; [no_browser|intros [] _].
  apply opens_last_bind.
  { apply for_fold_Forall. intros vars ref.
    apply resolve_ref_Forall. by intros ? ? []. }
  intros [[rewrite_map resolved_images] taken_names] _.
  apply opens_last_bind; [no_browser|intros gist_url _].
  apply opens_last_bind.
  { destruct (check_gist_url gist_url) as [code lines|gist_id];
      [|by constructor].
    apply bind_Forall; [|intros; by constructor].
    apply for_each_Forall. intros line. repeat constructor. by intros []. }
  intros gist_id Hcheck.
  assert (contains gist_url snippet_host = true) as Hhost.
  { unfold check_gist_url in Hcheck.
    by destruct (contains gist_url snippet_host). }
  apply opens_last_bind; [no_browser|intros [] _].
  apply opens_last_bind.
  { destruct (negb _); [no_browser | by constructor]. }
  intros [] _.
  apply opens_last_bind; [no_browser|intros [] _].
  destruct (args_web args) eqn:Hweb; [|by apply opens_last_quiet; constructor].
  intros url Hin. rewrite prog_bind_eq in Hin |- *. simpl in Hin |- *.
  apply elem_of_cons in Hin as [Hin|Hin]; [done|].
  apply list_elem_of_singleton in Hin as [= ->].
  split_and!; [by exists tt | by eexists [_] | done | done].
Qed.

(** In every run, a command that is followed by another command, or by
    the return of [main], has returned with the code 0: [main] runs no
    command after one that failed, and it returns only when all of them
    succeeded. *)
Theorem commands_stop_at_first_failure (w : world) (args : arguments)
    (before after : list event) (cmd : list str) (cwd : option str) :
  (main w args).1 = before ++ Subprocess cmd cwd :: after →
  Exists is_subprocess after ∨ (∃ a, (main w args).2 = Returns a) →
  ∃ result, subprocess w cmd cwd = Some result ∧ returncode result = 0%Z.
Proof.
  intros Heq Hlater. destruct (disciplined_main w args) as [Hord Hok].
  destruct Hlater as [Hlater|[a Ha]].
  - by apply (Hord before (Subprocess cmd cwd) after).
  - apply Hok in Ha. rewrite Heq in Ha.
    apply Forall_app in Ha as [_ Ha]. by inversion Ha.
Qed.

(** In every run, however it ends, every temporary directory that [main]
    makes is removed afterwards; the directories are the staging directory
    and the directory of the clone. *)
Theorem temporary_directories_removed (w : world) (args : arguments)
    (before after : list event) (dir : str) :
  (main w args).1 = before ++ MkTemp dir :: after →
  RmTree dir ∈ after ∧ (dir = staging w ∨ dir = clone_dir w).
Proof.
  intros Heq. split; [by apply (closed_main w args before)|].
  pose proof (main_Forall
    (fun e => ∀ d, e = MkTemp d → d = staging w ∨ d = clone_dir w) w args)
    as Hall.
  rewrite Heq in Hall. apply Forall_app in Hall as [_ Hall].
  - inversion Hall as [|? ? Hhead _]. by apply Hhead.
  - done.
  - done.
  - intros d [= <-]. by left.
  - done.
  - intros d [= <-]. by right.
  - done.
  - done.
  - done.
  - done.
Qed.

(** The browser is opened only with [--web], only as the last thing of a
    run that returns, and only on the text that [gh gist create] printed,
    which contains [gist.github.com]. *)
Theorem browser_opened_last (w : world) (args : arguments) (url : str) :
  OpenBrowser url ∈ (main w args).1 →
  args_web args = true ∧
  (main w args).2 = Returns tt ∧
  (∃ t, (main w args).1 = t ++ [OpenBrowser url]) ∧
  occurs_in snippet_host url.
Proof.
  intros Hin.
  destruct (opens_last_main w args url Hin)
    as ((a & Ha) & Hlast & Hweb & Hhost).
  split_and!; [done | by destruct a | done | by apply contains_occurs].
Qed.

(** When the markdown file does not exist, when [gh] or [git] is not
    found, or when [gh auth status] fails, the run ends with the exit
    status 1 after messages on [sys.stderr]: it runs no command but
    [gh auth status], makes no directory, copies and writes no file. *)
Theorem failed_checks_change_nothing (w : world) (args : arguments) :
  isfile w (args_markdown_file args) = false ∨
  which w (txt "gh") = false ∨ which w (txt "git") = false ∨
  ¬ succeeded w (Subprocess [txt "gh"; txt "auth"; txt "status"] None) →
  exit_status (main w args).2 = 1%Z ∧
  Forall (fun e => (∃ line, e = Print true line) ∨
                   e = Subprocess [txt "gh"; txt "auth"; txt "status"] None)
    (main w args).1.
Proof.
  intros Hfail. unfold main.
  lazymatch goal with
  | |- context [check_dependencies w ≫= ?k] => set (rest := k)
  end.
  clearbody rest. unfold check_dependencies, subprocess_run.
  destruct (isfile w (args_markdown_file args)) eqn:Hfile; cbn -[txt];
    [|split; [done|repeat constructor; by eauto]].
  destruct (which w (txt "gh")) eqn:Hgh; cbn -[txt];
    [|split; [done|repeat constructor; by eauto]].
  destruct (which w (txt "git")) eqn:Hgit; cbn -[txt];
    [|split; [done|repeat constructor; by eauto]].
  destruct (subprocess w _ None) as [result|] eqn:Hrun; cbn -[txt];
    [|split; [done|repeat constructor; by eauto]].
  destruct (returncode result =? 0)%Z eqn:Hcode; cbn -[txt];
    [|split; [done|repeat constructor; by eauto]].
  exfalso. destruct Hfail as [?|[?|[?|Hauth]]]; try done.
  apply Hauth. simpl. exists result. split; [done|]. by apply Z.eqb_eq.
Qed.

Lemma commands_stop_at_first_failure_witness :
  let auth := [txt "gh"; txt "auth"; txt "status"] in
  let w := World (fun _ => true)
             (fun cmd _ => if bool_decide (cmd = auth)
                           then Some (Completed 0 [] [])
                           else Some (Completed 1 [] (txt "boom")))
             (fun p => bool_decide (p = txt "notes.md"))
             (fun _ => Some (txt "hello")) (fun _ _ => true) (fun _ _ => true)
             (fun _ => Some (txt "octocat")) (txt "/tmp/s") (txt "/tmp/c")
             (txt "/home/u") (Datetime 2026 1 2 3 4 5) (fun s => s) in
  let args := Args (txt "notes.md") None false None false in
  ∃ after,
    (main w args).1 = Subprocess auth None :: after ∧
    Subprocess [txt "gh"; txt "gist"; txt "create";
                txt "/tmp/s/2026-01-02T030405Z-notes.md"] None ∈ after ∧
    (main w args).2 = Exits 1 ∧
    ∃ result, subprocess w auth None = Some result ∧
              returncode result = 0%Z.
Proof.
  intros auth w args.
  assert (∃ after, (main w args).1 = Subprocess auth None :: after ∧
            Subprocess [txt "gh"; txt "gist"; txt "create";
                        txt "/tmp/s/2026-01-02T030405Z-notes.md"] None
            ∈ after)
    as (after & Heq & Hin).
  { eexists. split; [vm_compute; reflexivity|].
    do 6 right. left. }
  exists after. split_and!; [done | done | by vm_compute |].
  apply (commands_stop_at_first_failure w args [] after auth None Heq).
  left. apply Exists_exists. eexists. by split; [exact Hin|].
Defined.

Lemma temporary_directories_removed_witness :
  let auth := [txt "gh"; txt "auth"; txt "status"] in
  let w := World (fun _ => true)
             (fun cmd _ => if bool_decide (cmd = auth)
                           then Some (Completed 0 [] [])
                           else Some (Completed 1 [] (txt "boom")))
             (fun p => bool_decide (p = txt "notes.md"))
             (fun _ => Some (txt "hello")) (fun _ _ => true) (fun _ _ => true)
             (fun _ => Some (txt "octocat")) (txt "/tmp/s") (txt "/tmp/c")
             (txt "/home/u") (Datetime 2026 1 2 3 4 5) (fun s => s) in
  let args := Args (txt "notes.md") None false None false in
  ∃ before after,
    (main w args).1 = before ++ MkTemp (txt "/tmp/s") :: after ∧
    (main w args).2 = Exits 1 ∧
    RmTree (txt "/tmp/s") ∈ after.
Proof.
  intros auth w args.
  assert (∃ before after,
            (main w args).1 = before ++ MkTemp (txt "/tmp/s") :: after)
    as (before & after & Heq).
  { eexists [_; _; _; _; _], _. vm_compute. reflexivity. }
  exists before, after. split_and!; [done | by vm_compute |].
  by destruct (temporary_directories_removed w args before after
                 (txt "/tmp/s") Heq).
Defined.

Lemma browser_opened_last_witness :
  let url := txt "https://gist.github.com/octocat/abc123" in
  let w := World (fun _ => true)
             (fun cmd _ => Some (Completed 0 (url ++ ["010"]) []))
             (fun p => bool_decide (p = txt "notes.md"))
             (fun _ => Some (txt "hello")) (fun _ _ => true) (fun _ _ => true)
             (fun _ => Some (txt "octocat")) (txt "/tmp/s") (txt "/tmp/c")
             (txt "/home/u") (Datetime 2026 1 2 3 4 5) (fun s => s) in
  let args := Args (txt "notes.md") None false None true in
  OpenBrowser url ∈ (main w args).1 ∧
  (main w args).2 = Returns tt ∧
  ∃ t, (main w args).1 = t ++ [OpenBrowser url].
Proof.
  intros url w args.
  assert (OpenBrowser url ∈ (main w args).1) as Hin.
  { apply list_elem_of_In. vm_compute. repeat first [by left | right]. }
  split; [done|].
  destruct (browser_opened_last w args url Hin) as (_ & Hret & Hlast & _).
  by split.
Defined.

Lemma failed_checks_change_nothing_witness :
  let w := World (fun cmd => bool_decide (cmd = txt "gh"))
             (fun cmd _ => Some (Completed 0 [] []))
             (fun p => bool_decide (p = txt "notes.md"))
             (fun _ => Some (txt "hello")) (fun _ _ => true) (fun _ _ => true)
             (fun _ => Some (txt "octocat")) (txt "/tmp/s") (txt "/tmp/c")
             (txt "/home/u") (Datetime 2026 1 2 3 4 5) (fun s => s) in
  let args := Args (txt "notes.md") None false None false in
  which w (txt "git") = false ∧
  main w args
  = ([Print true (txt "Error: 'git' is required but not found.")], Exits 1) ∧
  exit_status (main w args).2 = 1%Z.
Proof.
  intros w args. split; [reflexivity|]. split; [by vm_compute|].
  apply (failed_checks_change_nothing w args).
  right. right. left. reflexivity.
Defined.
